(** * TIPC name table (net/tipc/name_table.c): a shallow embedding

    The name table maps a service [type] and an instance range
    [lower, upper] to the publications bound to it.  Each type owns a
    [name_seq] whose [sseqs] array holds one [sub_seq] per published range,
    sorted by lower bound; each [sub_seq] points to a [name_info] holding
    two kernel lists of publications, [local_publ] and [all_publ].

    Conventions of the embedding.
    - A [u32] is a [Z]; the arithmetic the code does on counters is written
      with its wrap-around ([wrap32]); an [int] is a [Z] reduced by [s32]
      (the kernel is built with wrapping signed arithmetic).
    - A kernel [list_head] list is a Rocq list whose head is the first
      entry: [list_add] is a cons, [list_move_tail] moves an entry to the
      end, [list_for_each_entry] walks the list from its head.
    - The [sseqs] array is a list holding all [alloc] slots, live or not;
      a pointer into it is an index.  A [name_info] is held by value in its
      slot: publications never change once created, only list membership
      does.
    - Every allocation site gets a boolean saying whether it succeeded.
    - A C call that dereferences a pointer it must not (the head of an
      empty list taken as an entry, the links of an entry that is on no
      list) has no result: the functions that can reach one return an
      option.
    - What the file does not define (own address test, scope test and
      constant, subscription overlap test and report) is a parameter of
      the development.
    Covered: the sub-sequence searches, publication insert and remove on a
    sequence and on the table, subscription and its removal, translation,
    the lookups and the multicast, node and group walks, and the
    destination list they fill.  The wrappers that talk to the name
    distributor (tipc_nametbl_publish, tipc_nametbl_withdraw), the purge
    at shutdown and the netlink dump are not. *)

From Stdlib Require Import ZArith List Bool Lia.
Import ListNotations.
Local Open Scope Z_scope.

(** ** Machine integers *)

Definition wrap32 (x : Z) : Z := x mod 2^32.

Definition s32 (x : Z) : Z := (x + 2^31) mod 2^32 - 2^31.

(** ** Data model *)

Record publication := mk_publication {
  publ_type : Z;
  publ_lower : Z;
  publ_upper : Z;
  publ_scope : Z;
  publ_node : Z;
  publ_port : Z;
  publ_key : Z
}.

(** struct name_info *)
Record name_info := mk_name_info {
  local_publ : list publication;
  all_publ : list publication
}.

(** struct sub_seq *)
Record sub_seq := mk_sub_seq {
  sseq_lower : Z;
  sseq_upper : Z;
  sseq_info : name_info
}.

(** struct tipc_subscription, with the fields [tipc_sub_read] extracts from
    its [evt.s] already decoded. *)
Record tipc_subscription := mk_subscription {
  sub_ref : Z;
  sub_seq_type : Z;
  sub_seq_lower : Z;
  sub_seq_upper : Z;
  sub_filter : Z
}.

(** struct name_seq *)
Record name_seq := mk_name_seq {
  ns_type : Z;
  sseqs : list sub_seq;
  alloc : Z;
  first_free : Z;
  subscriptions : list tipc_subscription
}.

(** struct name_table: the hash table of name sequences and the count of
    local publications. *)
Record name_table := mk_name_table {
  seq_hlist : list (list name_seq);
  local_publ_count : Z
}.

Definition TIPC_NAMETBL_SIZE : Z := 1024.

Definition hash (x : Z) : Z := Z.land x (TIPC_NAMETBL_SIZE - 1).

(** ** Arrays of sub-sequences *)

(** A slot as [kcalloc] leaves it.  Its null [info] pointer is written as an
    empty [name_info]: no function below reads a slot at or after
    [first_free]. *)
Definition zero_sseq : sub_seq := mk_sub_seq 0 0 (mk_name_info [] []).

Definition sseq_at (a : list sub_seq) (i : Z) : sub_seq :=
  nth (Z.to_nat i) a zero_sseq.

(** a[i] = x; a write outside the array is a buffer overrun in C and leaves
    the list as it is here.  [array_bounds] below states when every write is
    inside. *)
Definition sseq_set (a : list sub_seq) (i : Z) (x : sub_seq) : list sub_seq :=
  if (0 <=? i) && (i <? Z.of_nat (length a))
  then firstn (Z.to_nat i) a ++ x :: skipn (S (Z.to_nat i)) a
  else a.

(** memmove(a + dst, a + src, cnt * sizeof( *a)) *)
Definition sseq_memmove (a : list sub_seq) (dst src cnt : Z) : list sub_seq :=
  firstn (Z.to_nat dst) a
  ++ firstn (Z.to_nat cnt) (skipn (Z.to_nat src) a)
  ++ skipn (Z.to_nat (dst + cnt)) a.

(** tipc_subseq_alloc(cnt) when it succeeds: cnt zeroed slots *)
Definition tipc_subseq_alloc (cnt : Z) : list sub_seq :=
  repeat zero_sseq (Z.to_nat cnt).

(** memcpy(dst, src, cnt * sizeof( *src)) into the start of [dst] *)
Definition sseq_memcpy (dst src : list sub_seq) (cnt : Z) : list sub_seq :=
  firstn (Z.to_nat cnt) src ++ skipn (Z.to_nat cnt) dst.

(** ** Sub-sequence search *)

(** The [while (low <= high)] loop of nameseq_find_subseq.  [fuel] bounds the
    number of iterations; [find_subseq_fuel] shows that the fuel the callers
    give is never used up. *)
Fixpoint find_loop (fuel : nat) (a : list sub_seq) (instance low high : Z)
  : option Z :=
  match fuel with
  | O => None
  | S fuel' =>
    if low <=? high then
      let mid := Z.quot (s32 (low + high)) 2 in
      if instance <? sseq_lower (sseq_at a mid) then
        find_loop fuel' a instance low (s32 (mid - 1))
      else if sseq_upper (sseq_at a mid) <? instance then
        find_loop fuel' a instance (s32 (mid + 1)) high
      else Some mid
    else None
  end.

(** The same loop in nameseq_locate_subseq, which returns [mid] or [low]. *)
Fixpoint locate_loop (fuel : nat) (a : list sub_seq) (instance low high : Z)
  : Z :=
  match fuel with
  | O => low
  | S fuel' =>
    if low <=? high then
      let mid := Z.quot (s32 (low + high)) 2 in
      if instance <? sseq_lower (sseq_at a mid) then
        locate_loop fuel' a instance low (s32 (mid - 1))
      else if sseq_upper (sseq_at a mid) <? instance then
        locate_loop fuel' a instance (s32 (mid + 1)) high
      else mid
    else low
  end.

Definition search_fuel (nseq : name_seq) : nat :=
  S (Z.to_nat (first_free nseq)).

(** nameseq_find_subseq: the index of the sub-sequence holding [instance],
    or [None] for NULL. *)
Definition nameseq_find_subseq (nseq : name_seq) (instance : Z) : option Z :=
  find_loop (search_fuel nseq) (sseqs nseq) instance
            0 (s32 (wrap32 (first_free nseq - 1))).

(** nameseq_locate_subseq *)
Definition nameseq_locate_subseq (nseq : name_seq) (instance : Z) : Z :=
  wrap32 (locate_loop (search_fuel nseq) (sseqs nseq) instance
                      0 (s32 (wrap32 (first_free nseq - 1)))).

(** ** Effects *)

Inductive tipc_event := TIPC_PUBLISHED | TIPC_WITHDRAWN.

(** One call of tipc_sub_report_overlap(sub, found_lower, found_upper,
    event, port, node, scope, must).  The function is defined in the
    subscription module; what the name table does to a subscriber is the
    sequence of these calls. *)
Record overlap_report := mk_report {
  rep_sub : tipc_subscription;
  rep_lower : Z;
  rep_upper : Z;
  rep_event : tipc_event;
  rep_port : Z;
  rep_node : Z;
  rep_scope : Z;
  rep_must : bool
}.

(** The PUBLISHED report of publication [publ] of sub-sequence [s] to the
    subscriber [sub]. *)
Definition published_report (sub : tipc_subscription) (s : sub_seq)
    (must : bool) (publ : publication) : overlap_report :=
  mk_report sub (sseq_lower s) (sseq_upper s) TIPC_PUBLISHED
            (publ_port publ) (publ_node publ) (publ_scope publ) must.

(** The snapshot of one sub-sequence: a report for every publication on
    its all_publ list, the first with the flag set and the others without. *)
Definition snapshot_reports (sub : tipc_subscription) (s : sub_seq)
  : list overlap_report :=
  match all_publ (sseq_info s) with
  | [] => []
  | publ :: r =>
    published_report sub s true publ :: map (published_report sub s false) r
  end.

(** Outcome of the allocations one publish can make, in source order:
    the two of tipc_nameseq_create, the doubled array, the name_info and
    the publication. *)
Record publish_allocs := mk_allocs {
  nseq_ok : bool;
  sseq_ok : bool;
  grow_ok : bool;
  info_ok : bool;
  publ_ok : bool
}.

Definition allocs_succeed : publish_allocs :=
  mk_allocs true true true true true.

(** ** Kernel lists of publications *)

(** list_del of the first entry satisfying [f], the entry a
    list_for_each_entry loop stops at. *)
Fixpoint list_del_first (f : publication -> bool) (l : list publication)
  : list publication :=
  match l with
  | [] => []
  | p :: r => if f p then r else p :: list_del_first f r
  end.

Definition publ_eqb (p q : publication) : bool :=
  (publ_type p =? publ_type q) && (publ_lower p =? publ_lower q) &&
  (publ_upper p =? publ_upper q) && (publ_scope p =? publ_scope q) &&
  (publ_node p =? publ_node q) && (publ_port p =? publ_port q) &&
  (publ_key p =? publ_key q).

(** list_del(&publ->local_publ).  A publication that was never linked on the
    list has null links (it comes from kzalloc), and unlinking it
    dereferences them: [None].  The entry is told by its fields: the
    duplicate test of the insertion keeps two publications of one
    sub-sequence from having the same node, port and key. *)
Definition list_del_entry (publ : publication) (l : list publication)
  : option (list publication) :=
  if existsb (publ_eqb publ) l then Some (list_del_first (publ_eqb publ) l)
  else None.

(** The test both duplicate detection and withdrawal apply to a linked
    publication. *)
Definition publ_matches (node port key : Z) (publ : publication) : bool :=
  (publ_port publ =? port) && (publ_key publ =? key) &&
  ((publ_node publ =? 0) || (publ_node publ =? node)).

(** ** Destination lists *)

Definition dest_value (node port : Z) : Z := Z.lor (Z.shiftl node 32) port.

(** tipc_dest_find *)
Definition tipc_dest_find (l : list Z) (node port : Z) : option Z :=
  find (fun value => value =? dest_value node port) l.

(** tipc_dest_push; [kmalloc_ok] is the outcome of its allocation. *)
Definition tipc_dest_push (l : list Z) (node port : Z) (kmalloc_ok : bool)
  : bool * list Z :=
  match tipc_dest_find l node port with
  | Some _ => (false, l)
  | None =>
    if kmalloc_ok then (true, dest_value node port :: l) else (false, l)
  end.

(** What one single-destination lookup hands back when it selects [publ]
    into an empty list: the destination of [publ], and a count of one. *)
Definition round_result (publ : publication) : list Z * Z :=
  ([dest_value (publ_node publ) (publ_port publ)], 1).

(** tipc_dest_list_len *)
Definition tipc_dest_list_len (l : list Z) : Z := Z.of_nat (length l).

(** list_del(&dst->list) for the entry tipc_dest_find stopped at: the first
    one holding [value]. *)
Fixpoint dest_unlink (value : Z) (l : list Z) : list Z :=
  match l with
  | [] => []
  | v :: r => if v =? value then r else v :: dest_unlink value r
  end.

(** tipc_dest_del *)
Definition tipc_dest_del (l : list Z) (node port : Z) : bool * list Z :=
  match tipc_dest_find l node port with
  | None => (false, l)
  | Some _ => (true, dest_unlink (dest_value node port) l)
  end.

(** A value a u32 can hold. *)
Definition is_u32 (x : Z) : Prop := 0 <= x < 2^32.

(** The value of the destination a (node, port) pair stands for. *)
Definition pair_value (d : Z * Z) : Z := dest_value (fst d) (snd d).

(** ** Name sequences *)

(** tipc_nameseq_create, allocation succeeded; its caller links the result
    at the head of the hash chain. *)
Definition tipc_nameseq_create (type : Z) : name_seq :=
  mk_name_seq type (tipc_subseq_alloc 1) 1 0 [].

Definition set_sseqs (nseq : name_seq) (a : list sub_seq) : name_seq :=
  mk_name_seq (ns_type nseq) a (alloc nseq) (first_free nseq)
              (subscriptions nseq).

(** The lists of the name_info of slot [idx] are changed in place. *)
Definition set_info (nseq : name_seq) (idx : Z) (i : name_info) : name_seq :=
  let s := sseq_at (sseqs nseq) idx in
  set_sseqs nseq
    (sseq_set (sseqs nseq) idx (mk_sub_seq (sseq_lower s) (sseq_upper s) i)).

Section NameTable.

(** [tn->own_addr] *)
Variable own_addr : Z.
(** The largest scope a publication may have. *)
Variable TIPC_NODE_SCOPE : Z.
(** The filter bit that suppresses the initial status events. *)
Variable TIPC_SUB_NO_STATUS : Z.
(** in_own_node(net, node) *)
Variable in_own_node : Z -> bool.
(** tipc_in_scope(domain, addr) *)
Variable tipc_in_scope : Z -> Z -> bool.
(** tipc_sub_check_overlap(&ns, found_lower, found_upper), with [ns] given
    by its type and bounds. *)
Variable tipc_sub_check_overlap : Z -> Z -> Z -> Z -> Z -> bool.

(** The list_for_each_entry_safe loop over the subscriptions of a sequence. *)
Definition report_subscriptions (subs : list tipc_subscription)
    (publ : publication) (ev : tipc_event) (must : bool)
  : list overlap_report :=
  map (fun s => mk_report s (publ_lower publ) (publ_upper publ) ev
                          (publ_port publ) (publ_node publ) (publ_scope publ)
                          must) subs.

(** The binding set of a range that holds the one publication [publ]. *)
Definition first_binding (publ : publication) : name_info :=
  mk_name_info (if in_own_node (publ_node publ) then [publ] else []) [publ].

(** The end of tipc_nameseq_insert_publ, from "Insert a publication": [idx]
    is the slot of [sseq]. *)
Definition link_publication (nseq : name_seq) (idx : Z) (created_subseq : bool)
    (type lower upper scope node port key : Z) (al : publish_allocs)
  : option publication * name_seq * list overlap_report :=
  if publ_ok al then
    let publ := mk_publication type lower upper scope node port key in
    let i := sseq_info (sseq_at (sseqs nseq) idx) in
    let i' := mk_name_info
                (if in_own_node node then publ :: local_publ i
                 else local_publ i)
                (publ :: all_publ i) in
    (Some publ, set_info nseq idx i',
     report_subscriptions (subscriptions nseq) publ TIPC_PUBLISHED
                          created_subseq)
  else (None, nseq, []).

(** tipc_nameseq_insert_publ.  The result is the returned publication
    ([None] for NULL), the sequence as the call leaves it, and the reports
    made. *)
Definition tipc_nameseq_insert_publ (nseq : name_seq)
    (type lower upper scope node port key : Z) (al : publish_allocs)
  : option publication * name_seq * list overlap_report :=
  match nameseq_find_subseq nseq lower with
  | Some idx =>
    let sseq := sseq_at (sseqs nseq) idx in
    if negb (sseq_lower sseq =? lower) || negb (sseq_upper sseq =? upper)
    then (None, nseq, [])
    else if existsb (publ_matches node port key) (all_publ (sseq_info sseq))
    then (None, nseq, [])
    else link_publication nseq idx false type lower upper scope node port key al
  | None =>
    let inspos := nameseq_locate_subseq nseq lower in
    if (inspos <? first_free nseq) &&
       (sseq_lower (sseq_at (sseqs nseq) inspos) <=? upper)
    then (None, nseq, [])
    else
      let grown :=
        if first_free nseq =? alloc nseq then
          if grow_ok al then
            Some (mk_name_seq (ns_type nseq)
                    (sseq_memcpy (tipc_subseq_alloc (wrap32 (alloc nseq * 2)))
                                 (sseqs nseq) (alloc nseq))
                    (wrap32 (alloc nseq * 2)) (first_free nseq)
                    (subscriptions nseq))
          else None
        else Some nseq in
      match grown with
      | None => (None, nseq, [])
      | Some nseq1 =>
        if info_ok al then
          let moved := sseq_memmove (sseqs nseq1) (inspos + 1) inspos
                                    (first_free nseq1 - inspos) in
          let nseq2 :=
            mk_name_seq (ns_type nseq1)
              (sseq_set moved inspos
                        (mk_sub_seq lower upper (mk_name_info [] [])))
              (alloc nseq1) (wrap32 (first_free nseq1 + 1))
              (subscriptions nseq1) in
          link_publication nseq2 inspos true
                           type lower upper scope node port key al
        else (None, nseq1, [])
      end
  end.

(** tipc_nameseq_remove_publ.  [None] stands for the null dereference of
    [list_del_entry]; otherwise the returned publication, the sequence and
    the reports. *)
Definition tipc_nameseq_remove_publ (nseq : name_seq) (inst node port key : Z)
  : option (option publication * name_seq * list overlap_report) :=
  match nameseq_find_subseq nseq inst with
  | None => Some (None, nseq, [])
  | Some idx =>
    let i := sseq_info (sseq_at (sseqs nseq) idx) in
    match find (publ_matches node port key) (all_publ i) with
    | None => Some (None, nseq, [])
    | Some publ =>
      let all' := list_del_first (publ_matches node port key) (all_publ i) in
      match (if in_own_node node then list_del_entry publ (local_publ i)
             else Some (local_publ i)) with
      | None => None
      | Some local' =>
        (* the slot keeps the emptied lists where C frees the name_info *)
        let nseq1 := set_info nseq idx (mk_name_info local' all') in
        match all' with
        | [] =>
          let free := first_free nseq1 in
          Some (Some publ,
                mk_name_seq (ns_type nseq1)
                  (sseq_memmove (sseqs nseq1) idx (idx + 1) (free - (idx + 1)))
                  (alloc nseq1) (wrap32 (first_free nseq1 - 1))
                  (subscriptions nseq1),
                report_subscriptions (subscriptions nseq) publ
                                     TIPC_WITHDRAWN true)
        | _ :: _ =>
          Some (Some publ, nseq1,
                report_subscriptions (subscriptions nseq) publ
                                     TIPC_WITHDRAWN false)
        end
      end
    end
  end.

(** The inner loop of tipc_nameseq_subscribe over one all_publ list. *)
Fixpoint subscribe_reports (sub : tipc_subscription) (sseq : sub_seq)
    (l : list publication) (must_report : bool) : list overlap_report :=
  match l with
  | [] => []
  | crs :: r =>
    mk_report sub (sseq_lower sseq) (sseq_upper sseq) TIPC_PUBLISHED
              (publ_port crs) (publ_node crs) (publ_scope crs) must_report
    :: subscribe_reports sub sseq r false
  end.

(** Its outer loop: [sseq] walks from slot [i] over the [n] slots left
    before [&nseq->sseqs[nseq->first_free]]. *)
Fixpoint subscribe_loop (sub : tipc_subscription) (a : list sub_seq)
    (n : nat) (i : Z) : list overlap_report :=
  match n with
  | O => []
  | S n' =>
    let sseq := sseq_at a i in
    (if tipc_sub_check_overlap (sub_seq_type sub) (sub_seq_lower sub)
          (sub_seq_upper sub) (sseq_lower sseq) (sseq_upper sseq)
     then subscribe_reports sub sseq (all_publ (sseq_info sseq)) true
     else [])
    ++ subscribe_loop sub a n' (i + 1)
  end.

(** tipc_nameseq_subscribe, without the reference count it takes on the
    subscription; the array pointer of a created sequence is never null. *)
Definition tipc_nameseq_subscribe (nseq : name_seq) (sub : tipc_subscription)
  : name_seq * list overlap_report :=
  let no_status := negb (Z.land (sub_filter sub) TIPC_SUB_NO_STATUS =? 0) in
  let nseq' := mk_name_seq (ns_type nseq) (sseqs nseq) (alloc nseq)
                           (first_free nseq) (sub :: subscriptions nseq) in
  if no_status then (nseq', [])
  else (nseq', subscribe_loop sub (sseqs nseq) (Z.to_nat (first_free nseq)) 0).

(** ** The name table *)

Definition bucket_of (tbl : name_table) (index : Z) : list name_seq :=
  nth (Z.to_nat index) (seq_hlist tbl) [].

(** seq_hlist[index] = b *)
Definition set_bucket (tbl : name_table) (index : Z) (b : list name_seq)
  : name_table :=
  mk_name_table
    (firstn (Z.to_nat index) (seq_hlist tbl) ++ b ::
     skipn (S (Z.to_nat index)) (seq_hlist tbl))
    (local_publ_count tbl).

(** nametbl_find_seq; [type] is a u32 that hash takes as an int. *)
Definition nametbl_find_seq (tbl : name_table) (type : Z) : option name_seq :=
  find (fun ns => ns_type ns =? type) (bucket_of tbl (hash (s32 type))).

(** The sequence nametbl_find_seq returned is changed in place: the first
    entry of the chain with this type takes the new contents. *)
Fixpoint store_seq (type : Z) (ns' : name_seq) (b : list name_seq)
  : list name_seq :=
  match b with
  | [] => []
  | ns :: r => if ns_type ns =? type then ns' :: r
               else ns :: store_seq type ns' r
  end.

(** hlist_del_init_rcu(&seq->ns_list) for that sequence *)
Fixpoint unlink_seq (type : Z) (b : list name_seq) : list name_seq :=
  match b with
  | [] => []
  | ns :: r => if ns_type ns =? type then r else ns :: unlink_seq type r
  end.

Definition update_seq (tbl : name_table) (type : Z) (ns' : name_seq)
  : name_table :=
  let index := hash (s32 type) in
  set_bucket tbl index (store_seq type ns' (bucket_of tbl index)).

(** tipc_nametbl_init *)
Definition tipc_nametbl_init : name_table :=
  mk_name_table (repeat [] (Z.to_nat TIPC_NAMETBL_SIZE)) 0.

(** tipc_nametbl_insert_publ *)
Definition tipc_nametbl_insert_publ (tbl : name_table)
    (type lower upper scope node port key : Z) (al : publish_allocs)
  : option publication * name_table * list overlap_report :=
  let seq := nametbl_find_seq tbl type in
  let index := hash (s32 type) in
  if (TIPC_NODE_SCOPE <? scope) || (upper <? lower) then (None, tbl, [])
  else
    let created :=
      match seq with
      | Some ns => Some (tbl, ns)
      | None =>
        if nseq_ok al && sseq_ok al then
          let ns := tipc_nameseq_create type in
          Some (set_bucket tbl index (ns :: bucket_of tbl index), ns)
        else None
      end in
    match created with
    | None => (None, tbl, [])
    | Some (tbl1, ns) =>
      let '(publ, ns', reports) :=
        tipc_nameseq_insert_publ ns type lower upper scope node port key al in
      (publ, update_seq tbl1 type ns', reports)
    end.

(** tipc_nametbl_remove_publ *)
Definition tipc_nametbl_remove_publ (tbl : name_table)
    (type lower node port key : Z)
  : option (option publication * name_table * list overlap_report) :=
  match nametbl_find_seq tbl type with
  | None => Some (None, tbl, [])
  | Some seq =>
    match tipc_nameseq_remove_publ seq lower node port key with
    | None => None
    | Some (publ, seq', reports) =>
      if (first_free seq' =? 0) &&
         (match subscriptions seq' with [] => true | _ => false end)
      then
        let index := hash (s32 type) in
        Some (publ,
              set_bucket tbl index (unlink_seq type (bucket_of tbl index)),
              reports)
      else Some (publ, update_seq tbl type seq', reports)
    end
  end.

(** list_first_entry and list_move_tail on one list: the entry chosen and
    the list after it moved to the tail.  On an empty list the C code reads
    a publication that does not exist: [None]. *)
Definition first_entry_move_tail (l : list publication)
  : option (publication * list publication) :=
  match l with
  | [] => None
  | publ :: r => Some (publ, r ++ [publ])
  end.

(** tipc_nametbl_translate.  The result is the returned port, the value
    left in [*destnode], and the table. *)
Definition tipc_nametbl_translate (tbl : name_table)
    (type instance destnode : Z) : option (Z * Z * name_table) :=
  if negb (tipc_in_scope destnode own_addr) then Some (0, destnode, tbl)
  else
    match nametbl_find_seq tbl type with
    | None => Some (0, 0, tbl)
    | Some seq =>
      match nameseq_find_subseq seq instance with
      | None => Some (0, 0, tbl)
      | Some idx =>
        let i := sseq_info (sseq_at (sseqs seq) idx) in
        let from_local :=
          match first_entry_move_tail (local_publ i) with
          | Some (publ, l') =>
            Some (publ_port publ, publ_node publ,
                  update_seq tbl type
                    (set_info seq idx (mk_name_info l' (all_publ i))))
          | None => None
          end in
        let from_all :=
          match first_entry_move_tail (all_publ i) with
          | Some (publ, l') =>
            Some (publ_port publ, publ_node publ,
                  update_seq tbl type
                    (set_info seq idx (mk_name_info (local_publ i) l')))
          | None => None
          end in
        if destnode =? 0 then
          match local_publ i with
          | _ :: _ => from_local
          | [] => from_all
          end
        else if destnode =? own_addr then
          match local_publ i with
          | [] => Some (0, 0, tbl)
          | _ :: _ => from_local
          end
        else from_all
      end
    end.

(** The list_for_each_entry loop of tipc_nametbl_lookup over one all_publ
    list: the destination list, the count and the all_publ list it leaves.
    [kmalloc_ok n] is the outcome of the allocation tipc_dest_push makes for
    the n-th entry of the list, when it makes one. *)
Fixpoint lookup_loop (l : list publication) (scope exclude : Z) (all : bool)
    (kmalloc_ok : nat -> bool) (dsts : list Z) (dstcnt : Z)
  : list Z * Z * list publication :=
  match l with
  | [] => (dsts, dstcnt, [])
  | publ :: r =>
    let continue dsts dstcnt :=
      let '(d, c, r') :=
        lookup_loop r scope exclude all (fun n => kmalloc_ok (S n))
                    dsts dstcnt in
      (d, c, publ :: r') in
    if negb (publ_scope publ =? scope) then continue dsts dstcnt
    else if (publ_port publ =? exclude) && (publ_node publ =? own_addr)
    then continue dsts dstcnt
    else
      let dsts' := snd (tipc_dest_push dsts (publ_node publ) (publ_port publ)
                                       (kmalloc_ok O)) in
      let dstcnt' := s32 (dstcnt + 1) in
      if all then continue dsts' dstcnt'
      else (dsts', dstcnt', r ++ [publ])
  end.

(** tipc_nametbl_lookup.  The result is the returned flag, the destination
    list, [*dstcnt] and the table. *)
Definition tipc_nametbl_lookup (tbl : name_table)
    (type instance scope : Z) (dsts : list Z) (exclude : Z) (all : bool)
    (kmalloc_ok : nat -> bool)
  : bool * list Z * Z * name_table :=
  let nonempty (d : list Z) := match d with [] => false | _ => true end in
  match nametbl_find_seq tbl type with
  | None => (nonempty dsts, dsts, 0, tbl)
  | Some seq =>
    match nameseq_find_subseq seq instance with
    | None => (nonempty dsts, dsts, 0, tbl)
    | Some idx =>
      let i := sseq_info (sseq_at (sseqs seq) idx) in
      let '(d, c, l') :=
        lookup_loop (all_publ i) scope exclude all kmalloc_ok dsts 0 in
      (nonempty d, d, c,
       update_seq tbl type (set_info seq idx (mk_name_info (local_publ i) l')))
    end
  end.

(** Publishing the bindings [bs], given as (node, port, key), one after
    the other on the range [lower, upper] of [type], every allocation
    succeeding. *)
Fixpoint publish_bindings (tbl : name_table) (type lower upper scope : Z)
    (bs : list (Z * Z * Z)) : name_table :=
  match bs with
  | [] => tbl
  | (node, port, key) :: r =>
    publish_bindings
      (snd (fst (tipc_nametbl_insert_publ tbl type lower upper scope
                   node port key allocs_succeed)))
      type lower upper scope r
  end.

(** The reports for one sub-sequence, if it overlaps the subscription. *)
Definition overlap_snapshot (sub : tipc_subscription) (s : sub_seq)
  : list overlap_report :=
  if tipc_sub_check_overlap (sub_seq_type sub) (sub_seq_lower sub)
                            (sub_seq_upper sub) (sseq_lower s) (sseq_upper s)
  then snapshot_reports sub s else [].

(** What the loop of tipc_nametbl_lookup accepts: the requested scope, and
    not the caller's own port on this node. *)
Definition acceptable (scope exclude : Z) (publ : publication) : bool :=
  (publ_scope publ =? scope) &&
  negb ((publ_port publ =? exclude) && (publ_node publ =? own_addr)).

(** [n] calls of tipc_nametbl_lookup in a row for one destination
    ([all] false), each on an empty destination list and with its
    allocation succeeding: the destination list and count of every call,
    and the table after the last. *)
Fixpoint lookup_rounds (n : nat) (tbl : name_table)
    (type instance scope exclude : Z) : list (list Z * Z) * name_table :=
  match n with
  | O => ([], tbl)
  | S n' =>
    let '(_, d, c, tbl1) :=
      tipc_nametbl_lookup tbl type instance scope [] exclude false
                          (fun _ => true) in
    let '(rs, tbl2) := lookup_rounds n' tbl1 type instance scope exclude in
    ((d, c) :: rs, tbl2)
  end.

End NameTable.

(** ** Range walks *)

(** The test of tipc_nametbl_mc_lookup on a local publication. *)
Definition mc_accepts (scope : Z) (exact : bool) (p : publication) : bool :=
  (publ_scope p =? scope) || (negb exact && (publ_scope p <? scope)).

(** Its loop over one local_publ list.  [kmalloc_ok n] is the outcome of
    the allocation of the n-th call of tipc_dest_push the lookup makes,
    when it makes one; [calls] counts the calls made so far. *)
Fixpoint mc_push_ports (l : list publication) (scope : Z) (exact : bool)
    (kmalloc_ok : nat -> bool) (calls : nat) (dports : list Z)
  : list Z * nat :=
  match l with
  | [] => (dports, calls)
  | p :: r =>
    if mc_accepts scope exact p then
      mc_push_ports r scope exact kmalloc_ok (S calls)
        (snd (tipc_dest_push dports 0 (publ_port p) (kmalloc_ok calls)))
    else mc_push_ports r scope exact kmalloc_ok calls dports
  end.

(** Its loop over the array: [sseq] walks from slot [i] over the [n] slots
    left before [sseq_stop] and stops early at a lower bound above
    [upper]. *)
Fixpoint mc_scan (a : list sub_seq) (n : nat) (i : Z) (upper scope : Z)
    (exact : bool) (kmalloc_ok : nat -> bool) (calls : nat)
    (dports : list Z) : list Z :=
  match n with
  | O => dports
  | S n' =>
    let sseq := sseq_at a i in
    if upper <? sseq_lower sseq then dports
    else
      let '(d, calls') :=
        mc_push_ports (local_publ (sseq_info sseq)) scope exact kmalloc_ok
                      calls dports in
      mc_scan a n' (i + 1) upper scope exact kmalloc_ok calls' d
  end.

(** tipc_nametbl_mc_lookup: the list [dports] after the call.  A start
    past [first_free] would walk [sseq] off the array without ever
    meeting [sseq_stop]: [None]. *)
Definition tipc_nametbl_mc_lookup (tbl : name_table)
    (type lower upper scope : Z) (exact : bool) (dports : list Z)
    (kmalloc_ok : nat -> bool) : option (list Z) :=
  match nametbl_find_seq tbl type with
  | None => Some dports
  | Some seq =>
    let start := nameseq_locate_subseq seq lower in
    if start <=? first_free seq then
      Some (mc_scan (sseqs seq) (Z.to_nat (first_free seq - start)) start
                    upper scope exact kmalloc_ok O dports)
    else None
  end.

(** The loop of tipc_nametbl_lookup_dst_nodes: the nodes it hands to
    tipc_nlist_add, in order. *)
Fixpoint dst_nodes_scan (a : list sub_seq) (n : nat) (i : Z) (upper : Z)
  : list Z :=
  match n with
  | O => []
  | S n' =>
    let sseq := sseq_at a i in
    if sseq_lower sseq <=? upper then
      map publ_node (all_publ (sseq_info sseq))
      ++ dst_nodes_scan a n' (i + 1) upper
    else []
  end.

(** tipc_nametbl_lookup_dst_nodes, as the sequence of its calls of
    tipc_nlist_add; [None] as for the multicast lookup. *)
Definition tipc_nametbl_lookup_dst_nodes (tbl : name_table)
    (type lower upper : Z) : option (list Z) :=
  match nametbl_find_seq tbl type with
  | None => Some []
  | Some seq =>
    let start := nameseq_locate_subseq seq lower in
    if start <=? first_free seq then
      Some (dst_nodes_scan (sseqs seq) (Z.to_nat (first_free seq - start))
                           start upper)
    else None
  end.

(** The loop of tipc_nametbl_build_group over one all_publ list: the
    (node, port, lower) triples it hands to tipc_group_add_member. *)
Fixpoint build_group_publs (l : list publication) (scope : Z)
  : list (Z * Z * Z) :=
  match l with
  | [] => []
  | p :: r =>
    if negb (publ_scope p =? scope) then build_group_publs r scope
    else (publ_node p, publ_port p, publ_lower p)
         :: build_group_publs r scope
  end.

(** Its loop over the live slots from [i]. *)
Fixpoint build_group_scan (a : list sub_seq) (n : nat) (i : Z) (scope : Z)
  : list (Z * Z * Z) :=
  match n with
  | O => []
  | S n' =>
    build_group_publs (all_publ (sseq_info (sseq_at a i))) scope
    ++ build_group_scan a n' (i + 1) scope
  end.

(** tipc_nametbl_build_group, as the sequence of its calls of
    tipc_group_add_member. *)
Definition tipc_nametbl_build_group (tbl : name_table) (type scope : Z)
  : list (Z * Z * Z) :=
  match nametbl_find_seq tbl type with
  | None => []
  | Some seq =>
    build_group_scan (sseqs seq) (Z.to_nat (first_free seq)) 0 scope
  end.

(** ** Subscriptions on the table *)

Section Subscriptions.

Variable TIPC_SUB_NO_STATUS : Z.
Variable tipc_sub_check_overlap : Z -> Z -> Z -> Z -> Z -> bool.

(** tipc_nametbl_subscribe: the table and the reports made.  When the
    sequence of the type cannot be created the call only logs a warning. *)
Definition tipc_nametbl_subscribe (tbl : name_table)
    (sub : tipc_subscription) (al : publish_allocs)
  : name_table * list overlap_report :=
  let type := sub_seq_type sub in
  let index := hash (s32 type) in
  let created :=
    match nametbl_find_seq tbl type with
    | Some ns => Some (tbl, ns)
    | None =>
      if nseq_ok al && sseq_ok al then
        let ns := tipc_nameseq_create type in
        Some (set_bucket tbl index (ns :: bucket_of tbl index), ns)
      else None
    end in
  match created with
  | None => (tbl, [])
  | Some (tbl1, ns) =>
    let '(ns', reports) :=
      tipc_nameseq_subscribe TIPC_SUB_NO_STATUS tipc_sub_check_overlap ns sub
    in (update_seq tbl1 type ns', reports)
  end.

End Subscriptions.

(** list_del_init(&sub->nameseq_list) for a subscription that is on the
    list [l]: the entry with its [sub_ref], which tells subscription
    objects apart, leaves the list. *)
Fixpoint sub_unlink (ref : Z) (l : list tipc_subscription)
  : list tipc_subscription :=
  match l with
  | [] => []
  | s :: r => if sub_ref s =? ref then r else s :: sub_unlink ref r
  end.

(** tipc_nametbl_unsubscribe, without the reference it drops.
    list_del_init works on the links of [sub] itself: the result is the
    table when [sub] is on the list of the sequence of its type, where
    tipc_nametbl_subscribe puts it.  When it is not, what the call unlinks
    lies outside the table: [None]. *)
Definition tipc_nametbl_unsubscribe (tbl : name_table)
    (sub : tipc_subscription) : option name_table :=
  let type := sub_seq_type sub in
  match nametbl_find_seq tbl type with
  | None => Some tbl
  | Some seq =>
    if existsb (fun s => sub_ref s =? sub_ref sub) (subscriptions seq) then
      let seq' := mk_name_seq (ns_type seq) (sseqs seq) (alloc seq)
                    (first_free seq)
                    (sub_unlink (sub_ref sub) (subscriptions seq)) in
      if (first_free seq' =? 0) &&
         match subscriptions seq' with [] => true | _ :: _ => false end
      then
        let index := hash (s32 type) in
        Some (set_bucket tbl index (unlink_seq type (bucket_of tbl index)))
      else Some (update_seq tbl type seq')
    else None
  end.

(** ** Invariants *)

(** The entries in use: the first [first_free] slots of the array. *)
Definition live (nseq : name_seq) : list sub_seq :=
  firstn (Z.to_nat (first_free nseq)) (sseqs nseq).

(** Every range is well formed and ends before the next one starts. *)
Fixpoint ranges_sorted (l : list sub_seq) : bool :=
  match l with
  | [] => true
  | s :: r =>
    (sseq_lower s <=? sseq_upper s) &&
    match r with
    | [] => true
    | t :: _ => sseq_upper s <? sseq_lower t
    end && ranges_sorted r
  end.

Definition has_binding (s : sub_seq) : bool :=
  match all_publ (sseq_info s) with [] => false | _ :: _ => true end.

(** The largest array for which the int arithmetic of the searches and the
    u32 arithmetic of the counters stay in range. *)
Definition max_alloc : Z := 2^30.

Definition array_bounds (nseq : name_seq) : bool :=
  (Z.of_nat (length (sseqs nseq)) =? alloc nseq) &&
  (0 <=? first_free nseq) && (first_free nseq <=? alloc nseq) &&
  (1 <=? alloc nseq) && (alloc nseq <=? max_alloc).

Definition nameseq_inv (nseq : name_seq) : bool :=
  array_bounds nseq && ranges_sorted (live nseq) &&
  forallb has_binding (live nseq).

Definition nametbl_inv (tbl : name_table) : bool :=
  (Z.of_nat (length (seq_hlist tbl)) =? TIPC_NAMETBL_SIZE) &&
  forallb (forallb nameseq_inv) (seq_hlist tbl).

(** The table has a sequence for [type] whose slot [idx] is the
    sub-sequence found for [instance], with binding set [i]. *)
Definition binding_at (tbl : name_table) (type instance idx : Z)
    (i : name_info) : Prop :=
  exists nseq,
    Z.of_nat (length (seq_hlist tbl)) = TIPC_NAMETBL_SIZE /\
    nametbl_find_seq tbl type = Some nseq /\
    array_bounds nseq = true /\
    nameseq_find_subseq nseq instance = Some idx /\
    sseq_info (sseq_at (sseqs nseq) idx) = i.

(** The list [l] without its entry at index [idx]. *)
Definition delete_at (idx : Z) (l : list sub_seq) : list sub_seq :=
  firstn (Z.to_nat idx) l ++ skipn (S (Z.to_nat idx)) l.

(** The conflict of a publish with a sub-sequence, in the words of the
    specification: the range of the sub-sequence overlaps the new one
    without being the same range, or it is the same range and already holds
    a publication with this port and key whose node is the new node or
    zero. *)
Definition overlaps (s : sub_seq) (lower upper : Z) : bool :=
  (sseq_lower s <=? upper) && (lower <=? sseq_upper s).

Definition exact_range (s : sub_seq) (lower upper : Z) : bool :=
  (sseq_lower s =? lower) && (sseq_upper s =? upper).

Definition conflicts_with (lower upper node port key : Z) (s : sub_seq)
  : bool :=
  (overlaps s lower upper && negb (exact_range s lower upper)) ||
  (exact_range s lower upper &&
   existsb (publ_matches node port key) (all_publ (sseq_info s))).

Definition publish_conflict (nseq : name_seq) (lower upper node port key : Z)
  : bool :=
  existsb (conflicts_with lower upper node port key) (live nseq).

(** The live sub-sequences whose range meets [lower, upper], in array
    order. *)
Definition overlapping (nseq : name_seq) (lower upper : Z) : list sub_seq :=
  filter (fun s => overlaps s lower upper) (live nseq).

(** The sub-sequences a forward walk visits: from slot [i], at most [n] of
    them, up to the first whose lower bound is above [upper]. *)
Fixpoint scan_visit (a : list sub_seq) (n : nat) (i : Z) (upper : Z)
  : list sub_seq :=
  match n with
  | O => []
  | S n' =>
    if upper <? sseq_lower (sseq_at a i) then []
    else sseq_at a i :: scan_visit a n' (i + 1) upper
  end.

(** The ports a multicast lookup takes from one sub-sequence. *)
Definition mc_ports (scope : Z) (exact : bool) (s : sub_seq) : list Z :=
  map publ_port (filter (mc_accepts scope exact) (local_publ (sseq_info s))).

(** tipc_dest_push(dports, 0, port) for the ports of a list in turn. *)
Fixpoint push_ports (ports : list Z) (kmalloc_ok : nat -> bool) (calls : nat)
    (dports : list Z) : list Z :=
  match ports with
  | [] => dports
  | q :: r =>
    push_ports r kmalloc_ok (S calls)
               (snd (tipc_dest_push dports 0 q (kmalloc_ok calls)))
  end.

Definition contains (s : sub_seq) (instance : Z) : bool :=
  (sseq_lower s <=? instance) && (instance <=? sseq_upper s).

(** Index of the first entry of [l] that starts after [instance], counted
    from [i]; the index after the last entry when there is none. *)
Fixpoint first_above (l : list sub_seq) (instance : Z) (i : Z) : Z :=
  match l with
  | [] => i
  | s :: r => if instance <? sseq_lower s then i
              else first_above r instance (i + 1)
  end.

(** The same order stated on the slots [0 .. n-1] of an array. *)
Definition sorted_upto (a : list sub_seq) (n : Z) : Prop :=
  (forall i, 0 <= i < n ->
     sseq_lower (sseq_at a i) <= sseq_upper (sseq_at a i)) /\
  (forall i j, 0 <= i < j -> j < n ->
     sseq_upper (sseq_at a i) < sseq_lower (sseq_at a j)).

(** Following the spec's words for the result of locate_subseq when no
    range holds [instance]: the lowest index, in scan order, of an entry
    with [lower <= instance], else the array length. *)
Fixpoint spec_tie_break (l : list sub_seq) (instance : Z) (i : Z) : Z :=
  match l with
  | [] => i
  | s :: r => if sseq_lower s <=? instance then i
              else spec_tie_break r instance (i + 1)
  end.

(** A sequence holding one range: what the first publish of a type makes. *)
Definition single_range (type lower upper : Z) (i : name_info) : name_seq :=
  mk_name_seq type [mk_sub_seq lower upper i] 1 1 [].

(** The publication a binding (node, port, key) becomes. *)
Definition binding_publ (type lower upper scope : Z) (b : Z * Z * Z)
  : publication :=
  let '(node, port, key) := b in
  mk_publication type lower upper scope node port key.

(** The port and key of a binding. *)
Definition binding_key (b : Z * Z * Z) : Z * Z :=
  let '(node, port, key) := b in (port, key).

(** The binding set [old] with [publ] linked at the head of its lists, as
    the end of tipc_nameseq_insert_publ links it. *)
Definition linked (in_own_node : Z -> bool) (publ : publication)
    (old : name_info) : name_info :=
  mk_name_info (if in_own_node (publ_node publ) then publ :: local_publ old
                else local_publ old)
               (publ :: all_publ old).

(** The list [l] with [x] put in before its entry at index [pos]. *)
Definition insert_at (pos : Z) (x : sub_seq) (l : list sub_seq)
  : list sub_seq :=
  firstn (Z.to_nat pos) l ++ x :: skipn (Z.to_nat pos) l.

(** The list [l] with [x] in the place of its entry at index [pos]. *)
Definition replace_at (pos : Z) (x : sub_seq) (l : list sub_seq)
  : list sub_seq :=
  firstn (Z.to_nat pos) l ++ x :: skipn (S (Z.to_nat pos)) l.

(** The list [l] with its first entry satisfying [f] moved to the tail. *)
Fixpoint move_first_tail (f : publication -> bool) (l : list publication)
  : list publication :=
  match l with
  | [] => []
  | p :: r => if f p then r ++ [p] else p :: move_first_tail f r
  end.

(** The position of the first entry of [l] satisfying [f]. *)
Fixpoint first_index (f : publication -> bool) (l : list publication) : nat :=
  match l with
  | [] => O
  | p :: r => if f p then O else S (first_index f r)
  end.

(** A report with its event changed to TIPC_WITHDRAWN. *)
Definition withdrawn (r : overlap_report) : overlap_report :=
  mk_report (rep_sub r) (rep_lower r) (rep_upper r) TIPC_WITHDRAWN
            (rep_port r) (rep_node r) (rep_scope r) (rep_must r).

(** A sequence with no sub-sequence and no subscriber, which the
    withdrawal and unsubscribe paths unlink. *)
Definition unused (seq : name_seq) : bool :=
  (first_free seq =? 0) &&
  match subscriptions seq with [] => true | _ :: _ => false end.

(** What tipc_nametbl_build_group hands over for one publication. *)
Definition group_member (p : publication) : Z * Z * Z :=
  (publ_node p, publ_port p, publ_lower p).

(** The two lists of a sub-sequence agree: no publication is twice on
    all_publ, and every publication on it that this node made is on
    local_publ as well. *)
Definition lists_agree (in_own_node : Z -> bool) (s : sub_seq) : Prop :=
  NoDup (all_publ (sseq_info s)) /\
  forall p, In p (all_publ (sseq_info s)) ->
            in_own_node (publ_node p) = true ->
            In p (local_publ (sseq_info s)).

(** ** Sample states *)

Definition sample_publ (lower upper node port key : Z) : publication :=
  mk_publication 10 lower upper 0 node port key.

(** One choice of the parameters, for the worked examples: node 7, three
    scopes, and the plain readings of the three tests. *)
Definition sample_own : Z := 7.
Definition sample_max_scope : Z := 3.
Definition sample_no_status : Z := 32.
Definition sample_in_own_node (node : Z) : bool := node =? sample_own.
Definition sample_in_scope (domain addr : Z) : bool :=
  (domain =? 0) || (domain =? addr).
Definition sample_check_overlap (type lower upper found_lower found_upper : Z)
  : bool :=
  Z.max lower found_lower <=? Z.min upper found_upper.

Definition sample_publish (tbl : name_table)
    (type lower upper scope node port key : Z) : name_table :=
  snd (fst (tipc_nametbl_insert_publ sample_max_scope sample_in_own_node tbl
              type lower upper scope node port key allocs_succeed)).

(** The range [5,5] of type 10 bound twice by port 200 of node 9, under the
    keys 1 and 2. *)
Definition twice_bound : name_table :=
  sample_publish (sample_publish tipc_nametbl_init 10 5 5 0 9 200 1)
                 10 5 5 0 9 200 2.

(** The range [5,5] of type 10 bound once, by port 200 of node 9. *)
Definition once_bound : name_table :=
  sample_publish tipc_nametbl_init 10 5 5 0 9 200 1.

(** The same range bound by port 100 of this node and then by port 200 of
    node 9. *)
Definition mixed_bound : name_table :=
  sample_publish (sample_publish tipc_nametbl_init 10 5 5 0 sample_own 100 1)
                 10 5 5 0 9 200 2.

(** The same range bound three times by other nodes. *)
Definition thrice_bound : name_table :=
  sample_publish
    (sample_publish (sample_publish tipc_nametbl_init 10 5 5 0 9 201 1)
                    10 5 5 0 9 202 1)
    10 5 5 0 8 203 1.

Definition sample_sub : tipc_subscription := mk_subscription 1 10 0 9 0.

(** A sequence with one subscriber whose one range [5,5] holds one
    publication of this node. *)
Definition own_range : name_seq :=
  mk_name_seq 10
    [mk_sub_seq 5 5 (mk_name_info [sample_publ 5 5 sample_own 100 1]
                                  [sample_publ 5 5 sample_own 100 1])]
    1 1 [sample_sub].

(** A sequence whose one range [5,5] holds two publications. *)
Definition pair_bound : name_seq :=
  mk_name_seq 10
    [mk_sub_seq 5 5 (mk_name_info [] [sample_publ 5 5 9 201 1;
                                      sample_publ 5 5 9 202 1])]
    1 1 [].

(** A sequence of type 10 with the ranges [1,2] and [5,6]. *)
Definition two_ranges : name_seq :=
  mk_name_seq 10
    [mk_sub_seq 1 2 (mk_name_info [] [sample_publ 1 2 9 101 1]);
     mk_sub_seq 5 6 (mk_name_info [] [sample_publ 5 6 9 102 1])]
    2 2 [].

(** [two_ranges] once its range [5,6] is withdrawn: slot 1 is no longer
    live and keeps its bounds. *)
Definition two_ranges_withdrawn : name_seq :=
  mk_name_seq 10
    [mk_sub_seq 1 2 (mk_name_info [] [sample_publ 1 2 9 101 1]);
     mk_sub_seq 5 6 (mk_name_info [] [])]
    2 1 [].

(** A table whose type 10 has the ranges [1,2] and [5,6], bound by ports
    100 and 101 of this node, and [8,9], bound by port 102 of node 9. *)
Definition three_ranges : name_table :=
  sample_publish
    (sample_publish
       (sample_publish tipc_nametbl_init 10 1 2 0 sample_own 100 1)
       10 5 6 0 sample_own 101 2)
    10 8 9 0 9 102 3.

(** Its sequence of type 10: the array has grown to four slots. *)
Definition three_ranges_seq : name_seq :=
  mk_name_seq 10
    [mk_sub_seq 1 2 (mk_name_info [sample_publ 1 2 sample_own 100 1]
                                  [sample_publ 1 2 sample_own 100 1]);
     mk_sub_seq 5 6 (mk_name_info [sample_publ 5 6 sample_own 101 2]
                                  [sample_publ 5 6 sample_own 101 2]);
     mk_sub_seq 8 9 (mk_name_info [] [sample_publ 8 9 9 102 3]);
     zero_sseq]
    4 3 [].

(** The range [5,5] of type 10 bound by port 200 of node 9 and then by
    port 100 of this node, which so comes first on the lists. *)
Definition own_first : name_table :=
  sample_publish (sample_publish tipc_nametbl_init 10 5 5 0 9 200 1)
                 10 5 5 0 sample_own 100 2.

(** The table a publish leaves when the name_info cannot be allocated: a
    sequence of type 10 with no sub-sequence and no subscriber. *)
Definition stale_table : name_table :=
  snd (fst (tipc_nametbl_insert_publ sample_max_scope sample_in_own_node
              tipc_nametbl_init 10 5 5 0 sample_own 100 1
              (mk_allocs true true true false true))).

(** in_own_node as the kernel has it: the own address, or zero. *)
Definition sample_own_or_zero (node : Z) : bool :=
  (node =? sample_own) || (node =? 0).

(** ** Arithmetic *)

Lemma wrap32_small x : 0 <= x < 2^32 -> wrap32 x = x.
Proof. intros H. unfold wrap32. now apply Z.mod_small. Qed.

Lemma s32_small x : - 2^31 <= x < 2^31 -> s32 x = x.
Proof. intros H. unfold s32. rewrite Z.mod_small; lia. Qed.

Lemma s32_wrap32_pred n : 0 <= n < 2^31 -> s32 (wrap32 (n - 1)) = n - 1.
Proof.
  intros H. destruct (Z.eq_dec n 0) as [->|Hn].
  - reflexivity.
  - rewrite wrap32_small by lia. apply s32_small. lia.
Qed.

Lemma dest_value_split node port :
  0 <= node -> 0 <= port < 2^32 ->
  dest_value node port = node * 2^32 + port.
Proof.
  intros Hn Hp. unfold dest_value. rewrite Z.shiftl_mul_pow2 by lia.
  rewrite <- Z.add_lor_land.
  assert (E : Z.land (node * 2^32) port = 0).
  { apply Z.bits_inj'. intros i Hi.
    rewrite Z.land_spec, Z.testbit_0_l.
    destruct (Z.lt_ge_cases i 32).
    - now rewrite Z.mul_pow2_bits_low.
    - rewrite <- (Z.mod_small port (2^32)) by lia.
      rewrite Z.mod_pow2_bits_high by lia. apply andb_false_r. }
  rewrite E. lia.
Qed.

Lemma hash_range x : 0 <= hash x < TIPC_NAMETBL_SIZE.
Proof.
  unfold hash, TIPC_NAMETBL_SIZE.
  change (1024 - 1) with (Z.ones 10).
  rewrite Z.land_ones by lia.
  apply Z.mod_pos_bound. lia.
Qed.

(** ** Reading arrays after a block move *)

Section Blocks.

Context {A : Type} (d : A).

Lemma nth_block_move (a : list A) (dst src cnt i : nat) :
  (dst + cnt <= length a)%nat -> (src + cnt <= length a)%nat ->
  nth i (firstn dst a ++ firstn cnt (skipn src a) ++ skipn (dst + cnt) a) d
  = if (dst <=? i)%nat && (i <? dst + cnt)%nat
    then nth (i - dst + src) a d else nth i a d.
Proof.
  intros Hd Hs.
  assert (L1 : length (firstn dst a) = dst) by (rewrite length_firstn; lia).
  assert (L2 : length (firstn cnt (skipn src a)) = cnt)
    by (rewrite length_firstn, length_skipn; lia).
  destruct (Nat.leb_spec dst i) as [Hle|Hlt]; simpl.
  - rewrite app_nth2 by lia. rewrite L1.
    destruct (Nat.ltb_spec i (dst + cnt)) as [Hin|Hout].
    + rewrite app_nth1 by lia.
      rewrite nth_firstn, nth_skipn.
      destruct (Nat.ltb_spec (i - dst) cnt); [|lia].
      f_equal. lia.
    + rewrite app_nth2 by lia. rewrite L2, nth_skipn. f_equal. lia.
  - rewrite app_nth1 by lia. rewrite nth_firstn.
    destruct (Nat.ltb_spec i dst); [reflexivity|lia].
Qed.

Lemma length_block_move (a : list A) (dst src cnt : nat) :
  (dst + cnt <= length a)%nat -> (src + cnt <= length a)%nat ->
  length (firstn dst a ++ firstn cnt (skipn src a) ++ skipn (dst + cnt) a)
  = length a.
Proof.
  intros Hd Hs.
  rewrite !length_app, !length_firstn, !length_skipn. lia.
Qed.

Lemma nth_store (a : list A) (i j : nat) (x : A) :
  (i < length a)%nat ->
  nth j (firstn i a ++ x :: skipn (S i) a) d
  = if (j =? i)%nat then x else nth j a d.
Proof.
  intros Hi.
  assert (L : length (firstn i a) = i) by (rewrite length_firstn; lia).
  destruct (Nat.eqb_spec j i) as [->|Hne].
  - rewrite app_nth2 by lia. rewrite L, Nat.sub_diag. reflexivity.
  - destruct (Nat.lt_ge_cases j i) as [Hlt|Hge].
    + rewrite app_nth1 by lia. rewrite nth_firstn.
      destruct (Nat.ltb_spec j i); [reflexivity|lia].
    + rewrite app_nth2 by lia. rewrite L.
      destruct (j - i)%nat as [|k] eqn:E; [lia|].
      cbn [nth]. rewrite nth_skipn. f_equal. lia.
Qed.

Lemma length_store (a : list A) (i : nat) (x : A) :
  (i < length a)%nat -> length (firstn i a ++ x :: skipn (S i) a) = length a.
Proof.
  intros Hi. rewrite length_app, length_firstn. cbn [length].
  rewrite length_skipn. lia.
Qed.

End Blocks.

Lemma sseq_at_set a i x j :
  0 <= i < Z.of_nat (length a) -> 0 <= j ->
  sseq_at (sseq_set a i x) j = if j =? i then x else sseq_at a j.
Proof.
  intros Hi Hj. unfold sseq_at, sseq_set.
  destruct (Z.leb_spec 0 i); [|lia].
  destruct (Z.ltb_spec i (Z.of_nat (length a))); [|lia]. cbn [andb].
  rewrite nth_store by lia.
  destruct (Nat.eqb_spec (Z.to_nat j) (Z.to_nat i));
    destruct (Z.eqb_spec j i); try reflexivity; lia.
Qed.

Lemma length_sseq_set a i x : length (sseq_set a i x) = length a.
Proof.
  unfold sseq_set.
  destruct (Z.leb_spec 0 i); [|reflexivity].
  destruct (Z.ltb_spec i (Z.of_nat (length a))); [|reflexivity]. cbn [andb].
  apply length_store. lia.
Qed.

Lemma sseq_at_memmove a dst src cnt i :
  0 <= dst -> 0 <= src -> 0 <= cnt -> 0 <= i ->
  dst + cnt <= Z.of_nat (length a) -> src + cnt <= Z.of_nat (length a) ->
  sseq_at (sseq_memmove a dst src cnt) i
  = if (dst <=? i) && (i <? dst + cnt) then sseq_at a (i - dst + src)
    else sseq_at a i.
Proof.
  intros Hd Hs Hc Hi Hdl Hsl. unfold sseq_at, sseq_memmove.
  rewrite Z2Nat.inj_add by lia.
  rewrite nth_block_move by lia.
  destruct (Nat.leb_spec (Z.to_nat dst) (Z.to_nat i));
    destruct (Z.leb_spec dst i); try lia; simpl; [|reflexivity].
  destruct (Nat.ltb_spec (Z.to_nat i) (Z.to_nat dst + Z.to_nat cnt));
    destruct (Z.ltb_spec i (dst + cnt)); try lia; [|reflexivity].
  f_equal. lia.
Qed.

Lemma length_sseq_memmove a dst src cnt :
  0 <= dst -> 0 <= src -> 0 <= cnt ->
  dst + cnt <= Z.of_nat (length a) -> src + cnt <= Z.of_nat (length a) ->
  length (sseq_memmove a dst src cnt) = length a.
Proof.
  intros Hd Hs Hc Hdl Hsl. unfold sseq_memmove.
  rewrite Z2Nat.inj_add by lia.
  apply length_block_move; lia.
Qed.

Lemma sseq_at_firstn a n i :
  0 <= i < n -> sseq_at (firstn (Z.to_nat n) a) i = sseq_at a i.
Proof.
  intros H. unfold sseq_at. rewrite nth_firstn.
  destruct (Nat.ltb_spec (Z.to_nat i) (Z.to_nat n)); [reflexivity|lia].
Qed.

(** ** The order of the live entries *)

Lemma sseq_at_cons s r i :
  0 <= i -> sseq_at (s :: r) i = if i =? 0 then s else sseq_at r (i - 1).
Proof.
  intros Hi. unfold sseq_at.
  destruct (Z.eqb_spec i 0) as [->|Hne]; [reflexivity|].
  replace (Z.to_nat i) with (S (Z.to_nat (i - 1))) by lia. reflexivity.
Qed.

Lemma ranges_sorted_index l :
  ranges_sorted l = true <-> sorted_upto l (Z.of_nat (length l)).
Proof.
  induction l as [|s r IH].
  - split; [|reflexivity]. intros _. split; intros; simpl in *; lia.
  - cbn [ranges_sorted]. rewrite !andb_true_iff, IH, Z.leb_le.
    unfold sorted_upto. cbn [length]. rewrite Nat2Z.inj_succ.
    split.
    + intros [[Hs Hadj] [Hwf Hord]].
      assert (Hfirst : forall j, 0 <= j < Z.of_nat (length r) ->
                sseq_upper s < sseq_lower (sseq_at r j)).
      { intros j Hj. destruct r as [|t r']; [simpl in Hj; lia|].
        apply Z.ltb_lt in Hadj.
        destruct (Z.eq_dec j 0) as [->|Hne]; [exact Hadj|].
        specialize (Hord 0 j ltac:(lia) ltac:(lia)).
        specialize (Hwf 0 ltac:(lia)).
        change (sseq_at (t :: r') 0) with t in *. lia. }
      split.
      * intros i Hi. rewrite sseq_at_cons by lia.
        destruct (Z.eqb_spec i 0); [exact Hs|]. apply Hwf. lia.
      * intros i j Hij Hj. rewrite !sseq_at_cons by lia.
        destruct (Z.eqb_spec j 0); [lia|].
        destruct (Z.eqb_spec i 0).
        -- apply Hfirst. lia.
        -- apply Hord; lia.
    + intros [Hwf Hord]. split; [split|split].
      * specialize (Hwf 0 ltac:(lia)). exact Hwf.
      * destruct r as [|t r']; [reflexivity|]. apply Z.ltb_lt.
        specialize (Hord 0 1 ltac:(lia)). cbn [length] in Hord.
        apply Hord. lia.
      * intros i Hi. specialize (Hwf (i + 1) ltac:(lia)).
        rewrite sseq_at_cons in Hwf by lia.
        destruct (Z.eqb_spec (i + 1) 0); [lia|].
        replace (i + 1 - 1) with i in Hwf by lia. exact Hwf.
      * intros i j Hij Hj.
        specialize (Hord (i + 1) (j + 1) ltac:(lia) ltac:(lia)).
        rewrite !sseq_at_cons in Hord by lia.
        destruct (Z.eqb_spec (i + 1) 0); [lia|].
        destruct (Z.eqb_spec (j + 1) 0); [lia|].
        replace (i + 1 - 1) with i in Hord by lia.
        replace (j + 1 - 1) with j in Hord by lia. exact Hord.
Qed.

Lemma sorted_upto_ext a b n :
  (forall i, 0 <= i < n ->
     sseq_lower (sseq_at b i) = sseq_lower (sseq_at a i) /\
     sseq_upper (sseq_at b i) = sseq_upper (sseq_at a i)) ->
  sorted_upto a n -> sorted_upto b n.
Proof.
  intros E [Hwf Hord]. split.
  - intros i Hi. destruct (E i Hi) as [-> ->]. now apply Hwf.
  - intros i j Hij Hj.
    destruct (E i ltac:(lia)) as [_ ->]. destruct (E j ltac:(lia)) as [-> _].
    now apply Hord.
Qed.

Lemma length_live nseq :
  0 <= first_free nseq <= Z.of_nat (length (sseqs nseq)) ->
  Z.of_nat (length (live nseq)) = first_free nseq.
Proof. intros H. unfold live. rewrite length_firstn. lia. Qed.

Lemma live_sorted nseq :
  0 <= first_free nseq <= Z.of_nat (length (sseqs nseq)) ->
  ranges_sorted (live nseq) = true <->
  sorted_upto (sseqs nseq) (first_free nseq).
Proof.
  intros H. rewrite ranges_sorted_index, length_live by exact H.
  split; apply sorted_upto_ext; intros i Hi; unfold live;
    rewrite sseq_at_firstn by lia; auto.
Qed.

Lemma forallb_firstn_index (f : sub_seq -> bool) a n :
  0 <= n <= Z.of_nat (length a) ->
  forallb f (firstn (Z.to_nat n) a) = true <->
  (forall i, 0 <= i < n -> f (sseq_at a i) = true).
Proof.
  intros Hn. rewrite forallb_forall. split.
  - intros H i Hi. rewrite <- (sseq_at_firstn a n i Hi).
    apply H. unfold sseq_at. apply nth_In. rewrite length_firstn. lia.
  - intros H x Hx.
    destruct (In_nth _ _ zero_sseq Hx) as [k [Hk <-]].
    rewrite length_firstn in Hk.
    specialize (H (Z.of_nat k) ltac:(lia)).
    rewrite <- (sseq_at_firstn a n) in H by lia.
    unfold sseq_at in H. now rewrite Nat2Z.id in H.
Qed.

Lemma array_bounds_spec nseq :
  array_bounds nseq = true <->
  Z.of_nat (length (sseqs nseq)) = alloc nseq /\
  0 <= first_free nseq <= alloc nseq /\ 1 <= alloc nseq <= max_alloc.
Proof.
  unfold array_bounds.
  rewrite !andb_true_iff, Z.eqb_eq, !Z.leb_le. tauto.
Qed.

Lemma nameseq_inv_spec nseq :
  nameseq_inv nseq = true <->
  (Z.of_nat (length (sseqs nseq)) = alloc nseq /\
   0 <= first_free nseq <= alloc nseq /\ 1 <= alloc nseq <= max_alloc) /\
  sorted_upto (sseqs nseq) (first_free nseq) /\
  (forall i, 0 <= i < first_free nseq ->
     has_binding (sseq_at (sseqs nseq) i) = true).
Proof.
  unfold nameseq_inv. rewrite !andb_true_iff, array_bounds_spec.
  split.
  - intros [[B S] N]. split; [exact B|].
    rewrite <- live_sorted by lia. split; [exact S|].
    apply forallb_firstn_index; [lia|exact N].
  - intros [B [S N]]. split; [split; [exact B|]|].
    + apply live_sorted; [lia|exact S].
    + apply forallb_firstn_index; [lia|exact N].
Qed.

(** ** The binary searches *)

Lemma mid_range low high :
  0 <= low -> low <= high -> high < max_alloc ->
  let mid := Z.quot (s32 (low + high)) 2 in
  low <= mid <= high /\ s32 (mid - 1) = mid - 1 /\ s32 (mid + 1) = mid + 1.
Proof.
  unfold max_alloc. intros Hl Hlh Hh.
  rewrite s32_small by lia.
  rewrite Z.quot_div_nonneg by lia.
  assert (low <= (low + high) / 2 <= high).
  { split; [apply Z.div_le_lower_bound|apply Z.div_le_upper_bound]; lia. }
  cbv zeta. rewrite !s32_small by lia. lia.
Qed.

(** Both loops, started on a window [low .. high] of a sorted array with
    everything left of the window below [instance] and everything right of
    it above, and given more fuel than the window is wide. *)
Lemma search_spec fuel : forall a instance n low high,
  sorted_upto a n -> n <= max_alloc ->
  0 <= low -> high < n -> low <= high + 1 ->
  (Z.to_nat (high - low + 1) < fuel)%nat ->
  (forall i, 0 <= i < low -> sseq_upper (sseq_at a i) < instance) ->
  (forall i, high < i < n -> instance < sseq_lower (sseq_at a i)) ->
  match find_loop fuel a instance low high with
  | Some m =>
    locate_loop fuel a instance low high = m /\ 0 <= m < n /\
    contains (sseq_at a m) instance = true
  | None =>
    let r := locate_loop fuel a instance low high in
    0 <= r <= n /\
    (forall i, 0 <= i < r -> sseq_upper (sseq_at a i) < instance) /\
    (forall i, r <= i < n -> instance < sseq_lower (sseq_at a i))
  end.
Proof.
  induction fuel as [|fuel IH]; intros a instance n low high
    [Hwf Hord] Hn Hlow Hhigh Hwin Hfuel Hleft Hright; [lia|].
  cbn [find_loop locate_loop].
  destruct (Z.leb_spec low high) as [Hle|Hgt].
  - destruct (mid_range low high Hlow Hle ltac:(lia)) as [Hmid [E1 E2]].
    cbv zeta in Hmid, E1, E2. cbv zeta.
    set (mid := Z.quot (s32 (low + high)) 2) in *.
    destruct (Z.ltb_spec instance (sseq_lower (sseq_at a mid))) as [Hlt|Hge].
    + rewrite E1. apply (IH a instance n); try (split; assumption); try lia.
      * exact Hleft.
      * intros i Hi. destruct (Z.eq_dec i mid) as [->|Hne]; [exact Hlt|].
        specialize (Hord mid i ltac:(lia) ltac:(lia)).
        specialize (Hwf mid ltac:(lia)). lia.
    + destruct (Z.ltb_spec (sseq_upper (sseq_at a mid)) instance)
        as [Hup|Hin].
      * rewrite E2. apply (IH a instance n); try (split; assumption); try lia.
        -- intros i Hi. destruct (Z.eq_dec i mid) as [->|Hne]; [exact Hup|].
           specialize (Hord i mid ltac:(lia) ltac:(lia)).
           specialize (Hwf mid ltac:(lia)). lia.
        -- intros i Hi. apply Hright. lia.
      * split; [reflexivity|]. split; [lia|].
        unfold contains. apply andb_true_iff. rewrite !Z.leb_le. lia.
  - cbv zeta. split; [lia|]. split; [exact Hleft|].
    intros i Hi. apply Hright. lia.
Qed.

(** The index find_loop returns lies in its window and holds [instance];
    this needs no order on the entries. *)
Lemma find_loop_range fuel : forall a instance low high m,
  0 <= low -> high < max_alloc ->
  find_loop fuel a instance low high = Some m ->
  low <= m <= high /\ contains (sseq_at a m) instance = true.
Proof.
  induction fuel as [|fuel IH]; intros a instance low high m Hlow Hhigh;
    cbn [find_loop]; [discriminate|].
  destruct (Z.leb_spec low high) as [Hle|Hgt]; [|discriminate].
  destruct (mid_range low high Hlow Hle Hhigh) as [Hmid [E1 E2]].
  cbv zeta in Hmid, E1, E2. cbv zeta.
  set (mid := Z.quot (s32 (low + high)) 2) in *.
  destruct (Z.ltb_spec instance (sseq_lower (sseq_at a mid))) as [Hlt|Hge].
  - rewrite E1. intros H. apply IH in H; lia || (destruct H; split; [lia|auto]).
  - destruct (Z.ltb_spec (sseq_upper (sseq_at a mid)) instance) as [Hup|Hin].
    + rewrite E2. intros H.
      apply IH in H; lia || (destruct H; split; [lia|auto]).
    + intros [= <-]. split; [lia|].
      unfold contains. apply andb_true_iff. rewrite !Z.leb_le. lia.
Qed.

(** Fuel beyond the width of the window changes nothing: the loops stop by
    themselves. *)
Lemma find_loop_fuel fuel : forall fuel' a instance low high,
  0 <= low -> high < max_alloc ->
  (Z.to_nat (high - low + 1) < fuel)%nat ->
  (Z.to_nat (high - low + 1) < fuel')%nat ->
  find_loop fuel a instance low high = find_loop fuel' a instance low high /\
  locate_loop fuel a instance low high = locate_loop fuel' a instance low high.
Proof.
  induction fuel as [|fuel IH]; intros fuel' a instance low high
    Hlow Hhigh Hf Hf'; [lia|].
  destruct fuel' as [|fuel']; [lia|].
  cbn [find_loop locate_loop].
  destruct (Z.leb_spec low high) as [Hle|Hgt]; [|split; reflexivity].
  destruct (mid_range low high Hlow Hle Hhigh) as [Hmid [E1 E2]].
  cbv zeta in Hmid, E1, E2. cbv zeta.
  set (mid := Z.quot (s32 (low + high)) 2) in *.
  destruct (Z.ltb_spec instance (sseq_lower (sseq_at a mid))).
  - rewrite E1. apply IH; lia.
  - destruct (Z.ltb_spec (sseq_upper (sseq_at a mid)) instance).
    + rewrite E2. apply IH; lia.
    + split; reflexivity.
Qed.

(** The searches read only the bounds of the entries. *)
Lemma search_ext fuel : forall a b instance low high,
  (forall i, sseq_lower (sseq_at b i) = sseq_lower (sseq_at a i) /\
             sseq_upper (sseq_at b i) = sseq_upper (sseq_at a i)) ->
  find_loop fuel b instance low high = find_loop fuel a instance low high /\
  locate_loop fuel b instance low high = locate_loop fuel a instance low high.
Proof.
  induction fuel as [|fuel IH]; intros a b instance low high E;
    cbn [find_loop locate_loop]; [split; reflexivity|].
  destruct (low <=? high); [|split; reflexivity]. cbv zeta.
  destruct (E (Z.quot (s32 (low + high)) 2)) as [-> ->].
  destruct (_ <? _); [now apply IH|].
  destruct (_ <? _); [now apply IH|split; reflexivity].
Qed.

(** On an array within bounds the searches never run out of the fuel
    [search_fuel] gives them: any larger amount yields the same result. *)
Lemma find_subseq_fuel nseq instance fuel :
  array_bounds nseq = true -> (search_fuel nseq <= fuel)%nat ->
  find_loop fuel (sseqs nseq) instance 0 (s32 (wrap32 (first_free nseq - 1)))
  = nameseq_find_subseq nseq instance /\
  wrap32 (locate_loop fuel (sseqs nseq) instance 0
                      (s32 (wrap32 (first_free nseq - 1))))
  = nameseq_locate_subseq nseq instance.
Proof.
  intros Hb Hfuel. apply array_bounds_spec in Hb.
  destruct Hb as [Hlen [Hff Hal]]. unfold max_alloc in Hal.
  unfold nameseq_find_subseq, nameseq_locate_subseq, search_fuel in *.
  rewrite s32_wrap32_pred by lia.
  destruct (find_loop_fuel fuel (S (Z.to_nat (first_free nseq)))
              (sseqs nseq) instance 0 (first_free nseq - 1))
    as [E1 E2]; try (unfold max_alloc; lia).
  now rewrite E1, E2.
Qed.

Lemma find_subseq_spec nseq instance :
  nameseq_inv nseq = true ->
  match nameseq_find_subseq nseq instance with
  | Some m =>
    nameseq_locate_subseq nseq instance = m /\ 0 <= m < first_free nseq /\
    contains (sseq_at (sseqs nseq) m) instance = true
  | None =>
    let r := nameseq_locate_subseq nseq instance in
    0 <= r <= first_free nseq /\
    (forall i, 0 <= i < r ->
       sseq_upper (sseq_at (sseqs nseq) i) < instance) /\
    (forall i, r <= i < first_free nseq ->
       instance < sseq_lower (sseq_at (sseqs nseq) i))
  end.
Proof.
  intros Hinv. apply nameseq_inv_spec in Hinv.
  destruct Hinv as [[Hlen [Hff Hal]] [Hs _]].
  unfold max_alloc in Hal.
  unfold nameseq_find_subseq, nameseq_locate_subseq, search_fuel.
  rewrite s32_wrap32_pred by lia.
  pose proof (search_spec (S (Z.to_nat (first_free nseq))) (sseqs nseq)
                instance (first_free nseq) 0 (first_free nseq - 1) Hs
                ltac:(unfold max_alloc; lia) ltac:(lia) ltac:(lia)
                ltac:(lia) ltac:(lia) ltac:(intros; lia) ltac:(intros; lia))
    as H.
  destruct (find_loop _ _ _ _ _) as [m|].
  - destruct H as [-> [Hm Hc]]. rewrite wrap32_small by lia. auto.
  - cbv zeta in H. destruct H as [Hr H]. cbv zeta.
    rewrite wrap32_small by lia. auto.
Qed.

Lemma find_subseq_range nseq instance m :
  array_bounds nseq = true ->
  nameseq_find_subseq nseq instance = Some m ->
  0 <= m < first_free nseq /\
  contains (sseq_at (sseqs nseq) m) instance = true.
Proof.
  intros Hb. apply array_bounds_spec in Hb. destruct Hb as [Hlen [Hff Hal]].
  unfold max_alloc in Hal.
  unfold nameseq_find_subseq. rewrite s32_wrap32_pred by lia.
  intros H. apply find_loop_range in H; [|lia|unfold max_alloc; lia].
  destruct H; split; [lia|assumption].
Qed.

Lemma find_subseq_complete nseq instance i :
  nameseq_inv nseq = true -> 0 <= i < first_free nseq ->
  contains (sseq_at (sseqs nseq) i) instance = true ->
  nameseq_find_subseq nseq instance = Some i /\
  nameseq_locate_subseq nseq instance = i.
Proof.
  intros Hinv Hi Hc.
  pose proof (find_subseq_spec nseq instance Hinv) as H.
  apply nameseq_inv_spec in Hinv. destruct Hinv as [_ [[Hwf Hord] _]].
  unfold contains in Hc. apply andb_true_iff in Hc.
  rewrite !Z.leb_le in Hc.
  destruct (nameseq_find_subseq nseq instance) as [m|].
  - destruct H as [Hl [Hm Hcm]].
    unfold contains in Hcm. apply andb_true_iff in Hcm.
    rewrite !Z.leb_le in Hcm.
    assert (E : m = i).
    { destruct (Z.lt_trichotomy m i) as [Hlt|[Heq|Hgt]]; [|exact Heq|].
      - specialize (Hord m i ltac:(lia) ltac:(lia)). lia.
      - specialize (Hord i m ltac:(lia) ltac:(lia)). lia. }
    split; [now rewrite E|now rewrite Hl].
  - cbv zeta in H. destruct H as [Hr [Hleft Hright]].
    destruct (Z.lt_ge_cases i (nameseq_locate_subseq nseq instance)).
    + specialize (Hleft i ltac:(lia)). lia.
    + specialize (Hright i ltac:(lia)). lia.
Qed.

Lemma find_subseq_none nseq instance :
  nameseq_inv nseq = true ->
  nameseq_find_subseq nseq instance = None <->
  (forall i, 0 <= i < first_free nseq ->
     contains (sseq_at (sseqs nseq) i) instance = false).
Proof.
  intros Hinv. split.
  - intros Hnone i Hi.
    destruct (contains (sseq_at (sseqs nseq) i) instance) eqn:Hc;
      [|reflexivity].
    destruct (find_subseq_complete nseq instance i Hinv Hi Hc) as [E _].
    congruence.
  - intros Hno.
    pose proof (find_subseq_spec nseq instance Hinv) as H.
    destruct (nameseq_find_subseq nseq instance) as [m|]; [|reflexivity].
    destruct H as [_ [Hm Hc]]. rewrite (Hno m Hm) in Hc. discriminate.
Qed.

Lemma first_above_index l instance : forall k r,
  0 <= r <= Z.of_nat (length l) ->
  (forall i, 0 <= i < r -> sseq_lower (sseq_at l i) <= instance) ->
  (forall i, r <= i < Z.of_nat (length l) ->
     instance < sseq_lower (sseq_at l i)) ->
  first_above l instance k = k + r.
Proof.
  induction l as [|s l IH]; intros k r Hr Hleft Hright.
  - simpl in *. lia.
  - cbn [first_above]. cbn [length] in *. rewrite Nat2Z.inj_succ in *.
    destruct (Z.ltb_spec instance (sseq_lower s)) as [Hlt|Hge].
    + destruct (Z.eq_dec r 0) as [->|Hne]; [lia|].
      specialize (Hleft 0 ltac:(lia)).
      change (sseq_at (s :: l) 0) with s in Hleft. lia.
    + destruct (Z.eq_dec r 0) as [->|Hne].
      * specialize (Hright 0 ltac:(lia)).
        change (sseq_at (s :: l) 0) with s in Hright. lia.
      * rewrite (IH (k + 1) (r - 1)); [lia|lia| |].
        -- intros i Hi. specialize (Hleft (i + 1) ltac:(lia)).
           rewrite sseq_at_cons in Hleft by lia.
           destruct (Z.eqb_spec (i + 1) 0); [lia|].
           now replace (i + 1 - 1) with i in Hleft by lia.
        -- intros i Hi. specialize (Hright (i + 1) ltac:(lia)).
           rewrite sseq_at_cons in Hright by lia.
           destruct (Z.eqb_spec (i + 1) 0); [lia|].
           now replace (i + 1 - 1) with i in Hright by lia.
Qed.

(** C9, as the code has it.  On a sequence whose live entries are sorted
    and disjoint, nameseq_locate_subseq returns the index of the entry that
    holds [instance] when there is one; when there is none it returns the
    index of the first entry whose lower bound is above [instance], which is
    the number of live entries when no entry starts above it. *)
Theorem locate_subseq_position nseq instance :
  nameseq_inv nseq = true ->
  (forall i, 0 <= i < first_free nseq ->
     contains (sseq_at (sseqs nseq) i) instance = true ->
     nameseq_locate_subseq nseq instance = i) /\
  ((forall i, 0 <= i < first_free nseq ->
      contains (sseq_at (sseqs nseq) i) instance = false) ->
   nameseq_locate_subseq nseq instance = first_above (live nseq) instance 0).
Proof.
  intros Hinv. split.
  - intros i Hi Hc. now apply find_subseq_complete.
  - intros Hno.
    pose proof (find_subseq_spec nseq instance Hinv) as H.
    apply (find_subseq_none nseq instance Hinv) in Hno. rewrite Hno in H.
    cbv zeta in H. destruct H as [Hr [Hleft Hright]].
    apply nameseq_inv_spec in Hinv.
    destruct Hinv as [[Hlen [Hff Hal]] [[Hwf Hord] _]].
    symmetry.
    rewrite (first_above_index (live nseq) instance 0
               (nameseq_locate_subseq nseq instance)).
    + lia.
    + rewrite length_live by lia. lia.
    + intros i Hi. unfold live. rewrite sseq_at_firstn by lia.
      specialize (Hleft i Hi). specialize (Hwf i ltac:(lia)). lia.
    + rewrite length_live by lia. intros i Hi. unfold live.
      rewrite sseq_at_firstn by lia. apply Hright. lia.
Qed.

Lemma locate_subseq_position_witness :
  nameseq_inv two_ranges = true /\
  nameseq_locate_subseq two_ranges 5 = 1 /\
  nameseq_locate_subseq two_ranges 3 = first_above (live two_ranges) 3 0.
Proof.
  split; [reflexivity|].
  destruct (locate_subseq_position two_ranges 5 eq_refl) as [Hin _].
  destruct (locate_subseq_position two_ranges 3 eq_refl) as [_ Hout].
  split.
  - apply Hin; [cbn; lia|reflexivity].
  - apply Hout. intros i Hi.
    assert (i = 0 \/ i = 1) as [-> | ->] by (cbn in Hi; lia); reflexivity.
Defined.

(** C9 as the spec words it fails: in a sequence with the ranges [1,2] and
    [5,6] no range holds 3 and the code returns index 1, while the lowest
    index whose lower bound is at most 3 is 0. *)
Lemma locate_tie_break_counterexample :
  nameseq_inv two_ranges = true /\
  forallb (fun s => negb (contains s 3)) (live two_ranges) = true /\
  nameseq_locate_subseq two_ranges 3 = 1 /\
  spec_tie_break (live two_ranges) 3 0 = 0 /\
  nameseq_locate_subseq two_ranges 3 <> spec_tie_break (live two_ranges) 3 0.
Proof. repeat split; vm_compute; congruence. Qed.

(** ** Slots opened and closed by memmove *)

Lemma insert_slot_at a pos n x i :
  0 <= pos <= n -> n < Z.of_nat (length a) -> 0 <= i ->
  sseq_at (sseq_set (sseq_memmove a (pos + 1) pos (n - pos)) pos x) i
  = if i =? pos then x
    else if (pos <? i) && (i <=? n) then sseq_at a (i - 1) else sseq_at a i.
Proof.
  intros Hp Hn Hi.
  rewrite sseq_at_set;
    [|rewrite length_sseq_memmove by lia; lia|exact Hi].
  destruct (Z.eqb_spec i pos); [reflexivity|].
  rewrite sseq_at_memmove by lia.
  destruct (Z.leb_spec (pos + 1) i); destruct (Z.ltb_spec pos i); try lia;
    cbn [andb]; [|reflexivity].
  destruct (Z.ltb_spec i (pos + 1 + (n - pos))); destruct (Z.leb_spec i n);
    try lia; [|reflexivity].
  f_equal. lia.
Qed.

Lemma remove_slot_at a idx n i :
  0 <= idx < n -> n <= Z.of_nat (length a) -> 0 <= i ->
  sseq_at (sseq_memmove a idx (idx + 1) (n - (idx + 1))) i
  = if (idx <=? i) && (i <? n - 1) then sseq_at a (i + 1) else sseq_at a i.
Proof.
  intros Hidx Hn Hi.
  rewrite sseq_at_memmove by lia.
  replace (idx + (n - (idx + 1))) with (n - 1) by lia.
  destruct ((idx <=? i) && (i <? n - 1)); [|reflexivity].
  f_equal. lia.
Qed.

Lemma grown_at a n n' i :
  Z.of_nat (length a) = n -> n <= n' -> 0 <= i < n ->
  sseq_at (sseq_memcpy (tipc_subseq_alloc n') a n) i = sseq_at a i.
Proof.
  intros Hlen Hn Hi. unfold sseq_at, sseq_memcpy.
  rewrite app_nth1 by (rewrite length_firstn; lia).
  rewrite nth_firstn.
  destruct (Nat.ltb_spec (Z.to_nat i) (Z.to_nat n)); [reflexivity|lia].
Qed.

Lemma length_grown a n n' :
  Z.of_nat (length a) = n -> n <= n' ->
  Z.of_nat (length (sseq_memcpy (tipc_subseq_alloc n') a n)) = n'.
Proof.
  intros Hlen Hn. unfold sseq_memcpy, tipc_subseq_alloc.
  rewrite length_app, length_firstn, length_skipn, repeat_length. lia.
Qed.

(** ** Writing the lists of one slot *)

Lemma sseq_at_clamp a j : sseq_at a j = sseq_at a (Z.max 0 j).
Proof. unfold sseq_at. f_equal. lia. Qed.

Lemma set_info_bounds nseq idx i j :
  sseq_lower (sseq_at (sseqs (set_info nseq idx i)) j)
  = sseq_lower (sseq_at (sseqs nseq) j) /\
  sseq_upper (sseq_at (sseqs (set_info nseq idx i)) j)
  = sseq_upper (sseq_at (sseqs nseq) j).
Proof.
  unfold set_info, set_sseqs. cbn [sseqs].
  destruct (Z.leb_spec 0 idx) as [H0|H0];
    [destruct (Z.ltb_spec idx (Z.of_nat (length (sseqs nseq)))) as [H1|H1]|].
  - rewrite (sseq_at_clamp _ j), (sseq_at_clamp (sseqs nseq) j).
    rewrite sseq_at_set by lia.
    destruct (Z.eqb_spec (Z.max 0 j) idx) as [->|]; split; reflexivity.
  - unfold sseq_set.
    destruct (Z.ltb_spec idx (Z.of_nat (length (sseqs nseq)))); [lia|].
    rewrite andb_false_r. split; reflexivity.
  - unfold sseq_set. destruct (Z.leb_spec 0 idx); [lia|]. split; reflexivity.
Qed.

Lemma set_info_at nseq idx i j :
  0 <= idx < Z.of_nat (length (sseqs nseq)) -> 0 <= j ->
  sseq_at (sseqs (set_info nseq idx i)) j
  = if j =? idx
    then mk_sub_seq (sseq_lower (sseq_at (sseqs nseq) idx))
                    (sseq_upper (sseq_at (sseqs nseq) idx)) i
    else sseq_at (sseqs nseq) j.
Proof.
  intros Hidx Hj. unfold set_info, set_sseqs. cbn [sseqs].
  now apply sseq_at_set.
Qed.

Lemma set_info_find nseq idx i instance :
  nameseq_find_subseq (set_info nseq idx i) instance
  = nameseq_find_subseq nseq instance.
Proof.
  unfold nameseq_find_subseq, search_fuel.
  change (first_free (set_info nseq idx i)) with (first_free nseq).
  apply search_ext. intros j. apply set_info_bounds.
Qed.

(** The invariant but for the binding set of slot [idx], which may be
    empty: the state between opening a slot and linking its first
    publication. *)
Lemma set_info_inv nseq idx i :
  array_bounds nseq = true ->
  sorted_upto (sseqs nseq) (first_free nseq) ->
  (forall j, 0 <= j < first_free nseq -> j <> idx ->
     has_binding (sseq_at (sseqs nseq) j) = true) ->
  0 <= idx < first_free nseq ->
  all_publ i <> [] ->
  nameseq_inv (set_info nseq idx i) = true.
Proof.
  intros Hb Hs Hbind Hidx Hne. apply array_bounds_spec in Hb.
  destruct Hb as [Hlen [Hff Hal]].
  apply nameseq_inv_spec.
  change (first_free (set_info nseq idx i)) with (first_free nseq).
  change (alloc (set_info nseq idx i)) with (alloc nseq).
  split; [|split].
  - split; [|split; assumption].
    unfold set_info, set_sseqs. cbn [sseqs].
    rewrite length_sseq_set. exact Hlen.
  - apply (sorted_upto_ext (sseqs nseq)); [|exact Hs].
    intros j _. apply set_info_bounds.
  - intros j Hj. rewrite set_info_at by lia.
    destruct (Z.eqb_spec j idx); [|now apply Hbind].
    unfold has_binding. cbn. destruct (all_publ i); congruence.
Qed.

(** ** Insertion and removal keep the invariant *)

Section Mutations.

Variable in_own_node : Z -> bool.

Lemma link_publication_inv nseq idx created type lower upper scope node port
      key al :
  array_bounds nseq = true ->
  sorted_upto (sseqs nseq) (first_free nseq) ->
  (forall j, 0 <= j < first_free nseq -> j <> idx ->
     has_binding (sseq_at (sseqs nseq) j) = true) ->
  0 <= idx < first_free nseq ->
  publ_ok al = true ->
  nameseq_inv (snd (fst (link_publication in_own_node nseq idx created
                           type lower upper scope node port key al))) = true.
Proof.
  intros Hb Hs Hbind Hidx Hok. unfold link_publication. rewrite Hok.
  cbn [fst snd]. apply set_info_inv; try assumption. discriminate.
Qed.

(** Doubling the array keeps the live entries. *)
Lemma grow_inv nseq :
  nameseq_inv nseq = true -> alloc nseq * 2 <= max_alloc ->
  let nseq1 :=
    mk_name_seq (ns_type nseq)
      (sseq_memcpy (tipc_subseq_alloc (wrap32 (alloc nseq * 2)))
                   (sseqs nseq) (alloc nseq))
      (wrap32 (alloc nseq * 2)) (first_free nseq) (subscriptions nseq) in
  nameseq_inv nseq1 = true /\ alloc nseq1 = alloc nseq * 2 /\
  (forall i, 0 <= i < first_free nseq ->
     sseq_at (sseqs nseq1) i = sseq_at (sseqs nseq) i).
Proof.
  intros Hinv Hroom. apply nameseq_inv_spec in Hinv.
  destruct Hinv as [[Hlen [Hff Hal]] [Hs Hbind]].
  assert (Hw : wrap32 (alloc nseq * 2) = alloc nseq * 2)
    by (apply wrap32_small; unfold max_alloc in *; lia).
  cbv zeta. rewrite Hw. cbn [alloc first_free sseqs].
  assert (Hat : forall i, 0 <= i < first_free nseq ->
            sseq_at (sseq_memcpy (tipc_subseq_alloc (alloc nseq * 2))
                                 (sseqs nseq) (alloc nseq)) i
            = sseq_at (sseqs nseq) i)
    by (intros i Hi; apply grown_at; lia).
  split; [|split; [reflexivity|exact Hat]].
  apply nameseq_inv_spec. cbn [alloc first_free sseqs].
  split; [|split].
  - split; [apply length_grown; lia|lia].
  - destruct Hs as [Hwf Hord]. split.
    + intros i Hi. rewrite Hat by lia. now apply Hwf.
    + intros i j Hij Hj. rewrite !Hat by lia. now apply Hord.
  - intros i Hi. rewrite Hat by lia. now apply Hbind.
Qed.

(** Opening a slot for a range that lies between its neighbours. *)
Lemma open_slot_inv nseq pos lower upper :
  nameseq_inv nseq = true -> first_free nseq < alloc nseq ->
  lower <= upper -> 0 <= pos <= first_free nseq ->
  (forall i, 0 <= i < pos -> sseq_upper (sseq_at (sseqs nseq) i) < lower) ->
  (forall i, pos <= i < first_free nseq ->
     upper < sseq_lower (sseq_at (sseqs nseq) i)) ->
  let nseq2 :=
    mk_name_seq (ns_type nseq)
      (sseq_set (sseq_memmove (sseqs nseq) (pos + 1) pos
                              (first_free nseq - pos))
                pos (mk_sub_seq lower upper (mk_name_info [] [])))
      (alloc nseq) (wrap32 (first_free nseq + 1)) (subscriptions nseq) in
  array_bounds nseq2 = true /\
  sorted_upto (sseqs nseq2) (first_free nseq2) /\
  (forall j, 0 <= j < first_free nseq2 -> j <> pos ->
     has_binding (sseq_at (sseqs nseq2) j) = true) /\
  first_free nseq2 = first_free nseq + 1.
Proof.
  intros Hinv Hroom Hrange Hpos Hleft Hright.
  apply nameseq_inv_spec in Hinv.
  destruct Hinv as [[Hlen [Hff Hal]] [[Hwf Hord] Hbind]].
  assert (Hw : wrap32 (first_free nseq + 1) = first_free nseq + 1)
    by (apply wrap32_small; unfold max_alloc in *; lia).
  cbv zeta. rewrite Hw. cbn [alloc first_free sseqs].
  set (a := sseqs nseq) in *. set (n := first_free nseq) in *.
  assert (Hat : forall i, 0 <= i ->
            sseq_at (sseq_set (sseq_memmove a (pos + 1) pos (n - pos)) pos
                              (mk_sub_seq lower upper (mk_name_info [] []))) i
            = if i =? pos then mk_sub_seq lower upper (mk_name_info [] [])
              else if (pos <? i) && (i <=? n) then sseq_at a (i - 1)
                   else sseq_at a i)
    by (intros i Hi; apply insert_slot_at; lia).
  split; [|split; [|split; [|reflexivity]]].
  - apply array_bounds_spec. cbn [alloc first_free sseqs].
    rewrite length_sseq_set, length_sseq_memmove by lia. lia.
  - split.
    + intros i Hi. rewrite Hat by lia.
      destruct (Z.eqb_spec i pos); [exact Hrange|].
      destruct (Z.ltb_spec pos i); destruct (Z.leb_spec i n); cbn [andb];
        apply Hwf; lia.
    + intros i j Hij Hj. rewrite !Hat by lia.
      destruct (Z.eqb_spec i pos) as [->|Hi];
        destruct (Z.eqb_spec j pos) as [->|Hj']; try lia.
      * destruct (Z.ltb_spec pos j); destruct (Z.leb_spec j n); try lia.
        cbn [sseq_upper andb]. apply Hright. lia.
      * destruct (Z.ltb_spec pos i); destruct (Z.leb_spec i n); try lia.
        cbn [sseq_lower andb]. apply Hleft. lia.
      * destruct (Z.ltb_spec pos i); destruct (Z.leb_spec i n);
          destruct (Z.ltb_spec pos j); destruct (Z.leb_spec j n);
          try lia; cbn [andb]; apply Hord; lia.
  - intros j Hj Hne. rewrite Hat by lia.
    destruct (Z.eqb_spec j pos); [lia|].
    destruct (Z.ltb_spec pos j); destruct (Z.leb_spec j n); cbn [andb];
      apply Hbind; lia.
Qed.

Lemma insert_publ_inv nseq type lower upper scope node port key al :
  nameseq_inv nseq = true -> lower <= upper ->
  alloc nseq * 2 <= max_alloc -> publ_ok al = true ->
  nameseq_inv (snd (fst (tipc_nameseq_insert_publ in_own_node nseq
                           type lower upper scope node port key al))) = true.
Proof.
  intros Hinv Hrange Hroom Hok.
  pose proof (find_subseq_spec nseq lower Hinv) as Hfind.
  pose proof Hinv as Hinv'. apply nameseq_inv_spec in Hinv'.
  destruct Hinv' as [[Hlen [Hff Hal]] [[Hwf Hord] Hbind]].
  unfold tipc_nameseq_insert_publ.
  destruct (nameseq_find_subseq nseq lower) as [idx|].
  - destruct Hfind as [_ [Hidx _]].
    destruct (negb _ || negb _); [exact Hinv|].
    destruct (existsb _ _); [exact Hinv|].
    apply link_publication_inv; try assumption.
    + apply nameseq_inv_spec in Hinv.
      apply array_bounds_spec. tauto.
    + split; assumption.
    + intros j Hj _. now apply Hbind.
  - cbv zeta in Hfind. destruct Hfind as [Hpos [Hleft Hright]].
    set (pos := nameseq_locate_subseq nseq lower) in *.
    destruct ((pos <? first_free nseq) &&
              (sseq_lower (sseq_at (sseqs nseq) pos) <=? upper)) eqn:Hchk;
      [exact Hinv|].
    assert (Hafter : forall i, pos <= i < first_free nseq ->
              upper < sseq_lower (sseq_at (sseqs nseq) i)).
    { intros i Hi. apply andb_false_iff in Hchk.
      assert (Hp : upper < sseq_lower (sseq_at (sseqs nseq) pos)).
      { destruct Hchk as [H|H]; [apply Z.ltb_ge in H|apply Z.leb_gt in H];
          lia. }
      destruct (Z.eq_dec i pos) as [->|Hne]; [exact Hp|].
      specialize (Hord pos i ltac:(lia) ltac:(lia)).
      specialize (Hwf pos ltac:(lia)). lia. }
    assert (Hgrown : forall nseq1,
              nameseq_inv nseq1 = true -> first_free nseq1 < alloc nseq1 ->
              first_free nseq1 = first_free nseq ->
              (forall i, 0 <= i < first_free nseq ->
                 sseq_at (sseqs nseq1) i = sseq_at (sseqs nseq) i) ->
              nameseq_inv
                (snd (fst
                   (if info_ok al then
                      link_publication in_own_node
                        (mk_name_seq (ns_type nseq1)
                           (sseq_set
                              (sseq_memmove (sseqs nseq1) (pos + 1) pos
                                            (first_free nseq1 - pos))
                              pos (mk_sub_seq lower upper (mk_name_info [] [])))
                           (alloc nseq1) (wrap32 (first_free nseq1 + 1))
                           (subscriptions nseq1))
                        pos true type lower upper scope node port key al
                    else (None, nseq1, [])))) = true).
    { intros nseq1 Hinv1 Hroom1 Hff1 Hsame.
      destruct (info_ok al); [|exact Hinv1].
      destruct (open_slot_inv nseq1 pos lower upper Hinv1 Hroom1 Hrange)
        as [Hb2 [Hs2 [Hbind2 Hff2]]].
      - lia.
      - intros i Hi. rewrite Hsame by lia. now apply Hleft.
      - intros i Hi. rewrite Hsame by lia. apply Hafter. lia.
      - apply link_publication_inv; try assumption.
        rewrite Hff2. lia. }
    destruct (Z.eqb_spec (first_free nseq) (alloc nseq)) as [Hfull|Hfree].
    + destruct (grow_ok al); [|exact Hinv].
      destruct (grow_inv nseq Hinv Hroom) as [Hinv1 [Hal1 Hsame]].
      cbv zeta in Hinv1, Hal1, Hsame.
      apply Hgrown; [exact Hinv1| |reflexivity|exact Hsame].
      rewrite Hal1. cbn [first_free]. lia.
    + apply Hgrown; auto. lia.
Qed.

Lemma sseq_list_ext l l' :
  length l = length l' ->
  (forall j, 0 <= j < Z.of_nat (length l) -> sseq_at l j = sseq_at l' j) ->
  l = l'.
Proof.
  intros Hlen H. apply (nth_ext _ _ zero_sseq zero_sseq Hlen).
  intros k Hk. specialize (H (Z.of_nat k) ltac:(lia)).
  unfold sseq_at in H. now rewrite Nat2Z.id in H.
Qed.

Lemma sseq_at_delete_at l idx k :
  0 <= idx < Z.of_nat (length l) -> 0 <= k ->
  sseq_at (delete_at idx l) k
  = if k <? idx then sseq_at l k else sseq_at l (k + 1).
Proof.
  intros Hidx Hk. unfold sseq_at, delete_at.
  assert (L : length (firstn (Z.to_nat idx) l) = Z.to_nat idx)
    by (rewrite length_firstn; lia).
  destruct (Z.ltb_spec k idx).
  - rewrite app_nth1 by lia. rewrite nth_firstn.
    destruct (Nat.ltb_spec (Z.to_nat k) (Z.to_nat idx)); [reflexivity|lia].
  - rewrite app_nth2 by lia. rewrite L, nth_skipn. f_equal. lia.
Qed.

Lemma length_delete_at l idx :
  0 <= idx < Z.of_nat (length l) ->
  Z.of_nat (length (delete_at idx l)) = Z.of_nat (length l) - 1.
Proof.
  intros Hidx. unfold delete_at.
  rewrite length_app, length_firstn, length_skipn. lia.
Qed.

Lemma find_list_del_first (f : publication -> bool) l publ :
  find f l = Some publ ->
  f publ = true /\ In publ l /\
  (length (list_del_first f l) < length l)%nat.
Proof.
  induction l as [|p r IH]; cbn [find list_del_first]; [discriminate|].
  destruct (f p) eqn:E.
  - intros [= <-]. cbn. auto with arith.
  - intros H. destruct (IH H) as [Hf [Hin Hlen]]. cbn. auto with arith.
Qed.

(** What tipc_nameseq_remove_publ leaves on a well-formed sequence. *)
Lemma remove_publ_spec nseq inst node port key :
  nameseq_inv nseq = true ->
  match tipc_nameseq_remove_publ in_own_node nseq inst node port key with
  | None => True
  | Some (None, nseq', reports) => nseq' = nseq /\ reports = []
  | Some (Some publ, nseq', reports) =>
    exists idx,
      nameseq_find_subseq nseq inst = Some idx /\
      find (publ_matches node port key)
           (all_publ (sseq_info (sseq_at (sseqs nseq) idx))) = Some publ /\
      nameseq_inv nseq' = true /\
      match list_del_first (publ_matches node port key)
              (all_publ (sseq_info (sseq_at (sseqs nseq) idx))) with
      | [] =>
        first_free nseq' = first_free nseq - 1 /\
        live nseq' = delete_at idx (live nseq) /\
        reports = report_subscriptions (subscriptions nseq) publ
                                       TIPC_WITHDRAWN true
      | rest =>
        first_free nseq' = first_free nseq /\
        all_publ (sseq_info (sseq_at (sseqs nseq') idx)) = rest /\
        reports = report_subscriptions (subscriptions nseq) publ
                                       TIPC_WITHDRAWN false
      end
  end.
Proof.
  intros Hinv.
  pose proof (find_subseq_spec nseq inst Hinv) as Hfind.
  pose proof Hinv as Hinv'. apply nameseq_inv_spec in Hinv'.
  destruct Hinv' as [[Hlen [Hff Hal]] [[Hwf Hord] Hbind]].
  unfold tipc_nameseq_remove_publ.
  destruct (nameseq_find_subseq nseq inst) as [idx|]; [|auto].
  destruct Hfind as [_ [Hidx _]].
  set (i := sseq_info (sseq_at (sseqs nseq) idx)).
  destruct (find (publ_matches node port key) (all_publ i)) as [publ|] eqn:Hf;
    [|auto].
  destruct (if in_own_node node then list_del_entry publ (local_publ i)
            else Some (local_publ i)) as [local'|]; [|exact I].
  remember (list_del_first (publ_matches node port key) (all_publ i))
    as rest eqn:Hrest.
  set (nseq1 := set_info nseq idx (mk_name_info local' rest)).
  assert (Hat1 : forall j, 0 <= j ->
            sseq_at (sseqs nseq1) j
            = if j =? idx
              then mk_sub_seq (sseq_lower (sseq_at (sseqs nseq) idx))
                              (sseq_upper (sseq_at (sseqs nseq) idx))
                              (mk_name_info local' rest)
              else sseq_at (sseqs nseq) j)
    by (intros j Hj; apply set_info_at; lia).
  assert (Hlen1 : Z.of_nat (length (sseqs nseq1)) = alloc nseq)
    by (unfold nseq1, set_info, set_sseqs; cbn [sseqs];
        rewrite length_sseq_set; exact Hlen).
  destruct rest as [|q rest'];
    (exists idx; split; [reflexivity|]; split; [exact Hf|]);
    fold i; rewrite <- Hrest.
  - change (first_free nseq1) with (first_free nseq).
    change (alloc nseq1) with (alloc nseq).
    change (ns_type nseq1) with (ns_type nseq).
    assert (Hw : wrap32 (first_free nseq - 1) = first_free nseq - 1)
      by (apply wrap32_small; unfold max_alloc in *; lia).
    rewrite Hw.
    set (n := first_free nseq) in *.
    assert (Hat : forall j, 0 <= j < n - 1 ->
              sseq_at (sseq_memmove (sseqs nseq1) idx (idx + 1)
                                    (n - (idx + 1))) j
              = sseq_at (sseqs nseq) (if j <? idx then j else j + 1)).
    { intros j Hj. rewrite remove_slot_at by lia.
      destruct (Z.leb_spec idx j); destruct (Z.ltb_spec j idx); try lia;
        destruct (Z.ltb_spec j (n - 1)); try lia; cbn [andb];
        rewrite Hat1 by lia.
      - destruct (Z.eqb_spec (j + 1) idx); [lia|reflexivity].
      - destruct (Z.eqb_spec j idx); [lia|reflexivity]. }
    split; [|split; [reflexivity|split; [|reflexivity]]].
    + apply nameseq_inv_spec. cbn [alloc first_free sseqs].
      split; [|split].
      * rewrite length_sseq_memmove by lia. lia.
      * split.
        -- intros j Hj. rewrite Hat by lia. apply Hwf.
           destruct (j <? idx); lia.
        -- intros j k Hjk Hk. rewrite !Hat by lia. apply Hord.
           ++ destruct (Z.ltb_spec j idx); destruct (Z.ltb_spec k idx); lia.
           ++ destruct (k <? idx); lia.
      * intros j Hj. rewrite Hat by lia. apply Hbind.
        destruct (j <? idx); lia.
    + unfold live. cbn [first_free sseqs].
      apply sseq_list_ext.
      * apply Nat2Z.inj. rewrite length_delete_at;
          rewrite !length_firstn, ?length_sseq_memmove by lia; lia.
      * intros k Hk.
        rewrite length_firstn, length_sseq_memmove in Hk by lia.
        rewrite sseq_at_firstn, Hat by lia.
        rewrite sseq_at_delete_at by (rewrite ?length_firstn; lia).
        destruct (Z.ltb_spec k idx);
          rewrite sseq_at_firstn by lia; reflexivity.
  - split; [|split; [reflexivity|split; [|reflexivity]]].
    + apply set_info_inv; try assumption.
      * apply array_bounds_spec. tauto.
      * split; assumption.
      * intros j Hj _. now apply Hbind.
      * cbn. discriminate.
    + rewrite Hat1 by lia. rewrite Z.eqb_refl. reflexivity.
Qed.

(** X21.  Insertion and removal keep a name sequence well formed: its live
    entries stay sorted by lower bound with disjoint ranges, and every live
    entry keeps a non-empty all_publ list.  For tipc_nameseq_insert_publ
    this holds for a valid range and for every outcome of the call in which
    the publication itself could be allocated, so whenever the call returns
    a publication ([nameseq_inv_spec] spells the invariant out); for
    tipc_nameseq_remove_publ it holds whenever the call returns.  When the
    removed publication was the only one of its binding set, the live array
    is the old one with that slot deleted. *)
Theorem nameseq_mutations_keep_invariant nseq :
  nameseq_inv nseq = true ->
  (forall type lower upper scope node port key al,
     lower <= upper -> alloc nseq * 2 <= max_alloc -> publ_ok al = true ->
     nameseq_inv (snd (fst (tipc_nameseq_insert_publ in_own_node nseq
                              type lower upper scope node port key al)))
     = true) /\
  (forall inst node port key r nseq' reports,
     tipc_nameseq_remove_publ in_own_node nseq inst node port key
     = Some (r, nseq', reports) ->
     nameseq_inv nseq' = true /\
     (forall idx publ,
        nameseq_find_subseq nseq inst = Some idx ->
        all_publ (sseq_info (sseq_at (sseqs nseq) idx)) = [publ] ->
        r <> None ->
        first_free nseq' = first_free nseq - 1 /\
        live nseq' = delete_at idx (live nseq))).
Proof.
  intros Hinv. split.
  - intros. now apply insert_publ_inv.
  - intros inst node port key r nseq' reports Hrem.
    pose proof (remove_publ_spec nseq inst node port key Hinv) as H.
    rewrite Hrem in H. destruct r as [publ|].
    + destruct H as [idx [Hfind [Hf [Hinv' Hrest]]]].
      split; [exact Hinv'|].
      intros idx' publ' Hfind' Hall _.
      assert (idx' = idx) by congruence. subst idx'.
      rewrite Hall in Hf, Hrest. cbn [find list_del_first] in Hf, Hrest.
      destruct (publ_matches node port key publ'); [|discriminate].
      tauto.
    + destruct H as [-> _]. split; [exact Hinv|].
      intros idx publ _ _ Hr. congruence.
Qed.

(** C8.  Withdrawing the only publication of a sub-sequence returns it and
    deletes the slot: first_free goes down by one, the live array is the
    old one without that slot, and no instance of the former range is found
    afterwards.  The calls of tipc_sub_report_overlap it makes are, in list
    order, one for every subscription of the sequence, each with the bounds,
    port, node and scope of the publication, the event TIPC_WITHDRAWN and
    the removed flag set. *)
Theorem withdraw_last_deletes_subseq nseq inst node port key idx publ :
  nameseq_inv nseq = true ->
  nameseq_find_subseq nseq inst = Some idx ->
  all_publ (sseq_info (sseq_at (sseqs nseq) idx)) = [publ] ->
  publ_matches node port key publ = true ->
  (in_own_node node = true ->
   existsb (publ_eqb publ)
           (local_publ (sseq_info (sseq_at (sseqs nseq) idx))) = true) ->
  exists nseq',
    tipc_nameseq_remove_publ in_own_node nseq inst node port key
    = Some (Some publ, nseq',
            map (fun sub =>
                   mk_report sub (publ_lower publ) (publ_upper publ)
                             TIPC_WITHDRAWN (publ_port publ) (publ_node publ)
                             (publ_scope publ) true)
                (subscriptions nseq)) /\
    first_free nseq' = first_free nseq - 1 /\
    live nseq' = delete_at idx (live nseq) /\
    (forall x, sseq_lower (sseq_at (sseqs nseq) idx) <= x
               <= sseq_upper (sseq_at (sseqs nseq) idx) ->
               nameseq_find_subseq nseq' x = None).
Proof.
  intros Hinv Hfind Hall Hmatch Hlocal.
  pose proof (remove_publ_spec nseq inst node port key Hinv) as H.
  pose proof (find_subseq_spec nseq inst Hinv) as Hidx.
  rewrite Hfind in Hidx. destruct Hidx as [_ [Hidx _]].
  assert (Hdel : exists local',
            (if in_own_node node
             then list_del_entry publ
                    (local_publ (sseq_info (sseq_at (sseqs nseq) idx)))
             else Some (local_publ (sseq_info (sseq_at (sseqs nseq) idx))))
            = Some local').
  { destruct (in_own_node node); [|eauto].
    unfold list_del_entry. rewrite Hlocal by reflexivity. eauto. }
  destruct Hdel as [local' Hdel].
  assert (Hres : exists nseq',
            tipc_nameseq_remove_publ in_own_node nseq inst node port key
            = Some (Some publ, nseq',
                    report_subscriptions (subscriptions nseq) publ
                                         TIPC_WITHDRAWN true)).
  { unfold tipc_nameseq_remove_publ. rewrite Hfind. cbv zeta.
    rewrite Hall. cbn [find list_del_first]. rewrite Hmatch, Hdel.
    eexists. reflexivity. }
  destruct Hres as [nseq' Hres]. rewrite Hres in H.
  destruct H as [idx' [E [_ [Hinv' Hrest]]]].
  rewrite Hfind in E. injection E as <-.
  rewrite Hall in Hrest. cbn [list_del_first] in Hrest.
  rewrite Hmatch in Hrest. destruct Hrest as [Hff [Hlive _]].
  exists nseq'. split; [exact Hres|]. split; [exact Hff|].
  split; [exact Hlive|].
  intros x Hx. apply (find_subseq_none _ x Hinv').
  rewrite Hff. intros i Hi.
  pose proof Hinv' as Hb'. apply nameseq_inv_spec in Hb'.
  destruct Hb' as [[Hlen' [Hfree' Hal']] _].
  apply nameseq_inv_spec in Hinv.
  destruct Hinv as [[Hlen [Hfree Hal]] [[Hwf Hord] _]].
  rewrite <- (sseq_at_firstn _ (first_free nseq')) by lia.
  fold (live nseq'). rewrite Hlive.
  rewrite sseq_at_delete_at by (rewrite ?length_live; lia).
  unfold contains. apply andb_false_iff. rewrite Z.leb_gt, Z.leb_gt.
  destruct (Z.ltb_spec i idx); unfold live; rewrite sseq_at_firstn by lia.
  - right. specialize (Hord i idx ltac:(lia) ltac:(lia)). lia.
  - left. specialize (Hord idx (i + 1) ltac:(lia) ltac:(lia)). lia.
Qed.

End Mutations.

(** ** The hash table *)

Lemma bucket_of_set_bucket tbl index b :
  0 <= index < Z.of_nat (length (seq_hlist tbl)) ->
  bucket_of (set_bucket tbl index b) index = b.
Proof.
  intros H. unfold bucket_of, set_bucket. cbn [seq_hlist].
  rewrite nth_store by lia. now rewrite Nat.eqb_refl.
Qed.

Lemma length_set_bucket tbl index b :
  0 <= index < Z.of_nat (length (seq_hlist tbl)) ->
  length (seq_hlist (set_bucket tbl index b)) = length (seq_hlist tbl).
Proof.
  intros H. unfold set_bucket. cbn [seq_hlist]. apply length_store. lia.
Qed.

Lemma set_bucket_same tbl index :
  0 <= index < Z.of_nat (length (seq_hlist tbl)) ->
  set_bucket tbl index (bucket_of tbl index) = tbl.
Proof.
  intros H. destruct tbl as [h c]. unfold set_bucket, bucket_of.
  cbn [seq_hlist local_publ_count] in *. f_equal.
  apply (nth_ext _ _ [] []).
  - apply length_store. lia.
  - intros k _. rewrite nth_store by lia.
    destruct (Nat.eqb_spec k (Z.to_nat index)) as [->|]; reflexivity.
Qed.

Lemma length_init :
  Z.of_nat (length (seq_hlist tipc_nametbl_init)) = TIPC_NAMETBL_SIZE.
Proof. cbn [tipc_nametbl_init seq_hlist]. now rewrite repeat_length. Qed.

Lemma bucket_of_init index : bucket_of tipc_nametbl_init index = [].
Proof.
  unfold bucket_of, tipc_nametbl_init. cbn [seq_hlist]. apply nth_repeat.
Qed.

Lemma find_seq_init type : nametbl_find_seq tipc_nametbl_init type = None.
Proof. unfold nametbl_find_seq. now rewrite bucket_of_init. Qed.

Lemma find_store_seq type ns ns' b :
  find (fun x => ns_type x =? type) b = Some ns -> ns_type ns' = type ->
  find (fun x => ns_type x =? type) (store_seq type ns' b) = Some ns'.
Proof.
  intros H E. induction b as [|x r IH]; cbn [find store_seq] in *;
    [discriminate|].
  destruct (ns_type x =? type) eqn:Hx.
  - cbn [find]. rewrite E, Z.eqb_refl. reflexivity.
  - cbn [find]. rewrite Hx. now apply IH.
Qed.

Lemma store_seq_same type ns b :
  find (fun x => ns_type x =? type) b = Some ns -> store_seq type ns b = b.
Proof.
  induction b as [|x r IH]; cbn [find store_seq]; [reflexivity|].
  destruct (ns_type x =? type).
  - now intros [= ->].
  - intros H. now rewrite IH.
Qed.

Lemma find_seq_type tbl type ns :
  nametbl_find_seq tbl type = Some ns -> ns_type ns = type.
Proof.
  unfold nametbl_find_seq. intros H. apply find_some in H.
  now apply Z.eqb_eq.
Qed.

Lemma find_seq_update tbl type ns ns' :
  Z.of_nat (length (seq_hlist tbl)) = TIPC_NAMETBL_SIZE ->
  nametbl_find_seq tbl type = Some ns -> ns_type ns' = type ->
  nametbl_find_seq (update_seq tbl type ns') type = Some ns'.
Proof.
  intros Hlen Hfind E. unfold nametbl_find_seq, update_seq in *.
  rewrite bucket_of_set_bucket
    by (rewrite Hlen; apply hash_range).
  now apply (find_store_seq type ns).
Qed.

Lemma update_seq_same tbl type ns :
  Z.of_nat (length (seq_hlist tbl)) = TIPC_NAMETBL_SIZE ->
  nametbl_find_seq tbl type = Some ns -> update_seq tbl type ns = tbl.
Proof.
  intros Hlen Hfind. unfold update_seq, nametbl_find_seq in *.
  rewrite (store_seq_same type ns) by exact Hfind.
  apply set_bucket_same. rewrite Hlen. apply hash_range.
Qed.

Lemma length_update_seq tbl type ns' :
  Z.of_nat (length (seq_hlist tbl)) = TIPC_NAMETBL_SIZE ->
  Z.of_nat (length (seq_hlist (update_seq tbl type ns'))) = TIPC_NAMETBL_SIZE.
Proof.
  intros Hlen. unfold update_seq.
  rewrite length_set_bucket by (rewrite Hlen; apply hash_range). exact Hlen.
Qed.

Lemma nametbl_inv_find tbl type ns :
  nametbl_inv tbl = true -> nametbl_find_seq tbl type = Some ns ->
  nameseq_inv ns = true.
Proof.
  unfold nametbl_inv, nametbl_find_seq, bucket_of.
  intros H Hfind. apply andb_true_iff in H. destruct H as [Hlen H].
  apply Z.eqb_eq in Hlen. apply find_some in Hfind. destruct Hfind as [Hin _].
  rewrite forallb_forall in H.
  specialize (H (nth (Z.to_nat (hash (s32 type))) (seq_hlist tbl) [])).
  rewrite forallb_forall in H. apply H; [|exact Hin].
  apply nth_In. pose proof (hash_range (s32 type)). lia.
Qed.

Lemma nametbl_inv_length tbl :
  nametbl_inv tbl = true ->
  Z.of_nat (length (seq_hlist tbl)) = TIPC_NAMETBL_SIZE.
Proof.
  unfold nametbl_inv. intros H. apply andb_true_iff in H.
  now apply Z.eqb_eq.
Qed.

(** ** Publish, translate, withdraw on an empty table *)

Lemma publ_eqb_refl p : publ_eqb p p = true.
Proof. unfold publ_eqb. now rewrite !Z.eqb_refl. Qed.

Lemma find_single type lower upper i instance :
  lower <= instance <= upper ->
  nameseq_find_subseq (single_range type lower upper i) instance = Some 0.
Proof.
  intros H. unfold nameseq_find_subseq, search_fuel, single_range.
  cbn [first_free sseqs].
  change (s32 (wrap32 (1 - 1))) with 0.
  change (Z.to_nat 1) with 1%nat.
  cbn [find_loop]. change (0 <=? 0) with true. cbv iota.
  change (Z.quot (s32 (0 + 0)) 2) with 0. cbv zeta.
  change (sseq_at [mk_sub_seq lower upper i] 0) with (mk_sub_seq lower upper i).
  cbn [sseq_lower sseq_upper].
  destruct (Z.ltb_spec instance lower); [lia|].
  destruct (Z.ltb_spec upper instance); [lia|]. reflexivity.
Qed.

Lemma find_seq_bucket tbl type ns r :
  bucket_of tbl (hash (s32 type)) = ns :: r -> ns_type ns = type ->
  nametbl_find_seq tbl type = Some ns.
Proof.
  intros Hb E. unfold nametbl_find_seq. rewrite Hb. cbn [find].
  now rewrite E, Z.eqb_refl.
Qed.

Lemma bucket_of_update_seq tbl type ns ns' r :
  Z.of_nat (length (seq_hlist tbl)) = TIPC_NAMETBL_SIZE ->
  bucket_of tbl (hash (s32 type)) = ns :: r -> ns_type ns = type ->
  bucket_of (update_seq tbl type ns') (hash (s32 type)) = ns' :: r.
Proof.
  intros Hlen Hb E. unfold update_seq.
  rewrite bucket_of_set_bucket by (rewrite Hlen; apply hash_range).
  rewrite Hb. cbn [store_seq]. now rewrite E, Z.eqb_refl.
Qed.

Section Scenario.

Variable own_addr : Z.
Variable TIPC_NODE_SCOPE : Z.
Variable in_own_node : Z -> bool.
Variable tipc_in_scope : Z -> Z -> bool.

Lemma insert_into_created type lower upper scope node port key :
  let publ := mk_publication type lower upper scope node port key in
  tipc_nameseq_insert_publ in_own_node (tipc_nameseq_create type)
    type lower upper scope node port key allocs_succeed
  = (Some publ,
     single_range type lower upper (first_binding in_own_node publ), []).
Proof. reflexivity. Qed.

Lemma publish_into_empty type lower upper scope node port key :
  lower <= upper -> scope <= TIPC_NODE_SCOPE ->
  let publ := mk_publication type lower upper scope node port key in
  exists tbl1,
    tipc_nametbl_insert_publ TIPC_NODE_SCOPE in_own_node tipc_nametbl_init
      type lower upper scope node port key allocs_succeed
    = (Some publ, tbl1, []) /\
    Z.of_nat (length (seq_hlist tbl1)) = TIPC_NAMETBL_SIZE /\
    bucket_of tbl1 (hash (s32 type))
    = [single_range type lower upper (first_binding in_own_node publ)].
Proof.
  intros Hrange Hscope publ. unfold tipc_nametbl_insert_publ.
  rewrite find_seq_init. cbv zeta.
  destruct (Z.ltb_spec TIPC_NODE_SCOPE scope); [lia|].
  destruct (Z.ltb_spec upper lower); [lia|].
  cbn [orb nseq_ok sseq_ok allocs_succeed andb].
  rewrite insert_into_created. cbv zeta. fold publ.
  pose proof length_init as Hlen.
  pose proof (hash_range (s32 type)) as Hh.
  set (tbl0 := set_bucket tipc_nametbl_init (hash (s32 type))
                 (tipc_nameseq_create type
                  :: bucket_of tipc_nametbl_init (hash (s32 type)))).
  assert (Hlen0 : Z.of_nat (length (seq_hlist tbl0)) = TIPC_NAMETBL_SIZE)
    by (unfold tbl0; rewrite length_set_bucket by lia; exact Hlen).
  eexists. split; [reflexivity|]. split.
  - now apply length_update_seq.
  - apply (bucket_of_update_seq tbl0 type (tipc_nameseq_create type));
      [exact Hlen0| |reflexivity].
    unfold tbl0. rewrite bucket_of_set_bucket by lia.
    now rewrite bucket_of_init.
Qed.

(** Translation with no destination constraint on a table whose chain for
    [type] holds one range with the one publication [publ]. *)
Lemma translate_single tbl type lower upper publ instance :
  tipc_in_scope 0 own_addr = true ->
  Z.of_nat (length (seq_hlist tbl)) = TIPC_NAMETBL_SIZE ->
  bucket_of tbl (hash (s32 type))
  = [single_range type lower upper (first_binding in_own_node publ)] ->
  lower <= instance <= upper ->
  exists tbl2,
    tipc_nametbl_translate own_addr tipc_in_scope tbl type instance 0
    = Some (publ_port publ, publ_node publ, tbl2) /\
    Z.of_nat (length (seq_hlist tbl2)) = TIPC_NAMETBL_SIZE /\
    bucket_of tbl2 (hash (s32 type))
    = [single_range type lower upper (first_binding in_own_node publ)].
Proof.
  intros Hscope Hlen Hb Hin. unfold tipc_nametbl_translate.
  rewrite Hscope. cbn [negb].
  rewrite (find_seq_bucket tbl type _ [] Hb eq_refl).
  rewrite find_single by exact Hin. cbv zeta.
  change (sseq_info (sseq_at (sseqs (single_range type lower upper
                                       (first_binding in_own_node publ))) 0))
    with (first_binding in_own_node publ).
  rewrite Z.eqb_refl. unfold first_binding.
  destruct (in_own_node (publ_node publ));
    cbn [local_publ all_publ first_entry_move_tail app];
    (eexists; split; [reflexivity|]; split;
     [now apply length_update_seq
     |now apply (bucket_of_update_seq tbl type _ _ [] Hlen Hb)]).
Qed.

Lemma withdraw_single tbl type lower upper scope port key :
  Z.of_nat (length (seq_hlist tbl)) = TIPC_NAMETBL_SIZE ->
  lower <= upper ->
  let publ := mk_publication type lower upper scope own_addr port key in
  bucket_of tbl (hash (s32 type))
  = [single_range type lower upper (first_binding in_own_node publ)] ->
  exists tbl3,
    tipc_nametbl_remove_publ in_own_node tbl type lower own_addr port key
    = Some (Some publ, tbl3, []) /\
    nametbl_find_seq tbl3 type = None.
Proof.
  intros Hlen Hrange publ Hb. unfold tipc_nametbl_remove_publ.
  rewrite (find_seq_bucket tbl type _ [] Hb eq_refl).
  unfold tipc_nameseq_remove_publ.
  rewrite find_single by lia. cbv zeta.
  change (sseq_info (sseq_at (sseqs (single_range type lower upper
                                       (first_binding in_own_node publ))) 0))
    with (first_binding in_own_node publ).
  assert (Hm : publ_matches own_addr port key publ = true).
  { unfold publ_matches, publ. cbn [publ_port publ_key publ_node].
    now rewrite !Z.eqb_refl, orb_true_r. }
  unfold first_binding. cbn [all_publ local_publ find list_del_first].
  rewrite Hm. change (publ_node publ) with own_addr.
  assert (Hd : (if in_own_node own_addr
                then list_del_entry publ
                       (if in_own_node own_addr then [publ] else [])
                else Some (if in_own_node own_addr then [publ] else []))
               = Some []).
  { destruct (in_own_node own_addr); [|reflexivity].
    unfold list_del_entry. cbn [existsb list_del_first].
    now rewrite publ_eqb_refl. }
  rewrite Hd.
  change (wrap32 (first_free (set_info _ 0 _) - 1)) with 0.
  cbn [first_free subscriptions set_info set_sseqs single_range].
  rewrite Z.eqb_refl. cbn [andb].
  eexists. split; [reflexivity|].
  unfold nametbl_find_seq.
  rewrite bucket_of_set_bucket
    by (rewrite Hlen; apply hash_range).
  rewrite Hb. cbn [unlink_seq ns_type single_range].
  now rewrite Z.eqb_refl.
Qed.

(** C1.  A publish by this node with a valid range and scope into the
    empty table returns the publication, and a translate that follows it
    for any instance of the range, with no destination constraint, returns
    the published port and this node.  Withdrawing the same tuple then
    returns the publication and a further translate finds nothing.  The
    second part is the scenario with type 10, range [5,5], port 100 and
    key 1. *)
Theorem publish_translate_withdraw :
  tipc_in_scope 0 own_addr = true ->
  (forall type lower upper scope port key instance,
     lower <= upper -> scope <= TIPC_NODE_SCOPE ->
     lower <= instance <= upper ->
     let publ := mk_publication type lower upper scope own_addr port key in
     exists tbl1 tbl2 tbl3 tbl4,
       tipc_nametbl_insert_publ TIPC_NODE_SCOPE in_own_node tipc_nametbl_init
         type lower upper scope own_addr port key allocs_succeed
       = (Some publ, tbl1, []) /\
       tipc_nametbl_translate own_addr tipc_in_scope tbl1 type instance 0
       = Some (port, own_addr, tbl2) /\
       tipc_nametbl_remove_publ in_own_node tbl2 type lower own_addr port key
       = Some (Some publ, tbl3, []) /\
       tipc_nametbl_translate own_addr tipc_in_scope tbl3 type instance 0
       = Some (0, 0, tbl4)) /\
  (forall scope, scope <= TIPC_NODE_SCOPE ->
     exists publ tbl1 tbl2 tbl3 tbl4,
       tipc_nametbl_insert_publ TIPC_NODE_SCOPE in_own_node tipc_nametbl_init
         10 5 5 scope own_addr 100 1 allocs_succeed
       = (Some publ, tbl1, []) /\
       tipc_nametbl_translate own_addr tipc_in_scope tbl1 10 5 0
       = Some (100, own_addr, tbl2) /\
       tipc_nametbl_remove_publ in_own_node tbl2 10 5 own_addr 100 1
       = Some (Some publ, tbl3, []) /\
       tipc_nametbl_translate own_addr tipc_in_scope tbl3 10 5 0
       = Some (0, 0, tbl4)).
Proof.
  intros Hscope.
  assert (Hgen : forall type lower upper scope port key instance,
     lower <= upper -> scope <= TIPC_NODE_SCOPE ->
     lower <= instance <= upper ->
     let publ := mk_publication type lower upper scope own_addr port key in
     exists tbl1 tbl2 tbl3 tbl4,
       tipc_nametbl_insert_publ TIPC_NODE_SCOPE in_own_node tipc_nametbl_init
         type lower upper scope own_addr port key allocs_succeed
       = (Some publ, tbl1, []) /\
       tipc_nametbl_translate own_addr tipc_in_scope tbl1 type instance 0
       = Some (port, own_addr, tbl2) /\
       tipc_nametbl_remove_publ in_own_node tbl2 type lower own_addr port key
       = Some (Some publ, tbl3, []) /\
       tipc_nametbl_translate own_addr tipc_in_scope tbl3 type instance 0
       = Some (0, 0, tbl4)).
  { intros type lower upper scope port key instance Hrange Hsc Hin publ.
    destruct (publish_into_empty type lower upper scope own_addr port key
                Hrange Hsc) as [tbl1 [H1 [Hlen1 Hb1]]].
    destruct (translate_single tbl1 type lower upper _ instance
                Hscope Hlen1 Hb1 Hin) as [tbl2 [H2 [Hlen2 Hb2]]].
    destruct (withdraw_single tbl2 type lower upper scope port key
                Hlen2 Hrange Hb2) as [tbl3 [H3 Hnone]].
    exists tbl1, tbl2, tbl3, tbl3.
    split; [exact H1|]. split; [exact H2|]. split; [exact H3|].
    unfold tipc_nametbl_translate. rewrite Hscope, Hnone. reflexivity. }
  split; [exact Hgen|].
  intros scope Hsc.
  destruct (Hgen 10 5 5 scope 100 1 5 ltac:(lia) Hsc ltac:(lia))
    as [tbl1 [tbl2 [tbl3 [tbl4 H]]]].
  eexists. exists tbl1, tbl2, tbl3, tbl4. exact H.
Qed.

End Scenario.

(** ** When a publish is rejected *)

Lemma existsb_firstn_index (f : sub_seq -> bool) a n :
  0 <= n <= Z.of_nat (length a) ->
  existsb f (firstn (Z.to_nat n) a) = true <->
  (exists i, 0 <= i < n /\ f (sseq_at a i) = true).
Proof.
  intros Hn. rewrite existsb_exists. split.
  - intros [x [Hx Hf]].
    destruct (In_nth _ _ zero_sseq Hx) as [k [Hk E]].
    rewrite length_firstn in Hk. exists (Z.of_nat k). split; [lia|].
    rewrite <- (sseq_at_firstn a n) by lia.
    unfold sseq_at. now rewrite Nat2Z.id, E.
  - intros [i [Hi Hf]]. exists (sseq_at a i). split; [|exact Hf].
    rewrite <- (sseq_at_firstn a n i Hi).
    unfold sseq_at. apply nth_In. rewrite length_firstn. lia.
Qed.

Section Conflicts.

Variable TIPC_NODE_SCOPE : Z.
Variable in_own_node : Z -> bool.

Lemma link_publication_some nseq idx created type lower upper scope node port
      key :
  link_publication in_own_node nseq idx created type lower upper scope node
                   port key allocs_succeed
  = (Some (mk_publication type lower upper scope node port key),
     set_info nseq idx
       (mk_name_info
          (if in_own_node node
           then mk_publication type lower upper scope node port key
                :: local_publ (sseq_info (sseq_at (sseqs nseq) idx))
           else local_publ (sseq_info (sseq_at (sseqs nseq) idx)))
          (mk_publication type lower upper scope node port key
           :: all_publ (sseq_info (sseq_at (sseqs nseq) idx)))),
     report_subscriptions (subscriptions nseq)
       (mk_publication type lower upper scope node port key)
       TIPC_PUBLISHED created).
Proof. reflexivity. Qed.

(** With every allocation succeeding, tipc_nameseq_insert_publ on a
    well-formed sequence returns NULL exactly when some live sub-sequence
    conflicts with the new publication. *)
Lemma insert_rejects_iff nseq type lower upper scope node port key :
  nameseq_inv nseq = true -> lower <= upper ->
  fst (fst (tipc_nameseq_insert_publ in_own_node nseq type lower upper scope
              node port key allocs_succeed)) = None <->
  publish_conflict nseq lower upper node port key = true.
Proof.
  intros Hinv Hrange.
  pose proof (find_subseq_spec nseq lower Hinv) as Hfind.
  apply nameseq_inv_spec in Hinv.
  destruct Hinv as [[Hlen [Hff Hal]] [[Hwf Hord] Hbind]].
  unfold publish_conflict, live.
  rewrite existsb_firstn_index by lia.
  unfold tipc_nameseq_insert_publ.
  destruct (nameseq_find_subseq nseq lower) as [idx|].
  - destruct Hfind as [_ [Hidx Hc]].
    unfold contains in Hc. apply andb_true_iff in Hc.
    rewrite !Z.leb_le in Hc.
    set (s := sseq_at (sseqs nseq) idx) in *.
    destruct (negb (sseq_lower s =? lower) || negb (sseq_upper s =? upper))
      eqn:Hex.
    + cbn [fst]. split; [intros _|reflexivity].
      exists idx. split; [exact Hidx|]. fold s.
      unfold conflicts_with, overlaps, exact_range.
      rewrite <- negb_andb in Hex. rewrite Hex.
      apply negb_true_iff in Hex. rewrite Hex. cbn [andb orb].
      rewrite orb_false_r, andb_true_r.
      apply andb_true_iff. rewrite !Z.leb_le. lia.
    + rewrite <- negb_andb in Hex. apply negb_false_iff in Hex.
      destruct (existsb (publ_matches node port key) (all_publ (sseq_info s)))
        eqn:Hdup.
      * cbn [fst]. split; [intros _|reflexivity].
        exists idx. split; [exact Hidx|]. fold s.
        unfold conflicts_with, exact_range. rewrite Hex, Hdup.
        apply orb_true_r.
      * rewrite link_publication_some. cbn [fst].
        split; [discriminate|]. intros [j [Hj Hconf]]. exfalso.
        apply andb_true_iff in Hex. rewrite !Z.eqb_eq in Hex.
        destruct (Z.eq_dec j idx) as [->|Hne].
        -- fold s in Hconf. unfold conflicts_with, exact_range in Hconf.
           destruct Hex as [El Eu].
           rewrite El, Eu, !Z.eqb_refl, Hdup in Hconf.
           cbn in Hconf. rewrite andb_false_r in Hconf. discriminate.
        -- unfold conflicts_with, overlaps, exact_range in Hconf.
           assert (Hdis : sseq_upper (sseq_at (sseqs nseq) j) < lower \/
                          upper < sseq_lower (sseq_at (sseqs nseq) j)).
           { destruct (Z.lt_ge_cases j idx).
             - left. specialize (Hord j idx ltac:(lia) ltac:(lia)).
               fold s in Hord. lia.
             - right. specialize (Hord idx j ltac:(lia) ltac:(lia)).
               fold s in Hord. lia. }
           specialize (Hwf j Hj).
           apply orb_true_iff in Hconf.
           rewrite !andb_true_iff, !Z.leb_le, !Z.eqb_eq in Hconf. lia.
  - cbv zeta in Hfind. destruct Hfind as [Hpos [Hleft Hright]].
    set (pos := nameseq_locate_subseq nseq lower) in *.
    destruct ((pos <? first_free nseq) &&
              (sseq_lower (sseq_at (sseqs nseq) pos) <=? upper)) eqn:Hchk.
    + cbn [fst]. split; [intros _|reflexivity].
      apply andb_true_iff in Hchk. rewrite Z.ltb_lt, Z.leb_le in Hchk.
      exists pos. split; [lia|].
      specialize (Hright pos ltac:(lia)). specialize (Hwf pos ltac:(lia)).
      unfold conflicts_with, overlaps, exact_range.
      apply orb_true_iff. left.
      rewrite !andb_true_iff, negb_true_iff, andb_false_iff,
        !Z.leb_le, Z.eqb_neq. lia.
    + assert (Hsome : forall nseq1,
                fst (fst
                  (if info_ok allocs_succeed then
                     link_publication in_own_node
                       (mk_name_seq (ns_type nseq1)
                          (sseq_set
                             (sseq_memmove (sseqs nseq1) (pos + 1) pos
                                           (first_free nseq1 - pos))
                             pos
                             (mk_sub_seq lower upper (mk_name_info [] [])))
                          (alloc nseq1) (wrap32 (first_free nseq1 + 1))
                          (subscriptions nseq1))
                       pos true type lower upper scope node port key
                       allocs_succeed
                   else (None, nseq1, []))) <> None)
        by (intros nseq1; cbn [info_ok allocs_succeed];
            rewrite link_publication_some; discriminate).
      assert (Hres : fst (fst
                (match
                   (if first_free nseq =? alloc nseq then
                      if grow_ok allocs_succeed then
                        Some (mk_name_seq (ns_type nseq)
                                (sseq_memcpy
                                   (tipc_subseq_alloc (wrap32 (alloc nseq * 2)))
                                   (sseqs nseq) (alloc nseq))
                                (wrap32 (alloc nseq * 2)) (first_free nseq)
                                (subscriptions nseq))
                      else None
                    else Some nseq)
                 with
                 | None => (None, nseq, [])
                 | Some nseq1 =>
                   if info_ok allocs_succeed then
                     link_publication in_own_node
                       (mk_name_seq (ns_type nseq1)
                          (sseq_set
                             (sseq_memmove (sseqs nseq1) (pos + 1) pos
                                           (first_free nseq1 - pos))
                             pos
                             (mk_sub_seq lower upper (mk_name_info [] [])))
                          (alloc nseq1) (wrap32 (first_free nseq1 + 1))
                          (subscriptions nseq1))
                       pos true type lower upper scope node port key
                       allocs_succeed
                   else (None, nseq1, [])
                 end)) <> None).
      { destruct (first_free nseq =? alloc nseq); cbn [grow_ok allocs_succeed];
          apply Hsome. }
      split; [intros Hnone; now apply Hres in Hnone|].
      intros [j [Hj Hconf]]. exfalso.
      assert (Hafter : pos < first_free nseq ->
                upper < sseq_lower (sseq_at (sseqs nseq) pos)).
      { intros Hp. apply andb_false_iff in Hchk.
        destruct Hchk as [H|H]; [apply Z.ltb_ge in H|apply Z.leb_gt in H];
          lia. }
      assert (Hdis : sseq_upper (sseq_at (sseqs nseq) j) < lower \/
                     upper < sseq_lower (sseq_at (sseqs nseq) j)).
      { destruct (Z.lt_ge_cases j pos); [left; apply Hleft; lia|right].
        specialize (Hafter ltac:(lia)).
        destruct (Z.eq_dec j pos) as [->|Hne]; [exact Hafter|].
        specialize (Hord pos j ltac:(lia) ltac:(lia)).
        specialize (Hwf pos ltac:(lia)). lia. }
      specialize (Hwf j Hj).
      unfold conflicts_with, overlaps, exact_range in Hconf.
      apply orb_true_iff in Hconf.
      rewrite !andb_true_iff, !Z.leb_le, !Z.eqb_eq in Hconf. lia.
Qed.

(** C3, as the code has it.  For a publish with a valid range and scope
    whose allocations all succeed, on a well-formed table:
    tipc_nametbl_insert_publ returns NULL exactly when a live sub-sequence
    of the type overlaps the new range without being the same range, or is
    the same range and already holds a publication with the same port and
    key whose node is the new node or zero.  On the same range with a port
    and key pair no publication of it has, the publish succeeds and the new
    publication joins the old ones on the all_publ list. *)
Theorem publish_rejected_iff tbl type lower upper scope node port key :
  nametbl_inv tbl = true -> lower <= upper -> scope <= TIPC_NODE_SCOPE ->
  (fst (fst (tipc_nametbl_insert_publ TIPC_NODE_SCOPE in_own_node tbl
               type lower upper scope node port key allocs_succeed)) = None
   <->
   exists nseq,
     nametbl_find_seq tbl type = Some nseq /\
     publish_conflict nseq lower upper node port key = true) /\
  (forall nseq idx,
     nametbl_find_seq tbl type = Some nseq ->
     0 <= idx < first_free nseq ->
     exact_range (sseq_at (sseqs nseq) idx) lower upper = true ->
     existsb (fun p => (publ_port p =? port) && (publ_key p =? key))
             (all_publ (sseq_info (sseq_at (sseqs nseq) idx))) = false ->
     exists tbl' nseq' reports,
       tipc_nametbl_insert_publ TIPC_NODE_SCOPE in_own_node tbl
         type lower upper scope node port key allocs_succeed
       = (Some (mk_publication type lower upper scope node port key),
          tbl', reports) /\
       nametbl_find_seq tbl' type = Some nseq' /\
       all_publ (sseq_info (sseq_at (sseqs nseq') idx))
       = mk_publication type lower upper scope node port key
         :: all_publ (sseq_info (sseq_at (sseqs nseq) idx))).
Proof.
  intros Hinv Hrange Hscope.
  pose proof (nametbl_inv_length tbl Hinv) as Hlen.
  split.
  - unfold tipc_nametbl_insert_publ. cbv zeta.
    destruct (Z.ltb_spec TIPC_NODE_SCOPE scope); [lia|].
    destruct (Z.ltb_spec upper lower); [lia|]. cbn [orb].
    destruct (nametbl_find_seq tbl type) as [nseq|] eqn:Hfind.
    + pose proof (nametbl_inv_find tbl type nseq Hinv Hfind) as Hns.
      pose proof (insert_rejects_iff nseq type lower upper scope node port
                    key Hns Hrange) as Hiff.
      destruct (tipc_nameseq_insert_publ in_own_node nseq type lower upper
                  scope node port key allocs_succeed) as [[r nseq'] reports].
      cbn [fst] in *. rewrite Hiff. split.
      * intros Hc. exists nseq. auto.
      * intros [nseq0 [E Hc]]. now injection E as <-.
    + cbn [nseq_ok sseq_ok allocs_succeed andb].
      rewrite insert_into_created. cbn [fst].
      split; [discriminate|]. intros [nseq [E _]]. discriminate.
  - intros nseq idx Hfind Hidx Hex Hnew.
    pose proof (nametbl_inv_find tbl type nseq Hinv Hfind) as Hns.
    pose proof Hex as Hex'. unfold exact_range in Hex'.
    apply andb_true_iff in Hex'. rewrite !Z.eqb_eq in Hex'.
    assert (Hc : contains (sseq_at (sseqs nseq) idx) lower = true).
    { unfold contains. apply andb_true_iff. rewrite !Z.leb_le. lia. }
    destruct (find_subseq_complete nseq lower idx Hns Hidx Hc) as [Hfs _].
    assert (Hdup : existsb (publ_matches node port key)
                     (all_publ (sseq_info (sseq_at (sseqs nseq) idx)))
                   = false).
    { destruct (existsb (publ_matches node port key) _) eqn:E; [|reflexivity].
      apply existsb_exists in E. destruct E as [q [Hin Hq]].
      assert (Hq' : existsb (fun p => (publ_port p =? port) &&
                                      (publ_key p =? key))
                      (all_publ (sseq_info (sseq_at (sseqs nseq) idx)))
                    = true).
      { apply existsb_exists. exists q. split; [exact Hin|].
        unfold publ_matches in Hq. apply andb_true_iff in Hq. tauto. }
      congruence. }
    unfold tipc_nametbl_insert_publ. cbv zeta.
    destruct (Z.ltb_spec TIPC_NODE_SCOPE scope); [lia|].
    destruct (Z.ltb_spec upper lower); [lia|]. cbn [orb].
    rewrite Hfind. unfold tipc_nameseq_insert_publ. rewrite Hfs. cbv zeta.
    unfold exact_range in Hex. rewrite <- negb_andb, Hex. cbn [negb].
    rewrite Hdup, link_publication_some.
    eexists. eexists. eexists. split; [reflexivity|]. split.
    + apply (find_seq_update tbl type nseq); [exact Hlen|exact Hfind|].
      cbn. now apply find_seq_type in Hfind.
    + apply nameseq_inv_spec in Hns. destruct Hns as [[Hl [Hf Ha]] _].
      rewrite set_info_at by lia. rewrite Z.eqb_refl. reflexivity.
Qed.

(** A publish that is rejected although every allocation succeeded leaves
    the sequence, and so the table, as it was. *)
Lemma insert_rejected_unchanged nseq type lower upper scope node port key
      nseq' reports :
  tipc_nameseq_insert_publ in_own_node nseq type lower upper scope node port
    key allocs_succeed = (None, nseq', reports) ->
  nseq' = nseq /\ reports = [].
Proof.
  unfold tipc_nameseq_insert_publ.
  destruct (nameseq_find_subseq nseq lower) as [idx|].
  - destruct (negb _ || negb _); [now intros [= <- <-]|].
    destruct (existsb _ _); [now intros [= <- <-]|].
    rewrite link_publication_some. discriminate.
  - cbv zeta. destruct (_ && _); [now intros [= <- <-]|].
    cbn [grow_ok info_ok allocs_succeed].
    destruct (first_free nseq =? alloc nseq);
      rewrite link_publication_some; discriminate.
Qed.

Lemma publish_rejected_unchanged tbl type lower upper scope node port key
      tbl' reports :
  nametbl_inv tbl = true ->
  tipc_nametbl_insert_publ TIPC_NODE_SCOPE in_own_node tbl
    type lower upper scope node port key allocs_succeed
  = (None, tbl', reports) ->
  tbl' = tbl /\ reports = [].
Proof.
  intros Hinv. pose proof (nametbl_inv_length tbl Hinv) as Hlen.
  unfold tipc_nametbl_insert_publ. cbv zeta.
  destruct (_ || _); [now intros [= <- <-]|].
  destruct (nametbl_find_seq tbl type) as [nseq|] eqn:Hfind.
  - destruct (tipc_nameseq_insert_publ in_own_node nseq type lower upper
                scope node port key allocs_succeed)
      as [[r nseq'] reports'] eqn:Hins.
    intros [= -> <- <-].
    destruct (insert_rejected_unchanged _ _ _ _ _ _ _ _ _ _ Hins) as [-> ->].
    split; [|reflexivity]. now apply update_seq_same.
  - cbn [nseq_ok sseq_ok allocs_succeed andb].
    rewrite insert_into_created. discriminate.
Qed.

(** The two allocation failures a first publish of a type can meet after
    its sequence was created. *)
Lemma insert_created_no_info type lower upper scope node port key al :
  info_ok al = false ->
  tipc_nameseq_insert_publ in_own_node (tipc_nameseq_create type)
    type lower upper scope node port key al
  = (None, tipc_nameseq_create type, []).
Proof.
  intros Hinfo. unfold tipc_nameseq_insert_publ.
  change (nameseq_find_subseq (tipc_nameseq_create type) lower) with (@None Z).
  cbv zeta.
  change (nameseq_locate_subseq (tipc_nameseq_create type) lower) with 0.
  change (first_free (tipc_nameseq_create type)) with 0.
  change (alloc (tipc_nameseq_create type)) with 1.
  change (0 <? 0) with false. change (0 =? 1) with false. cbn [andb].
  now rewrite Hinfo.
Qed.

Lemma insert_created_no_publ type lower upper scope node port key al :
  info_ok al = true -> publ_ok al = false ->
  tipc_nameseq_insert_publ in_own_node (tipc_nameseq_create type)
    type lower upper scope node port key al
  = (None, single_range type lower upper (mk_name_info [] []), []).
Proof.
  intros Hinfo Hpubl. unfold tipc_nameseq_insert_publ.
  change (nameseq_find_subseq (tipc_nameseq_create type) lower) with (@None Z).
  cbv zeta.
  change (nameseq_locate_subseq (tipc_nameseq_create type) lower) with 0.
  change (first_free (tipc_nameseq_create type)) with 0.
  change (alloc (tipc_nameseq_create type)) with 1.
  change (0 <? 0) with false. change (0 =? 1) with false. cbn [andb].
  rewrite Hinfo. unfold link_publication. rewrite Hpubl. reflexivity.
Qed.

(** A valid publish of a type the table does not hold yet, rejected for
    want of memory after its sequence was created, leaves that sequence in
    the table: empty when the name_info was refused, and with the new range
    live over an empty binding set when the publication was. *)
Lemma failed_publish_keeps_sequence tbl type lower upper scope node port key
      al :
  Z.of_nat (length (seq_hlist tbl)) = TIPC_NAMETBL_SIZE ->
  nametbl_find_seq tbl type = None ->
  lower <= upper -> scope <= TIPC_NODE_SCOPE ->
  nseq_ok al = true -> sseq_ok al = true ->
  info_ok al = false \/ publ_ok al = false ->
  exists tbl',
    tipc_nametbl_insert_publ TIPC_NODE_SCOPE in_own_node tbl
      type lower upper scope node port key al = (None, tbl', []) /\
    nametbl_find_seq tbl' type
    = Some (if info_ok al
            then single_range type lower upper (mk_name_info [] [])
            else tipc_nameseq_create type).
Proof.
  intros Hlen Hfind Hrange Hscope Hn Hs Hfail.
  pose proof (hash_range (s32 type)) as Hh.
  unfold tipc_nametbl_insert_publ. rewrite Hfind, Hn, Hs. cbv zeta.
  destruct (Z.ltb_spec TIPC_NODE_SCOPE scope); [lia|].
  destruct (Z.ltb_spec upper lower); [lia|]. cbn [orb andb].
  set (tbl0 := set_bucket tbl (hash (s32 type))
                 (tipc_nameseq_create type :: bucket_of tbl (hash (s32 type)))).
  assert (Hlen0 : Z.of_nat (length (seq_hlist tbl0)) = TIPC_NAMETBL_SIZE)
    by (unfold tbl0; rewrite length_set_bucket by lia; exact Hlen).
  assert (Hfind0 : nametbl_find_seq tbl0 type
                   = Some (tipc_nameseq_create type)).
  { apply (find_seq_bucket tbl0 type _
             (bucket_of tbl (hash (s32 type)))); [|reflexivity].
    unfold tbl0. now rewrite bucket_of_set_bucket by lia. }
  destruct (info_ok al) eqn:Hinfo.
  - destruct Hfail as [Hf|Hpubl]; [discriminate|].
    rewrite insert_created_no_publ by assumption.
    eexists. split; [reflexivity|].
    now apply (find_seq_update tbl0 type (tipc_nameseq_create type)).
  - rewrite insert_created_no_info by assumption.
    eexists. split; [reflexivity|].
    now apply (find_seq_update tbl0 type (tipc_nameseq_create type)).
Qed.

End Conflicts.

(** C3 as stated fails: a publish into the empty table with lower 6 above
    upper 5 is rejected, and so is a publish of [5,5] whose publication
    cannot be allocated, while the table holds no sub-sequence at all that
    could overlap or hold a duplicate. *)
Lemma publish_rejected_counterexample :
  fst (fst (tipc_nametbl_insert_publ sample_max_scope sample_in_own_node
              tipc_nametbl_init 10 6 5 0 sample_own 100 1 allocs_succeed))
  = None /\
  fst (fst (tipc_nametbl_insert_publ sample_max_scope sample_in_own_node
              tipc_nametbl_init 10 5 5 0 sample_own 100 1
              (mk_allocs true true true true false)))
  = None /\
  ~ (exists nseq lower upper,
       nametbl_find_seq tipc_nametbl_init 10 = Some nseq /\
       publish_conflict nseq lower upper sample_own 100 1 = true).
Proof.
  split; [reflexivity|]. split; [reflexivity|].
  intros [nseq [lower [upper [H _]]]]. rewrite find_seq_init in H.
  discriminate.
Qed.

(** C4, at the inputs where the code breaks it.  A publish of type 10,
    range [5,5], into the empty table is rejected when the name_info cannot
    be allocated, and again when the publication cannot be; yet the first
    leaves the newly created sequence of type 10 in the table, and the
    second leaves it there with a live sub-sequence [5,5] whose binding set
    is empty. *)
Theorem failed_publish_leaves_partial_state :
  nametbl_find_seq tipc_nametbl_init 10 = None /\
  (let '(publ, tbl', reports) :=
     tipc_nametbl_insert_publ sample_max_scope sample_in_own_node
       tipc_nametbl_init 10 5 5 0 sample_own 100 1
       (mk_allocs true true true false true) in
   publ = None /\ tbl' <> tipc_nametbl_init /\
   nametbl_find_seq tbl' 10 = Some (tipc_nameseq_create 10)) /\
  (let '(publ, tbl', reports) :=
     tipc_nametbl_insert_publ sample_max_scope sample_in_own_node
       tipc_nametbl_init 10 5 5 0 sample_own 100 1
       (mk_allocs true true true true false) in
   publ = None /\ tbl' <> tipc_nametbl_init /\
   nametbl_find_seq tbl' 10
   = Some (single_range 10 5 5 (mk_name_info [] [])) /\
   nameseq_inv (single_range 10 5 5 (mk_name_info [] [])) = false).
Proof.
  split; [reflexivity|]. split.
  - destruct (tipc_nametbl_insert_publ _ _ _ _ _ _ _ _ _ _ _)
      as [[publ tbl'] reports] eqn:E.
    vm_compute in E. injection E as <- <- <-.
    split; [reflexivity|]. split; [|reflexivity].
    intros H. apply (f_equal (fun t => nametbl_find_seq t 10)) in H.
    vm_compute in H. discriminate.
  - destruct (tipc_nametbl_insert_publ _ _ _ _ _ _ _ _ _ _ _)
      as [[publ tbl'] reports] eqn:E.
    vm_compute in E. injection E as <- <- <-.
    split; [reflexivity|]. split; [|split; reflexivity].
    intros H. apply (f_equal (fun t => nametbl_find_seq t 10)) in H.
    vm_compute in H. discriminate.
Qed.

(** ** Translation *)

Lemma array_bounds_set_info nseq idx i :
  array_bounds (set_info nseq idx i) = array_bounds nseq.
Proof.
  unfold array_bounds, set_info, set_sseqs. cbn [sseqs alloc first_free].
  now rewrite length_sseq_set.
Qed.

(** Writing new lists into the slot found for [instance] gives a table
    where the same slot is found, holding the new lists. *)
Lemma binding_at_update tbl type instance idx i i' nseq :
  binding_at tbl type instance idx i ->
  nametbl_find_seq tbl type = Some nseq ->
  binding_at (update_seq tbl type (set_info nseq idx i')) type instance idx i'.
Proof.
  intros [nseq0 [Hlen [Hfind [Hb [Hfs Hi]]]]] Hfind'.
  assert (nseq0 = nseq) by congruence. subst nseq0.
  exists (set_info nseq idx i'). split; [|split; [|split; [|split]]].
  - now apply length_update_seq.
  - apply (find_seq_update tbl type nseq); [exact Hlen|exact Hfind|].
    cbn. now apply find_seq_type in Hfind.
  - now rewrite array_bounds_set_info.
  - now rewrite set_info_find.
  - destruct (find_subseq_range nseq instance idx Hb Hfs) as [Hidx _].
    apply array_bounds_spec in Hb. destruct Hb as [Hl [Hf Ha]].
    rewrite set_info_at by lia. now rewrite Z.eqb_refl.
Qed.

Section Translate.

Variable own_addr : Z.
Variable tipc_in_scope : Z -> Z -> bool.

(** C6.  On a table where [instance] is found in a sub-sequence with
    binding set [i]: with destnode 0 the translation returns the head of
    local_publ when that list is not empty, else the head of all_publ, and
    moves the entry it chose to the tail of its list, leaving the other
    list alone; with destnode this node's (non-zero) address it chooses
    from local_publ in the same way, and when local_publ is empty it
    returns port 0 and node 0 and changes nothing, whatever all_publ
    holds. *)
Theorem translate_selection tbl type instance idx i :
  binding_at tbl type instance idx i ->
  (tipc_in_scope 0 own_addr = true ->
   (forall publ rest, local_publ i = publ :: rest ->
      exists tbl',
        tipc_nametbl_translate own_addr tipc_in_scope tbl type instance 0
        = Some (publ_port publ, publ_node publ, tbl') /\
        binding_at tbl' type instance idx
          (mk_name_info (rest ++ [publ]) (all_publ i))) /\
   (forall publ rest, local_publ i = [] -> all_publ i = publ :: rest ->
      exists tbl',
        tipc_nametbl_translate own_addr tipc_in_scope tbl type instance 0
        = Some (publ_port publ, publ_node publ, tbl') /\
        binding_at tbl' type instance idx
          (mk_name_info [] (rest ++ [publ])))) /\
  (own_addr <> 0 -> tipc_in_scope own_addr own_addr = true ->
   (forall publ rest, local_publ i = publ :: rest ->
      exists tbl',
        tipc_nametbl_translate own_addr tipc_in_scope tbl type instance
          own_addr
        = Some (publ_port publ, publ_node publ, tbl') /\
        binding_at tbl' type instance idx
          (mk_name_info (rest ++ [publ]) (all_publ i))) /\
   (local_publ i = [] ->
      tipc_nametbl_translate own_addr tipc_in_scope tbl type instance
        own_addr
      = Some (0, 0, tbl))).
Proof.
  intros Hat. pose proof Hat as [nseq [Hlen [Hfind [Hb [Hfs Hi]]]]].
  unfold tipc_nametbl_translate. rewrite Hfind, Hfs. cbv zeta. rewrite Hi.
  split.
  - intros Hscope. rewrite Hscope, Z.eqb_refl. cbn [negb]. split.
    + intros publ rest Hl. rewrite Hl. cbn [first_entry_move_tail].
      eexists. split; [reflexivity|].
      now apply (binding_at_update tbl type instance idx i).
    + intros publ rest Hl Ha. rewrite Hl, Ha. cbn [first_entry_move_tail].
      eexists. split; [reflexivity|].
      now apply (binding_at_update tbl type instance idx i).
  - intros Hown Hscope. rewrite Hscope. cbn [negb].
    destruct (Z.eqb_spec own_addr 0); [contradiction|].
    rewrite Z.eqb_refl. split.
    + intros publ rest Hl. rewrite Hl. cbn [first_entry_move_tail].
      eexists. split; [reflexivity|].
      now apply (binding_at_update tbl type instance idx i).
    + intros Hl. now rewrite Hl.
Qed.

End Translate.

(** ** Lookup *)

Lemma nth_rotate (A : Type) (p p0 : A) (r : list A) (j : nat) :
  nth (j mod S (length r)) (r ++ [p]) p0
  = nth (S j mod S (length r)) (p :: r) p0.
Proof.
  set (N := S (length r)).
  assert (HN : N <> 0%nat) by (unfold N; lia).
  pose proof (Nat.mod_upper_bound j N HN) as Hq.
  pose proof (Nat.div_mod_eq j N) as Hj.
  destruct (Nat.eq_dec (S (j mod N)) N) as [Hlast|Hmid].
  - assert (E : (S j mod N = 0)%nat).
    { symmetry. apply (Nat.mod_unique (S j) N (S (j / N)) 0); lia. }
    rewrite E. cbn [nth].
    rewrite app_nth2 by (unfold N in *; lia).
    replace (j mod N - length r)%nat with 0%nat by (unfold N in *; lia).
    reflexivity.
  - assert (E : (S j mod N = S (j mod N))%nat).
    { symmetry. apply (Nat.mod_unique (S j) N (j / N) (S (j mod N))); lia. }
    rewrite E. cbn [nth].
    apply app_nth1. unfold N in *. lia.
Qed.

Section Lookup.

Variable own_addr : Z.
Variable TIPC_NODE_SCOPE : Z.
Variable in_own_node : Z -> bool.

Lemma lookup_loop_first publ r scope exclude ok dsts c :
  acceptable own_addr scope exclude publ = true ->
  lookup_loop own_addr (publ :: r) scope exclude false ok dsts c
  = (snd (tipc_dest_push dsts (publ_node publ) (publ_port publ) (ok O)),
     s32 (c + 1), r ++ [publ]).
Proof.
  unfold acceptable. intros H. apply andb_true_iff in H.
  destruct H as [Hs He]. cbn [lookup_loop]. rewrite Hs.
  apply negb_true_iff in He. rewrite He. reflexivity.
Qed.

(** One call for a single destination on a binding set whose head is
    acceptable: the head is returned and moved to the tail. *)
Lemma lookup_one tbl type instance idx loc publ r scope exclude :
  binding_at tbl type instance idx (mk_name_info loc (publ :: r)) ->
  acceptable own_addr scope exclude publ = true ->
  exists tbl',
    tipc_nametbl_lookup own_addr tbl type instance scope [] exclude false
                        (fun _ => true)
    = (true, [dest_value (publ_node publ) (publ_port publ)], 1, tbl') /\
    binding_at tbl' type instance idx (mk_name_info loc (r ++ [publ])).
Proof.
  intros Hat Hacc. pose proof Hat as [nseq [Hlen [Hfind [Hb [Hfs Hi]]]]].
  unfold tipc_nametbl_lookup. rewrite Hfind, Hfs. cbv zeta. rewrite Hi.
  cbn [all_publ local_publ]. rewrite lookup_loop_first by exact Hacc.
  cbn [tipc_dest_push tipc_dest_find find snd].
  eexists. split; [reflexivity|].
  now apply (binding_at_update tbl type instance idx
               (mk_name_info loc (publ :: r))).
Qed.

Lemma lookup_rounds_prefix scope exclude type instance idx loc :
  forall k tbl l,
    binding_at tbl type instance idx (mk_name_info loc l) ->
    forallb (acceptable own_addr scope exclude) l = true ->
    (k <= length l)%nat ->
    exists tbl',
      lookup_rounds own_addr k tbl type instance scope exclude
      = (map round_result (firstn k l), tbl') /\
      binding_at tbl' type instance idx
        (mk_name_info loc (skipn k l ++ firstn k l)).
Proof.
  induction k as [|k IH]; intros tbl l Hat Hacc Hk.
  - exists tbl. split; [reflexivity|]. cbn [skipn firstn].
    now rewrite app_nil_r.
  - destruct l as [|publ r]; [cbn in Hk; lia|].
    cbn [forallb] in Hacc. apply andb_true_iff in Hacc.
    destruct Hacc as [Hp Hr]. cbn [length] in Hk.
    destruct (lookup_one tbl type instance idx loc publ r scope exclude
                Hat Hp) as [tbl1 [H1 Hat1]].
    destruct (IH tbl1 (r ++ [publ]) Hat1) as [tbl' [Hrounds Hat']].
    + rewrite forallb_app, Hr. cbn [forallb]. now rewrite Hp.
    + rewrite length_app. cbn [length]. lia.
    + exists tbl'. cbn [lookup_rounds]. rewrite H1, Hrounds.
      rewrite firstn_app, skipn_app in *.
      replace (k - length r)%nat with 0%nat in * by lia.
      cbn [firstn skipn] in *. rewrite app_nil_r in *.
      split; [reflexivity|].
      now rewrite <- app_assoc in Hat'.
Qed.

Lemma lookup_rounds_cycle scope exclude type instance idx loc p0 :
  forall m tbl l,
    binding_at tbl type instance idx (mk_name_info loc l) ->
    forallb (acceptable own_addr scope exclude) l = true ->
    l <> [] ->
    fst (lookup_rounds own_addr m tbl type instance scope exclude)
    = map (fun j => round_result (nth (j mod length l) l p0)) (seq 0 m).
Proof.
  induction m as [|m IH]; intros tbl l Hat Hacc Hne; [reflexivity|].
  destruct l as [|publ r]; [congruence|].
  cbn [forallb] in Hacc. apply andb_true_iff in Hacc.
  destruct Hacc as [Hp Hr].
  destruct (lookup_one tbl type instance idx loc publ r scope exclude
              Hat Hp) as [tbl1 [H1 Hat1]].
  cbn [lookup_rounds]. rewrite H1.
  specialize (IH tbl1 (r ++ [publ]) Hat1).
  destruct (lookup_rounds own_addr m tbl1 type instance scope exclude)
    as [rs tbl2].
  cbn [fst] in *. rewrite IH.
  - cbn [seq map]. f_equal.
    + now rewrite Nat.Div0.mod_0_l.
    + rewrite <- seq_shift, map_map. apply map_ext. intros j.
      rewrite length_app. cbn [length]. rewrite Nat.add_1_r.
      f_equal. apply nth_rotate.
  - rewrite forallb_app, Hr. cbn [forallb]. now rewrite Hp.
  - destruct r; discriminate.
Qed.

Lemma binding_at_single tbl type lower upper i instance :
  Z.of_nat (length (seq_hlist tbl)) = TIPC_NAMETBL_SIZE ->
  bucket_of tbl (hash (s32 type)) = [single_range type lower upper i] ->
  lower <= instance <= upper ->
  binding_at tbl type instance 0 i.
Proof.
  intros Hlen Hb Hin. exists (single_range type lower upper i).
  split; [exact Hlen|]. split; [now apply (find_seq_bucket tbl type _ [])|].
  split; [reflexivity|]. split; [now apply find_single|reflexivity].
Qed.

(** A further publish on the one range of a chain, with a port and key
    pair no publication of the range has: the new publication goes to the
    head of all_publ. *)
Lemma publish_on_single tbl type lower upper scope node port key i :
  Z.of_nat (length (seq_hlist tbl)) = TIPC_NAMETBL_SIZE ->
  bucket_of tbl (hash (s32 type)) = [single_range type lower upper i] ->
  lower <= upper -> scope <= TIPC_NODE_SCOPE ->
  (forall p, In p (all_publ i) -> (publ_port p, publ_key p) <> (port, key)) ->
  let publ := mk_publication type lower upper scope node port key in
  exists tbl',
    tipc_nametbl_insert_publ TIPC_NODE_SCOPE in_own_node tbl
      type lower upper scope node port key allocs_succeed
    = (Some publ, tbl', []) /\
    Z.of_nat (length (seq_hlist tbl')) = TIPC_NAMETBL_SIZE /\
    bucket_of tbl' (hash (s32 type))
    = [single_range type lower upper
         (mk_name_info (if in_own_node node then publ :: local_publ i
                        else local_publ i)
                       (publ :: all_publ i))].
Proof.
  intros Hlen Hb Hrange Hscope Hnew publ.
  unfold tipc_nametbl_insert_publ.
  rewrite (find_seq_bucket tbl type _ [] Hb eq_refl). cbv zeta.
  destruct (Z.ltb_spec TIPC_NODE_SCOPE scope); [lia|].
  destruct (Z.ltb_spec upper lower); [lia|]. cbn [orb].
  unfold tipc_nameseq_insert_publ. rewrite find_single by lia. cbv zeta.
  change (sseq_at (sseqs (single_range type lower upper i)) 0)
    with (mk_sub_seq lower upper i).
  cbn [sseq_lower sseq_upper sseq_info]. rewrite !Z.eqb_refl. cbn [negb orb].
  assert (Hdup : existsb (publ_matches node port key) (all_publ i) = false).
  { destruct (existsb (publ_matches node port key) (all_publ i)) eqn:E;
      [|reflexivity].
    apply existsb_exists in E. destruct E as [q [Hin Hq]].
    unfold publ_matches in Hq. rewrite !andb_true_iff, !Z.eqb_eq in Hq.
    exfalso. apply (Hnew q Hin). f_equal; tauto. }
  rewrite Hdup, link_publication_some.
  eexists. split; [reflexivity|]. split.
  - now apply length_update_seq.
  - now apply (bucket_of_update_seq tbl type _ _ [] Hlen Hb).
Qed.

Lemma publish_bindings_single type lower upper scope : forall bs tbl i,
  Z.of_nat (length (seq_hlist tbl)) = TIPC_NAMETBL_SIZE ->
  bucket_of tbl (hash (s32 type)) = [single_range type lower upper i] ->
  lower <= upper -> scope <= TIPC_NODE_SCOPE ->
  NoDup (map binding_key bs) ->
  (forall b p, In b bs -> In p (all_publ i) ->
               (publ_port p, publ_key p) <> binding_key b) ->
  exists loc,
    Z.of_nat (length (seq_hlist
                        (publish_bindings TIPC_NODE_SCOPE in_own_node tbl
                           type lower upper scope bs)))
    = TIPC_NAMETBL_SIZE /\
    bucket_of (publish_bindings TIPC_NODE_SCOPE in_own_node tbl
                 type lower upper scope bs) (hash (s32 type))
    = [single_range type lower upper
         (mk_name_info loc
            (rev (map (binding_publ type lower upper scope) bs)
             ++ all_publ i))].
Proof.
  induction bs as [|[[node port] key] r IH];
    intros tbl i Hlen Hb Hrange Hscope Hnd Hnew.
  - exists (local_publ i). split; [exact Hlen|]. cbn.
    now destruct i.
  - cbn [map binding_key] in Hnd. inversion Hnd as [|k ks Hk Hnd']. subst.
    destruct (publish_on_single tbl type lower upper scope node port key i
                Hlen Hb Hrange Hscope) as [tbl1 [H1 [Hlen1 Hb1]]].
    { intros p Hp. apply (Hnew (node, port, key) p); [now left|exact Hp]. }
    cbn [publish_bindings]. rewrite H1. cbn [fst snd].
    destruct (IH tbl1 _ Hlen1 Hb1 Hrange Hscope Hnd') as [loc [Hlen' Hb']].
    { cbn [all_publ]. intros b p Hin [<-|Hp].
      - cbn [publ_port publ_key]. intros E. apply Hk.
        rewrite E. now apply in_map.
      - apply (Hnew b p); [now right|exact Hp]. }
    exists loc. split; [exact Hlen'|]. rewrite Hb'.
    cbn [map rev binding_publ all_publ]. now rewrite <- app_assoc.
Qed.

Lemma publish_bindings_empty type lower upper scope bs instance :
  lower <= upper -> scope <= TIPC_NODE_SCOPE -> lower <= instance <= upper ->
  bs <> [] -> NoDup (map binding_key bs) ->
  exists loc,
    binding_at (publish_bindings TIPC_NODE_SCOPE in_own_node tipc_nametbl_init
                  type lower upper scope bs)
      type instance 0
      (mk_name_info loc (rev (map (binding_publ type lower upper scope) bs))).
Proof.
  intros Hrange Hscope Hin Hne Hnd.
  destruct bs as [|[[node port] key] r]; [congruence|].
  cbn [map binding_key] in Hnd. inversion Hnd as [|k ks Hk Hnd']. subst.
  destruct (publish_into_empty TIPC_NODE_SCOPE in_own_node type lower upper
              scope node port key Hrange Hscope) as [tbl1 [H1 [Hlen1 Hb1]]].
  cbn [publish_bindings]. rewrite H1. cbn [fst snd].
  destruct (publish_bindings_single type lower upper scope r tbl1 _
              Hlen1 Hb1 Hrange Hscope Hnd') as [loc [Hlen' Hb']].
  { unfold first_binding. cbn [all_publ]. intros b p Hb [<-|[]].
    cbn [publ_port publ_key]. intros E. apply Hk.
    rewrite E. now apply in_map. }
  exists loc. unfold first_binding in Hb'. cbn [all_publ] in Hb'.
  cbn [map rev binding_publ].
  now apply (binding_at_single _ type lower upper).
Qed.

(** The destination of a publication whose node and port are u32 values,
    written out. *)
Lemma round_result_u32 p :
  is_u32 (publ_node p) -> is_u32 (publ_port p) ->
  round_result p = ([publ_node p * 2^32 + publ_port p], 1).
Proof.
  unfold is_u32, round_result. intros Hn Hp.
  now rewrite dest_value_split by lia.
Qed.

Lemma map_round_result l :
  (forall p, In p l -> is_u32 (publ_node p) /\ is_u32 (publ_port p)) ->
  map round_result l
  = map (fun p => ([publ_node p * 2^32 + publ_port p], 1)) l.
Proof.
  intros H. apply map_ext_in. intros p Hp.
  apply round_result_u32; now apply H.
Qed.

(** C5.  Let the sub-sequence found for [instance] hold the publications
    [l] on its all_publ list, every one of the requested scope and none the
    excluded port of this node, with u32 nodes and ports.  Every lookup for
    a single destination on an empty list then returns a count of 1 and a
    list holding the one value node * 2^32 + port of a publication.  [k]
    lookups, for [k] up to the length of [l], return the first [k]
    publications of [l] in order, each moved to the tail in turn; after as
    many lookups as [l] is long every publication was returned once and
    the list is [l] again; and for any number of lookups the j-th one
    returns publication number j modulo the length of [l].  Such a state is
    reached by publishing bindings with distinct port and key pairs on one
    range of the empty table: as many lookups as there are bindings then
    return node * 2^32 + port of every binding once, last published first,
    and further lookups go round again. *)
Theorem round_robin_lookup :
  (forall tbl type instance idx i scope exclude,
     binding_at tbl type instance idx i ->
     forallb (acceptable own_addr scope exclude) (all_publ i) = true ->
     all_publ i <> [] ->
     (forall p, In p (all_publ i) ->
                is_u32 (publ_node p) /\ is_u32 (publ_port p)) ->
     (forall k, (k <= length (all_publ i))%nat ->
        exists tbl',
          lookup_rounds own_addr k tbl type instance scope exclude
          = (map (fun p => ([publ_node p * 2^32 + publ_port p], 1))
                 (firstn k (all_publ i)), tbl') /\
          binding_at tbl' type instance idx
            (mk_name_info (local_publ i)
                          (skipn k (all_publ i) ++ firstn k (all_publ i)))) /\
     (exists tbl',
        lookup_rounds own_addr (length (all_publ i)) tbl type instance
                      scope exclude
        = (map (fun p => ([publ_node p * 2^32 + publ_port p], 1))
               (all_publ i), tbl') /\
        binding_at tbl' type instance idx i) /\
     (forall m p0,
        fst (lookup_rounds own_addr m tbl type instance scope exclude)
        = map (fun j =>
                 let p := nth (j mod length (all_publ i)) (all_publ i) p0 in
                 ([publ_node p * 2^32 + publ_port p], 1))
              (seq 0 m))) /\
  (forall type lower upper scope bs instance exclude,
     lower <= upper -> scope <= TIPC_NODE_SCOPE ->
     lower <= instance <= upper ->
     bs <> [] -> NoDup (map binding_key bs) ->
     (forall node port key, In (node, port, key) bs ->
        ~ (port = exclude /\ node = own_addr)) ->
     (forall node port key, In (node, port, key) bs ->
        is_u32 node /\ is_u32 port) ->
     let tbl := publish_bindings TIPC_NODE_SCOPE in_own_node
                  tipc_nametbl_init type lower upper scope bs in
     (exists tbl',
        lookup_rounds own_addr (length bs) tbl type instance scope exclude
        = (map (fun b : Z * Z * Z =>
                  let '(node, port, key) := b in ([node * 2^32 + port], 1))
               (rev bs), tbl')) /\
     (forall m b0,
        fst (lookup_rounds own_addr m tbl type instance scope exclude)
        = map (fun j =>
                 let '(node, port, key) :=
                   nth (j mod length bs) (rev bs) b0 in
                 ([node * 2^32 + port], 1))
              (seq 0 m))).
Proof.
  split.
  - intros tbl type instance idx i scope exclude.
    destruct i as [loc l]. cbn [all_publ local_publ].
    intros Hat Hacc Hne Hu32. split; [|split].
    + intros k Hk.
      destruct (lookup_rounds_prefix scope exclude type instance idx loc
                  k tbl l Hat Hacc Hk) as [tbl' [H Hat']].
      exists tbl'. split; [|exact Hat'].
      rewrite H, map_round_result; [reflexivity|].
      intros p Hp. apply Hu32.
      rewrite <- (firstn_skipn k l). apply in_or_app. now left.
    + destruct (lookup_rounds_prefix scope exclude type instance idx loc
                  (length l) tbl l Hat Hacc (le_n _)) as [tbl' [H Hat']].
      rewrite firstn_all, skipn_all in *. exists tbl'.
      split; [|exact Hat']. now rewrite H, map_round_result.
    + intros m p0.
      rewrite (lookup_rounds_cycle scope exclude type instance idx loc p0
                 m tbl l Hat Hacc Hne).
      apply map_ext. intros j. apply round_result_u32; apply Hu32;
        apply nth_In; apply Nat.mod_upper_bound;
        destruct l; [congruence|discriminate|congruence|discriminate].
  - intros type lower upper scope bs instance exclude Hrange Hscope Hin Hne
           Hnd Hex Hu32 tbl.
    set (l := rev (map (binding_publ type lower upper scope) bs)).
    destruct (publish_bindings_empty type lower upper scope bs instance
                Hrange Hscope Hin Hne Hnd) as [loc Hat].
    fold tbl l in Hat.
    assert (Hlen : length l = length bs)
      by (unfold l; now rewrite length_rev, length_map).
    assert (Hacc : forallb (acceptable own_addr scope exclude) l = true).
    { apply forallb_forall. intros p Hp. unfold l in Hp.
      apply in_rev, in_map_iff in Hp.
      destruct Hp as [[[node port] key] [<- Hb]].
      unfold acceptable. cbn [binding_publ publ_scope publ_port publ_node].
      rewrite Z.eqb_refl. cbn [andb]. apply negb_true_iff.
      apply andb_false_iff.
      destruct (Z.eqb_spec port exclude); [|now left].
      destruct (Z.eqb_spec node own_addr); [|now right].
      exfalso. now apply (Hex node port key Hb). }
    assert (Hl : l <> []).
    { intros E. rewrite E in Hlen. destruct bs; [congruence|discriminate]. }
    assert (Hres : forall b,
              In b (rev bs) ->
              round_result (binding_publ type lower upper scope b)
              = (let '(node, port, key) := b in ([node * 2^32 + port], 1))).
    { intros [[node port] key] Hb. apply in_rev in Hb.
      destruct (Hu32 node port key Hb) as [Hn Hp].
      now apply round_result_u32. }
    assert (Hl' : l = map (binding_publ type lower upper scope) (rev bs))
      by (unfold l; now rewrite map_rev).
    split.
    + destruct (lookup_rounds_prefix scope exclude type instance 0 loc
                  (length l) tbl l Hat Hacc (le_n _)) as [tbl' [H _]].
      rewrite firstn_all, Hlen in H. exists tbl'. rewrite H, Hl', map_map.
      f_equal. apply map_ext_in. exact Hres.
    + intros m b0. rewrite <- (length_rev bs).
      rewrite (lookup_rounds_cycle scope exclude type instance 0 loc
                 (binding_publ type lower upper scope b0) m tbl l Hat Hacc
                 Hl).
      rewrite Hl', length_map. apply map_ext. intros j.
      rewrite map_nth. apply Hres. apply nth_In.
      apply Nat.mod_upper_bound. rewrite length_rev.
      destruct bs; [congruence|discriminate].
Qed.

Lemma dest_push_length dsts node port ok :
  (length dsts <= length (snd (tipc_dest_push dsts node port ok))
   <= S (length dsts))%nat.
Proof.
  unfold tipc_dest_push. destruct (tipc_dest_find dsts node port);
    [cbn; lia|]. destruct ok; cbn; lia.
Qed.

(** The loop with [all] set: the list is left as it is, and the count goes
    up by one for every acceptable publication, whatever tipc_dest_push
    did with it. *)
Lemma lookup_loop_all scope exclude : forall l ok dsts c,
  0 <= c -> c + Z.of_nat (length l) < 2^31 ->
  let '(d, c', l') :=
    lookup_loop own_addr l scope exclude true ok dsts c in
  l' = l /\
  c' = c + Z.of_nat (length (filter (acceptable own_addr scope exclude) l)) /\
  (length dsts <= length d)%nat /\
  Z.of_nat (length d) <= Z.of_nat (length dsts) + (c' - c).
Proof.
  induction l as [|publ r IH]; intros ok dsts c Hc Hbound.
  - cbn. repeat split; lia.
  - cbn [lookup_loop filter]. unfold acceptable at 1.
    cbn [length] in Hbound. rewrite Nat2Z.inj_succ in Hbound.
    destruct (publ_scope publ =? scope); cbn [negb andb].
    + destruct ((publ_port publ =? exclude) && (publ_node publ =? own_addr));
        cbn [negb].
      * specialize (IH (fun n => ok (S n)) dsts c Hc ltac:(lia)).
        destruct (lookup_loop own_addr r scope exclude true _ dsts c)
          as [[d c'] l'].
        destruct IH as [-> [-> [H1 H2]]]. repeat split; lia.
      * rewrite (s32_small (c + 1)) by lia.
        pose proof (dest_push_length dsts (publ_node publ) (publ_port publ)
                      (ok O)) as Hp.
        specialize (IH (fun n => ok (S n))
                       (snd (tipc_dest_push dsts (publ_node publ)
                                            (publ_port publ) (ok O)))
                       (c + 1) ltac:(lia) ltac:(lia)).
        destruct (lookup_loop own_addr r scope exclude true _ _ (c + 1))
          as [[d c'] l'].
        destruct IH as [-> [-> [H1 H2]]]. cbn [length].
        repeat split; lia.
    + specialize (IH (fun n => ok (S n)) dsts c Hc ltac:(lia)).
      destruct (lookup_loop own_addr r scope exclude true _ dsts c)
        as [[d c'] l'].
      destruct IH as [-> [-> [H1 H2]]]. repeat split; lia.
Qed.

End Lookup.

(** C10.  With [all] set, the count tipc_nametbl_lookup hands back is the
    number of publications on the all_publ list of the sub-sequence that
    have the requested scope and are not the excluded port of this node,
    whatever the destination list held and whether or not each push added
    an entry; the destination list grows by at most that many entries.  It
    can grow by fewer: for the range [5,5] bound twice by the same port of
    the same node the count is 2 and the list has one entry. *)
Theorem lookup_counts_every_match :
  (forall own_addr tbl type instance idx i scope dsts exclude ok,
     binding_at tbl type instance idx i ->
     Z.of_nat (length (all_publ i)) < 2^31 ->
     let '(found, d, c, tbl') :=
       tipc_nametbl_lookup own_addr tbl type instance scope dsts exclude
                           true ok in
     c = Z.of_nat (length (filter (acceptable own_addr scope exclude)
                                  (all_publ i))) /\
     tipc_dest_list_len d <= tipc_dest_list_len dsts + c) /\
  (let '(found, d, c, tbl') :=
     tipc_nametbl_lookup sample_own twice_bound 10 5 0 [] 0 true
                         (fun _ => true) in
   c = 2 /\ tipc_dest_list_len d = 1 /\ found = true).
Proof.
  split.
  - intros own_addr tbl type instance idx i scope dsts exclude ok Hat Hlen.
    destruct Hat as [nseq [_ [Hfind [_ [Hfs Hi]]]]].
    unfold tipc_nametbl_lookup. rewrite Hfind, Hfs. cbv zeta. rewrite Hi.
    pose proof (lookup_loop_all own_addr scope exclude (all_publ i) ok dsts 0
                  ltac:(lia) ltac:(lia)) as H.
    destruct (lookup_loop own_addr (all_publ i) scope exclude true ok dsts 0)
      as [[d c] l'].
    destruct H as [_ [-> [_ H]]]. unfold tipc_dest_list_len.
    split; lia.
  - vm_compute. repeat split.
Qed.

(** ** Subscription *)

Lemma subscribe_reports_rest sub s l :
  subscribe_reports sub s l false = map (published_report sub s false) l.
Proof.
  induction l as [|p r IH]; [reflexivity|].
  cbn [subscribe_reports map]. now rewrite IH.
Qed.

Lemma subscribe_reports_snapshot sub s :
  subscribe_reports sub s (all_publ (sseq_info s)) true
  = snapshot_reports sub s.
Proof.
  unfold snapshot_reports. destruct (all_publ (sseq_info s)) as [|p r];
    [reflexivity|].
  cbn [subscribe_reports]. now rewrite subscribe_reports_rest.
Qed.

(** One report per publication, all PUBLISHED, only the first flagged. *)
Lemma snapshot_reports_shape sub s :
  length (snapshot_reports sub s) = length (all_publ (sseq_info s)) /\
  Forall (fun r => rep_event r = TIPC_PUBLISHED) (snapshot_reports sub s) /\
  map rep_must (snapshot_reports sub s)
  = match all_publ (sseq_info s) with
    | [] => []
    | _ :: r => true :: repeat false (length r)
    end.
Proof.
  unfold snapshot_reports. destruct (all_publ (sseq_info s)) as [|p r].
  - repeat split. constructor.
  - cbn [length map rep_must published_report]. rewrite length_map.
    split; [reflexivity|]. split.
    + constructor; [reflexivity|]. apply Forall_forall.
      intros x Hx. apply in_map_iff in Hx. now destruct Hx as [q [<- _]].
    + f_equal. induction r as [|q r IH]; [reflexivity|].
      cbn [map length repeat published_report rep_must]. now rewrite IH.
Qed.

Lemma skipn_nth_cons (a : list sub_seq) (i : nat) :
  (i < length a)%nat -> skipn i a = nth i a zero_sseq :: skipn (S i) a.
Proof.
  revert i. induction a as [|x a IH]; intros i Hi; [cbn in Hi; lia|].
  destruct i as [|i]; [reflexivity|].
  cbn [length] in Hi. cbn [skipn nth]. rewrite IH by lia.
  reflexivity.
Qed.

Section Subscribe.

Variable TIPC_SUB_NO_STATUS : Z.
Variable tipc_sub_check_overlap : Z -> Z -> Z -> Z -> Z -> bool.

Lemma subscribe_loop_flat sub a : forall n i,
  (i + n <= length a)%nat ->
  subscribe_loop tipc_sub_check_overlap sub a n (Z.of_nat i)
  = flat_map (overlap_snapshot tipc_sub_check_overlap sub)
             (firstn n (skipn i a)).
Proof.
  induction n as [|n IH]; intros i Hi; [reflexivity|].
  cbn [subscribe_loop]. rewrite skipn_nth_cons by lia.
  cbn [firstn flat_map]. unfold sseq_at. rewrite Nat2Z.id.
  replace (Z.of_nat i + 1) with (Z.of_nat (S i)) by lia.
  rewrite IH by lia. unfold overlap_snapshot at 2.
  now rewrite subscribe_reports_snapshot.
Qed.

(** C7.  A subscription without the no-status bit is put at the head of
    the subscriptions of the sequence and gets, for every live
    sub-sequence that the overlap test accepts, in array order, one
    PUBLISHED report per publication on its all_publ list, the first with
    the flag set and the later ones without; sub-sequences the test rejects
    add nothing.  When the one live sub-sequence overlaps and holds two
    publications, exactly two reports are made, flagged true then false. *)
Theorem subscribe_snapshot nseq sub :
  Z.land (sub_filter sub) TIPC_SUB_NO_STATUS = 0 ->
  0 <= first_free nseq <= Z.of_nat (length (sseqs nseq)) ->
  let '(nseq', reports) :=
    tipc_nameseq_subscribe TIPC_SUB_NO_STATUS tipc_sub_check_overlap
                           nseq sub in
  subscriptions nseq' = sub :: subscriptions nseq /\
  live nseq' = live nseq /\
  reports
  = flat_map (overlap_snapshot tipc_sub_check_overlap sub) (live nseq) /\
  (forall s p1 p2,
     live nseq = [s] ->
     tipc_sub_check_overlap (sub_seq_type sub) (sub_seq_lower sub)
       (sub_seq_upper sub) (sseq_lower s) (sseq_upper s) = true ->
     all_publ (sseq_info s) = [p1; p2] ->
     reports = [published_report sub s true p1;
                published_report sub s false p2]).
Proof.
  intros Hst Hff. unfold tipc_nameseq_subscribe. rewrite Hst.
  cbn [Z.eqb negb].
  assert (E : subscribe_loop tipc_sub_check_overlap sub (sseqs nseq)
                (Z.to_nat (first_free nseq)) 0
              = flat_map (overlap_snapshot tipc_sub_check_overlap sub)
                         (live nseq)).
  { change 0 with (Z.of_nat 0). rewrite subscribe_loop_flat by lia.
    reflexivity. }
  rewrite E. split; [reflexivity|]. split; [reflexivity|].
  split; [reflexivity|].
  intros s p1 p2 Hlive Hov Hall. rewrite Hlive. cbn [flat_map].
  unfold overlap_snapshot, snapshot_reports. rewrite Hov, Hall.
  reflexivity.
Qed.

End Subscribe.

(** ** Worked examples *)

Lemma publish_translate_withdraw_witness :
  sample_in_scope 0 sample_own = true /\
  (3 <= 8 /\ 2 <= sample_max_scope /\ 3 <= 5 <= 8) /\
  exists tbl1 tbl2 tbl3 tbl4,
    tipc_nametbl_insert_publ sample_max_scope sample_in_own_node
      tipc_nametbl_init 10 3 8 2 sample_own 100 1 allocs_succeed
    = (Some (mk_publication 10 3 8 2 sample_own 100 1), tbl1, []) /\
    tipc_nametbl_translate sample_own sample_in_scope tbl1 10 5 0
    = Some (100, sample_own, tbl2) /\
    tipc_nametbl_remove_publ sample_in_own_node tbl2 10 3 sample_own 100 1
    = Some (Some (mk_publication 10 3 8 2 sample_own 100 1), tbl3, []) /\
    tipc_nametbl_translate sample_own sample_in_scope tbl3 10 5 0
    = Some (0, 0, tbl4).
Proof.
  split; [reflexivity|].
  assert (H : 3 <= 8 /\ 2 <= sample_max_scope /\ 3 <= 5 <= 8)
    by (unfold sample_max_scope; lia).
  split; [exact H|].
  destruct H as [H1 [H2 H3]].
  exact (proj1 (publish_translate_withdraw sample_own sample_max_scope
                  sample_in_own_node sample_in_scope eq_refl)
               10 3 8 2 100 1 5 H1 H2 H3).
Defined.

Lemma nameseq_mutations_keep_invariant_witness :
  nameseq_inv two_ranges = true /\
  (3 <= 4 /\ alloc two_ranges * 2 <= max_alloc /\
   publ_ok allocs_succeed = true) /\
  nameseq_inv (snd (fst (tipc_nameseq_insert_publ sample_in_own_node
                           two_ranges 10 3 4 0 9 103 1 allocs_succeed)))
  = true /\
  tipc_nameseq_remove_publ sample_in_own_node two_ranges 5 9 102 1
  = Some (Some (sample_publ 5 6 9 102 1), two_ranges_withdrawn, []) /\
  nameseq_inv two_ranges_withdrawn = true /\
  first_free two_ranges_withdrawn = first_free two_ranges - 1 /\
  live two_ranges_withdrawn = delete_at 1 (live two_ranges).
Proof.
  split; [reflexivity|].
  assert (H : 3 <= 4 /\ alloc two_ranges * 2 <= max_alloc /\
              publ_ok allocs_succeed = true)
    by (split; [lia|split; [vm_compute; discriminate|reflexivity]]).
  split; [exact H|].
  destruct H as [H1 [H2 H3]].
  destruct (nameseq_mutations_keep_invariant sample_in_own_node two_ranges
              eq_refl) as [Hins Hrem].
  split; [exact (Hins 10 3 4 0 9 103 1 allocs_succeed H1 H2 H3)|].
  split; [reflexivity|].
  destruct (Hrem 5 9 102 1 (Some (sample_publ 5 6 9 102 1))
              two_ranges_withdrawn [] eq_refl) as [Hinv Hlast].
  split; [exact Hinv|].
  apply (Hlast 1 (sample_publ 5 6 9 102 1)); [reflexivity|reflexivity|].
  discriminate.
Defined.

(** C2.  Not every insertion keeps a name sequence well formed.
    tipc_nameseq_insert_publ opens the slot of a new sub-sequence and
    counts it in first_free before it calls publ_create; when publ_create
    then fails the call returns NULL and the slot stays.  On the sequence
    with the ranges [1,2] and [5,6], inserting [3,4] with that allocation
    failing returns no publication and makes no report, and leaves three
    live sub-sequences, still sorted and disjoint, of which [3,4] has an
    empty all_publ list: the sequence was well formed before and is not
    afterwards. *)
Theorem failed_insert_breaks_invariant :
  nameseq_inv two_ranges = true /\
  (let '(publ, nseq', reports) :=
     tipc_nameseq_insert_publ sample_in_own_node two_ranges 10 3 4 0 9 103 1
       (mk_allocs true true true true false) in
   publ = None /\ reports = [] /\
   first_free nseq' = 3 /\
   live nseq'
   = [mk_sub_seq 1 2 (mk_name_info [] [sample_publ 1 2 9 101 1]);
      mk_sub_seq 3 4 (mk_name_info [] []);
      mk_sub_seq 5 6 (mk_name_info [] [sample_publ 5 6 9 102 1])] /\
   ranges_sorted (live nseq') = true /\
   has_binding (sseq_at (sseqs nseq') 1) = false /\
   nameseq_inv nseq' = false).
Proof.
  split; [reflexivity|]. vm_compute. repeat split.
Qed.

Lemma withdraw_last_deletes_subseq_witness :
  nameseq_inv own_range = true /\
  nameseq_find_subseq own_range 5 = Some 0 /\
  publ_matches sample_own 100 1 (sample_publ 5 5 sample_own 100 1) = true /\
  sample_in_own_node sample_own = true /\
  exists nseq',
    tipc_nameseq_remove_publ sample_in_own_node own_range 5 sample_own 100 1
    = Some (Some (sample_publ 5 5 sample_own 100 1), nseq',
            [mk_report sample_sub 5 5 TIPC_WITHDRAWN 100 sample_own 0
                       true]) /\
    first_free nseq' = first_free own_range - 1 /\
    live nseq' = delete_at 0 (live own_range) /\
    (forall x, 5 <= x <= 5 -> nameseq_find_subseq nseq' x = None).
Proof.
  split; [reflexivity|]. split; [reflexivity|]. split; [reflexivity|].
  split; [reflexivity|].
  exact (withdraw_last_deletes_subseq sample_in_own_node own_range
           5 sample_own 100 1 0 (sample_publ 5 5 sample_own 100 1)
           eq_refl eq_refl eq_refl eq_refl (fun _ => eq_refl)).
Defined.

Lemma publish_rejected_iff_witness :
  nametbl_inv once_bound = true /\
  (5 <= 7 /\ 0 <= sample_max_scope) /\
  fst (fst (tipc_nametbl_insert_publ sample_max_scope sample_in_own_node
              once_bound 10 5 7 0 8 300 1 allocs_succeed)) = None /\
  exists tbl' nseq' reports,
    tipc_nametbl_insert_publ sample_max_scope sample_in_own_node once_bound
      10 5 5 0 9 200 2 allocs_succeed
    = (Some (mk_publication 10 5 5 0 9 200 2), tbl', reports) /\
    nametbl_find_seq tbl' 10 = Some nseq' /\
    all_publ (sseq_info (sseq_at (sseqs nseq') 0))
    = [mk_publication 10 5 5 0 9 200 2; mk_publication 10 5 5 0 9 200 1].
Proof.
  split; [reflexivity|].
  assert (H : 5 <= 7 /\ 0 <= sample_max_scope)
    by (unfold sample_max_scope; lia).
  split; [exact H|]. destruct H as [H1 H2]. split.
  - apply (proj1 (publish_rejected_iff sample_max_scope sample_in_own_node
                    once_bound 10 5 7 0 8 300 1 eq_refl H1 H2)).
    exists (single_range 10 5 5
              (mk_name_info [] [mk_publication 10 5 5 0 9 200 1])).
    split; reflexivity.
  - apply (proj2 (publish_rejected_iff sample_max_scope sample_in_own_node
                    once_bound 10 5 5 0 9 200 2 eq_refl (Z.le_refl 5) H2)
                 (single_range 10 5 5
                    (mk_name_info [] [mk_publication 10 5 5 0 9 200 1]))
                 0);
      [reflexivity|cbn; lia|reflexivity|reflexivity].
Defined.

Lemma binding_at_thrice_bound :
  binding_at thrice_bound 10 5 0
    (mk_name_info [] [mk_publication 10 5 5 0 8 203 1;
                      mk_publication 10 5 5 0 9 202 1;
                      mk_publication 10 5 5 0 9 201 1]).
Proof.
  eexists. split; [reflexivity|]. split; [reflexivity|].
  split; [reflexivity|]. split; reflexivity.
Defined.

Lemma round_robin_lookup_witness :
  forallb (acceptable sample_own 0 0)
    [mk_publication 10 5 5 0 8 203 1; mk_publication 10 5 5 0 9 202 1;
     mk_publication 10 5 5 0 9 201 1] = true /\
  (exists tbl',
     lookup_rounds sample_own 3 thrice_bound 10 5 0 0
     = ([([34359738571], 1); ([38654705866], 1); ([38654705865], 1)],
        tbl') /\
     binding_at tbl' 10 5 0
       (mk_name_info [] [mk_publication 10 5 5 0 8 203 1;
                         mk_publication 10 5 5 0 9 202 1;
                         mk_publication 10 5 5 0 9 201 1])) /\
  (exists tbl',
     lookup_rounds sample_own 1 thrice_bound 10 5 0 0
     = ([([34359738571], 1)], tbl') /\
     binding_at tbl' 10 5 0
       (mk_name_info [] [mk_publication 10 5 5 0 9 202 1;
                         mk_publication 10 5 5 0 9 201 1;
                         mk_publication 10 5 5 0 8 203 1])) /\
  fst (lookup_rounds sample_own 5 thrice_bound 10 5 0 0)
  = [([34359738571], 1); ([38654705866], 1); ([38654705865], 1);
     ([34359738571], 1); ([38654705866], 1)] /\
  (5 <= 5 /\ 0 <= sample_max_scope /\ 5 <= 5 <= 5 /\
   NoDup (map binding_key [(9, 201, 1); (9, 202, 1); (8, 203, 1)])) /\
  (exists tbl',
     lookup_rounds sample_own 3
       (publish_bindings sample_max_scope sample_in_own_node
          tipc_nametbl_init 10 5 5 0 [(9, 201, 1); (9, 202, 1); (8, 203, 1)])
       10 5 0 0
     = ([([34359738571], 1); ([38654705866], 1); ([38654705865], 1)],
        tbl')).
Proof.
  split; [reflexivity|].
  destruct (round_robin_lookup sample_own sample_max_scope
              sample_in_own_node) as [Hstate Hpublished].
  assert (Hu32 : forall p,
            In p [mk_publication 10 5 5 0 8 203 1;
                  mk_publication 10 5 5 0 9 202 1;
                  mk_publication 10 5 5 0 9 201 1] ->
            is_u32 (publ_node p) /\ is_u32 (publ_port p)).
  { intros p [<-|[<-|[<-|[]]]]; unfold is_u32; cbn; lia. }
  destruct (Hstate thrice_bound 10 5 0 _ 0 0
              binding_at_thrice_bound eq_refl ltac:(discriminate) Hu32)
    as [Hprefix [Hcycle Hmod]].
  split; [exact Hcycle|].
  split; [exact (Hprefix 1%nat ltac:(cbn; lia))|].
  split; [exact (Hmod 5%nat (mk_publication 0 0 0 0 0 0 0))|].
  assert (H : 5 <= 5 /\ 0 <= sample_max_scope /\ 5 <= 5 <= 5 /\
              NoDup (map binding_key [(9, 201, 1); (9, 202, 1); (8, 203, 1)])).
  { split; [lia|]. split; [unfold sample_max_scope; lia|]. split; [lia|].
    cbn. repeat constructor; cbn; intuition discriminate. }
  split; [exact H|]. destruct H as [H1 [H2 [H3 H4]]].
  refine (proj1 (Hpublished 10 5 5 0 [(9, 201, 1); (9, 202, 1); (8, 203, 1)]
                   5 0 H1 H2 H3 ltac:(discriminate) H4 _ _)).
  - intros node port key Hin [Hp _].
    cbn in Hin. destruct Hin as [E|[E|[E|[]]]]; inversion E; subst;
      discriminate.
  - intros node port key Hin.
    cbn in Hin. destruct Hin as [E|[E|[E|[]]]]; inversion E; subst;
      unfold is_u32; lia.
Defined.

Lemma binding_at_mixed_bound :
  binding_at mixed_bound 10 5 0
    (mk_name_info [mk_publication 10 5 5 0 sample_own 100 1]
                  [mk_publication 10 5 5 0 9 200 2;
                   mk_publication 10 5 5 0 sample_own 100 1]).
Proof.
  eexists. split; [reflexivity|]. split; [reflexivity|].
  split; [reflexivity|]. split; reflexivity.
Defined.

Lemma binding_at_once_bound :
  binding_at once_bound 10 5 0
    (mk_name_info [] [mk_publication 10 5 5 0 9 200 1]).
Proof.
  eexists. split; [reflexivity|]. split; [reflexivity|].
  split; [reflexivity|]. split; reflexivity.
Defined.

Lemma translate_selection_witness :
  (sample_in_scope 0 sample_own = true /\ sample_own <> 0 /\
   sample_in_scope sample_own sample_own = true) /\
  (exists tbl',
     tipc_nametbl_translate sample_own sample_in_scope mixed_bound 10 5 0
     = Some (100, sample_own, tbl') /\
     binding_at tbl' 10 5 0
       (mk_name_info [mk_publication 10 5 5 0 sample_own 100 1]
                     [mk_publication 10 5 5 0 9 200 2;
                      mk_publication 10 5 5 0 sample_own 100 1])) /\
  (exists tbl',
     tipc_nametbl_translate sample_own sample_in_scope once_bound 10 5 0
     = Some (200, 9, tbl') /\
     binding_at tbl' 10 5 0
       (mk_name_info [] [mk_publication 10 5 5 0 9 200 1])) /\
  (exists tbl',
     tipc_nametbl_translate sample_own sample_in_scope mixed_bound 10 5
       sample_own
     = Some (100, sample_own, tbl') /\
     binding_at tbl' 10 5 0
       (mk_name_info [mk_publication 10 5 5 0 sample_own 100 1]
                     [mk_publication 10 5 5 0 9 200 2;
                      mk_publication 10 5 5 0 sample_own 100 1])) /\
  tipc_nametbl_translate sample_own sample_in_scope once_bound 10 5 sample_own
  = Some (0, 0, once_bound).
Proof.
  assert (H : sample_in_scope 0 sample_own = true /\ sample_own <> 0 /\
              sample_in_scope sample_own sample_own = true)
    by (split; [reflexivity|split; [discriminate|reflexivity]]).
  split; [exact H|]. destruct H as [H0 [Hne Hown]].
  destruct (translate_selection sample_own sample_in_scope mixed_bound
              10 5 0 _ binding_at_mixed_bound) as [Hzero Hself].
  destruct (translate_selection sample_own sample_in_scope once_bound
              10 5 0 _ binding_at_once_bound) as [Hzero' Hself'].
  split; [exact (proj1 (Hzero H0) _ _ eq_refl)|].
  split; [exact (proj2 (Hzero' H0) _ _ eq_refl eq_refl)|].
  split; [exact (proj1 (Hself Hne Hown) _ _ eq_refl)|].
  exact (proj2 (Hself' Hne Hown) eq_refl).
Defined.

Lemma subscribe_snapshot_witness :
  Z.land (sub_filter sample_sub) sample_no_status = 0 /\
  0 <= first_free pair_bound <= Z.of_nat (length (sseqs pair_bound)) /\
  snd (tipc_nameseq_subscribe sample_no_status sample_check_overlap
                              pair_bound sample_sub)
  = [mk_report sample_sub 5 5 TIPC_PUBLISHED 201 9 0 true;
     mk_report sample_sub 5 5 TIPC_PUBLISHED 202 9 0 false].
Proof.
  split; [reflexivity|].
  assert (H : 0 <= first_free pair_bound
              <= Z.of_nat (length (sseqs pair_bound))) by (cbn; lia).
  split; [exact H|].
  pose proof (subscribe_snapshot sample_no_status sample_check_overlap
                pair_bound sample_sub eq_refl H) as Hs.
  destruct (tipc_nameseq_subscribe sample_no_status sample_check_overlap
                                   pair_bound sample_sub) as [nseq' reports].
  destruct Hs as [_ [_ [_ Htwo]]]. cbn [snd].
  exact (Htwo (mk_sub_seq 5 5 (mk_name_info [] [sample_publ 5 5 9 201 1;
                                                sample_publ 5 5 9 202 1]))
              (sample_publ 5 5 9 201 1) (sample_publ 5 5 9 202 1)
              eq_refl eq_refl eq_refl).
Defined.

Lemma binding_at_twice_bound :
  binding_at twice_bound 10 5 0
    (mk_name_info [] [mk_publication 10 5 5 0 9 200 2;
                      mk_publication 10 5 5 0 9 200 1]).
Proof.
  eexists. split; [reflexivity|]. split; [reflexivity|].
  split; [reflexivity|]. split; reflexivity.
Defined.

Lemma lookup_counts_every_match_witness :
  Z.of_nat (length [mk_publication 10 5 5 0 9 200 2;
                    mk_publication 10 5 5 0 9 200 1]) < 2^31 /\
  (let '(found, d, c, tbl') :=
     tipc_nametbl_lookup sample_own twice_bound 10 5 0 [77] 0 true
                         (fun _ => false) in
   c = Z.of_nat (length (filter (acceptable sample_own 0 0)
                           [mk_publication 10 5 5 0 9 200 2;
                            mk_publication 10 5 5 0 9 200 1])) /\
   tipc_dest_list_len d <= tipc_dest_list_len [77] + c).
Proof.
  assert (H : Z.of_nat (length [mk_publication 10 5 5 0 9 200 2;
                                mk_publication 10 5 5 0 9 200 1]) < 2^31)
    by (cbn; lia).
  split; [exact H|].
  exact (proj1 lookup_counts_every_match sample_own twice_bound 10 5 0 _ 0
               [77] 0 (fun _ => false) binding_at_twice_bound H).
Defined.

(** ** More on the sub-sequence searches *)

(** X1.  On a well-formed sequence nameseq_find_subseq returns the index of
    a live sub-sequence exactly when that sub-sequence holds the instance
    (so the one that does, the ranges being disjoint), and NULL exactly
    when no live sub-sequence holds it; the loop stops by itself, any fuel
    from [search_fuel] on giving the same answer. *)
Theorem find_subseq_correct nseq instance :
  nameseq_inv nseq = true ->
  (forall idx,
     nameseq_find_subseq nseq instance = Some idx <->
     0 <= idx < first_free nseq /\
     contains (sseq_at (sseqs nseq) idx) instance = true) /\
  (nameseq_find_subseq nseq instance = None <->
   forallb (fun s => negb (contains s instance)) (live nseq) = true) /\
  (forall fuel, (search_fuel nseq <= fuel)%nat ->
     find_loop fuel (sseqs nseq) instance 0
               (s32 (wrap32 (first_free nseq - 1)))
     = nameseq_find_subseq nseq instance).
Proof.
  intros Hinv.
  pose proof Hinv as Hb. apply nameseq_inv_spec in Hb.
  destruct Hb as [[Hlen [Hff Hal]] _].
  assert (Hbounds : array_bounds nseq = true)
    by (apply array_bounds_spec; auto).
  split; [|split].
  - intros idx. split.
    + now apply find_subseq_range.
    + intros [Hidx Hc].
      now destruct (find_subseq_complete nseq instance idx Hinv Hidx Hc).
  - rewrite (find_subseq_none nseq instance Hinv). unfold live.
    rewrite forallb_firstn_index by lia.
    split; intros H i Hi; specialize (H i Hi).
    + now rewrite H.
    + now apply negb_true_iff.
  - intros fuel Hfuel.
    now destruct (find_subseq_fuel nseq instance fuel Hbounds Hfuel).
Qed.

Lemma find_subseq_correct_witness :
  nameseq_inv two_ranges = true /\
  nameseq_find_subseq two_ranges 6 = Some 1 /\
  nameseq_find_subseq two_ranges 4 = None /\
  find_loop 40 (sseqs two_ranges) 6 0
            (s32 (wrap32 (first_free two_ranges - 1))) = Some 1.
Proof.
  split; [reflexivity|].
  destruct (find_subseq_correct two_ranges 6 eq_refl) as [Hsome [_ Hfuel]].
  destruct (find_subseq_correct two_ranges 4 eq_refl) as [_ [Hnone _]].
  split; [apply Hsome; split; [cbn; lia|reflexivity]|].
  split; [apply Hnone; reflexivity|].
  rewrite (Hfuel 40%nat ltac:(unfold search_fuel; cbn; lia)). reflexivity.
Defined.

(** ** Destination lists *)

Lemma dest_value_inj node port node' port' :
  is_u32 node -> is_u32 port -> is_u32 node' -> is_u32 port' ->
  dest_value node port = dest_value node' port' ->
  node = node' /\ port = port'.
Proof.
  unfold is_u32. intros Hn Hp Hn' Hp'.
  rewrite !dest_value_split by lia. lia.
Qed.

Lemma dest_find_spec l node port :
  match tipc_dest_find l node port with
  | Some v => v = dest_value node port /\ In v l
  | None => ~ In (dest_value node port) l
  end.
Proof.
  unfold tipc_dest_find.
  destruct (find _ l) as [v|] eqn:E.
  - apply find_some in E. destruct E as [Hin Hv].
    apply Z.eqb_eq in Hv. auto.
  - intros Hin. pose proof (find_none _ _ E _ Hin) as H.
    cbv beta in H. now rewrite Z.eqb_refl in H.
Qed.

(** X2.  A destination is the pair (node, port) packed into one 64-bit
    value, and two pairs of u32 pack to the same value only when they are
    the same pair; so on a list built from pairs tipc_dest_find finds an
    entry exactly for the pairs that are on the list, and the entry it
    returns holds the value asked for. *)
Theorem dest_find_pairs pairs node port :
  Forall (fun d => is_u32 (fst d) /\ is_u32 (snd d)) pairs ->
  is_u32 node -> is_u32 port ->
  (tipc_dest_find (map pair_value pairs) node port
   = Some (dest_value node port) <-> In (node, port) pairs) /\
  (tipc_dest_find (map pair_value pairs) node port = None <->
   ~ In (node, port) pairs).
Proof.
  intros Hall Hn Hp.
  assert (Hin : In (dest_value node port) (map pair_value pairs) <->
                In (node, port) pairs).
  { rewrite in_map_iff. split.
    - intros [[n q] [E Hd]]. rewrite Forall_forall in Hall.
      destruct (Hall _ Hd) as [Hn' Hq]. unfold pair_value in E.
      cbn [fst snd] in *.
      destruct (dest_value_inj n q node port Hn' Hq Hn Hp E) as [-> ->].
      exact Hd.
    - intros Hd. exists (node, port). auto. }
  pose proof (dest_find_spec (map pair_value pairs) node port) as H.
  destruct (tipc_dest_find (map pair_value pairs) node port) as [v|].
  - destruct H as [-> Hv]. rewrite <- Hin.
    split; split; auto; try discriminate. intros Hno. now elim Hno.
  - rewrite <- Hin. split; split; auto; try discriminate.
    intros Hd. now elim H.
Qed.

Lemma dest_find_pairs_witness :
  Forall (fun d => is_u32 (fst d) /\ is_u32 (snd d)) [(9, 200); (0, 7)] /\
  is_u32 9 /\ is_u32 200 /\ is_u32 7 /\
  tipc_dest_find (map pair_value [(9, 200); (0, 7)]) 9 200
  = Some (dest_value 9 200) /\
  tipc_dest_find (map pair_value [(9, 200); (0, 7)]) 9 7 = None.
Proof.
  assert (U : forall x, 0 <= x < 1000 -> is_u32 x)
    by (intros x Hx; unfold is_u32; lia).
  assert (H : Forall (fun d => is_u32 (fst d) /\ is_u32 (snd d))
                     [(9, 200); (0, 7)])
    by (repeat constructor; cbn; apply U; lia).
  split; [exact H|].
  split; [apply U; lia|]. split; [apply U; lia|]. split; [apply U; lia|].
  split.
  - apply (proj1 (dest_find_pairs _ 9 200 H (U 9 ltac:(lia))
                    (U 200 ltac:(lia)))).
    now left.
  - apply (proj2 (dest_find_pairs _ 9 7 H (U 9 ltac:(lia))
                    (U 7 ltac:(lia)))).
    intros [E|[E|[]]]; discriminate.
Defined.

Lemma dest_unlink_spec value l :
  NoDup l ->
  NoDup (dest_unlink value l) /\ ~ In value (dest_unlink value l) /\
  (forall v, v <> value -> (In v (dest_unlink value l) <-> In v l)).
Proof.
  induction l as [|x r IH]; intros Hnd; cbn [dest_unlink].
  - split; [constructor|]. split; [intros []|tauto].
  - inversion Hnd as [|y ys Hx Hr]. subst.
    destruct (Z.eqb_spec x value) as [->|Hne].
    + split; [exact Hr|]. split; [exact Hx|].
      intros v Hv. cbn. split; [auto|]. intros [E|H]; [congruence|exact H].
    + destruct (IH Hr) as [Hnd' [Hno Hsame]].
      split; [|split].
      * constructor; [|exact Hnd'].
        intros Hin. apply Hx. now apply (Hsame x Hne).
      * cbn. intros [E|H]; [congruence|now apply Hno].
      * intros v Hv. cbn. now rewrite (Hsame v Hv).
Qed.

(** X3.  tipc_dest_push adds the destination at the head when it is not on
    the list and its allocation succeeds, and otherwise reports false and
    leaves the list alone; so a list without duplicates stays without
    duplicates, nothing is ever dropped from it, and after a push that
    reported true the destination is found. *)
Theorem dest_push_keeps_set l node port kmalloc_ok :
  NoDup l ->
  let '(added, l') := tipc_dest_push l node port kmalloc_ok in
  NoDup l' /\
  (added = true <-> ~ In (dest_value node port) l /\ kmalloc_ok = true) /\
  (added = false -> l' = l) /\
  (added = true ->
   l' = dest_value node port :: l /\
   tipc_dest_find l' node port = Some (dest_value node port)) /\
  (forall v, In v l -> In v l').
Proof.
  intros Hnd. unfold tipc_dest_push.
  pose proof (dest_find_spec l node port) as H.
  destruct (tipc_dest_find l node port) as [v|].
  - destruct H as [-> Hin].
    split; [exact Hnd|]. split; [|split; [|split]]; auto; try discriminate.
    split; [discriminate|]. intros [Hno _]. now elim Hno.
  - destruct kmalloc_ok.
    + split; [now constructor|]. split; [|split; [|split]].
      * split; auto.
      * discriminate.
      * intros _. split; [reflexivity|].
        unfold tipc_dest_find. cbn [find]. now rewrite Z.eqb_refl.
      * intros v Hv. now right.
    + split; [exact Hnd|]. split; [|split; [|split]]; auto; try discriminate.
      split; [discriminate|]. intros [_ E]. discriminate.
Qed.

Lemma dest_push_keeps_set_witness :
  NoDup [dest_value 9 200] /\
  tipc_dest_push [dest_value 9 200] 9 201 true
  = (true, [dest_value 9 201; dest_value 9 200]) /\
  tipc_dest_push [dest_value 9 200] 9 200 true
  = (false, [dest_value 9 200]) /\
  NoDup (snd (tipc_dest_push [dest_value 9 200] 9 201 true)).
Proof.
  assert (H : NoDup [dest_value 9 200])
    by (repeat constructor; intros []).
  split; [exact H|]. split; [reflexivity|]. split; [reflexivity|].
  pose proof (dest_push_keeps_set [dest_value 9 200] 9 201 true H) as P.
  destruct (tipc_dest_push [dest_value 9 200] 9 201 true) as [added l'].
  exact (proj1 P).
Defined.

(** X4.  tipc_dest_del undoes a push: deleting the destination that was
    just pushed gives the list back as it was.  In general it reports
    whether the destination was on the list, and on a list without
    duplicates the destination is gone afterwards while every other entry
    stays. *)
Theorem dest_del_undoes_push l node port :
  NoDup l ->
  (~ In (dest_value node port) l ->
   tipc_dest_del (snd (tipc_dest_push l node port true)) node port
   = (true, l)) /\
  (let '(found, l') := tipc_dest_del l node port in
   (found = true <-> In (dest_value node port) l) /\
   NoDup l' /\ ~ In (dest_value node port) l' /\
   (forall v, v <> dest_value node port -> (In v l' <-> In v l)) /\
   (found = false -> l' = l)).
Proof.
  intros Hnd. split.
  - intros Hno. unfold tipc_dest_push.
    pose proof (dest_find_spec l node port) as H.
    destruct (tipc_dest_find l node port) as [v|];
      [destruct H as [-> Hin]; now elim Hno|].
    cbn [snd]. unfold tipc_dest_del, tipc_dest_find. cbn [find dest_unlink].
    now rewrite Z.eqb_refl.
  - unfold tipc_dest_del.
    pose proof (dest_find_spec l node port) as H.
    destruct (tipc_dest_find l node port) as [v|].
    + destruct H as [-> Hin].
      destruct (dest_unlink_spec (dest_value node port) l Hnd)
        as [Hnd' [Hgone Hsame]].
      split; [tauto|]. split; [exact Hnd'|]. split; [exact Hgone|].
      split; [exact Hsame|]. discriminate.
    + split; [split; [discriminate|intros Hin; now elim H]|].
      split; [exact Hnd|]. split; [exact H|].
      split; [tauto|]. reflexivity.
Qed.

Lemma dest_del_undoes_push_witness :
  NoDup [dest_value 9 200] /\ ~ In (dest_value 9 201) [dest_value 9 200] /\
  tipc_dest_del (snd (tipc_dest_push [dest_value 9 200] 9 201 true)) 9 201
  = (true, [dest_value 9 200]).
Proof.
  assert (H : NoDup [dest_value 9 200])
    by (repeat constructor; intros []).
  assert (Hno : ~ In (dest_value 9 201) [dest_value 9 200])
    by (intros [E|[]]; discriminate).
  split; [exact H|]. split; [exact Hno|].
  exact (proj1 (dest_del_undoes_push [dest_value 9 200] 9 201 H) Hno).
Defined.

(** ** Range walks *)

Lemma filter_slice_false (f : sub_seq -> bool) a : forall c k,
  (k + c <= length a)%nat ->
  (forall j, Z.of_nat k <= j < Z.of_nat k + Z.of_nat c ->
     f (sseq_at a j) = false) ->
  filter f (firstn c (skipn k a)) = [].
Proof.
  induction c as [|c IH]; intros k Hk Hf; [reflexivity|].
  rewrite skipn_nth_cons by lia. cbn [firstn filter].
  pose proof (Hf (Z.of_nat k) ltac:(lia)) as H0.
  unfold sseq_at in H0. rewrite Nat2Z.id in H0. rewrite H0.
  apply IH; [lia|]. intros j Hj. apply Hf. lia.
Qed.

Lemma firstn_split (a : list sub_seq) (k n : nat) :
  (k <= n)%nat ->
  firstn n a = firstn k a ++ firstn (n - k) (skipn k a).
Proof.
  intros Hk. rewrite <- (firstn_skipn k (firstn n a)).
  rewrite firstn_firstn, skipn_firstn_comm.
  now replace (Init.Nat.min k n) with k by lia.
Qed.

(** A walk that starts where everything before lies below [lower] and
    everything from there on ends at or above it visits exactly the live
    sub-sequences that meet [lower, upper]. *)
Lemma scan_visit_slice a n lower upper : forall c k,
  sorted_upto a n -> n <= Z.of_nat (length a) ->
  Z.of_nat k + Z.of_nat c = n ->
  (forall i, Z.of_nat k <= i < n -> lower <= sseq_upper (sseq_at a i)) ->
  scan_visit a c (Z.of_nat k) upper
  = filter (fun s => overlaps s lower upper) (firstn c (skipn k a)).
Proof.
  induction c as [|c IH]; intros k [Hwf Hord] Hlen Hn Hup; [reflexivity|].
  cbn [scan_visit]. rewrite skipn_nth_cons by lia. cbn [firstn filter].
  assert (E : sseq_at a (Z.of_nat k) = nth k a zero_sseq)
    by (unfold sseq_at; now rewrite Nat2Z.id).
  rewrite <- E.
  specialize (Hup (Z.of_nat k) ltac:(lia)) as Hk.
  unfold overlaps at 1.
  destruct (Z.ltb_spec upper (sseq_lower (sseq_at a (Z.of_nat k))))
    as [Hlt|Hge].
  - destruct (Z.leb_spec (sseq_lower (sseq_at a (Z.of_nat k))) upper);
      [lia|]. cbn [andb]. symmetry.
    apply filter_slice_false; [lia|].
    intros j Hj. unfold overlaps. apply andb_false_iff. left.
    apply Z.leb_gt.
    specialize (Hord (Z.of_nat k) j ltac:(lia) ltac:(lia)).
    specialize (Hwf (Z.of_nat k) ltac:(lia)). lia.
  - destruct (Z.leb_spec (sseq_lower (sseq_at a (Z.of_nat k))) upper);
      [|lia].
    destruct (Z.leb_spec lower (sseq_upper (sseq_at a (Z.of_nat k))));
      [|lia]. cbn [andb]. f_equal.
    replace (Z.of_nat k + 1) with (Z.of_nat (S k)) by lia.
    apply IH; [split; assumption|lia|lia|].
    intros i Hi. apply Hup. lia.
Qed.

Lemma scan_visit_overlapping nseq lower upper :
  nameseq_inv nseq = true ->
  let start := nameseq_locate_subseq nseq lower in
  0 <= start <= first_free nseq /\
  scan_visit (sseqs nseq) (Z.to_nat (first_free nseq - start)) start upper
  = overlapping nseq lower upper.
Proof.
  intros Hinv. cbv zeta.
  pose proof (find_subseq_spec nseq lower Hinv) as Hfind.
  apply nameseq_inv_spec in Hinv.
  destruct Hinv as [[Hlen [Hff Hal]] [[Hwf Hord] _]].
  remember (nameseq_locate_subseq nseq lower) as start eqn:Es.
  assert (H : 0 <= start <= first_free nseq /\
              (forall i, 0 <= i < start ->
                 sseq_upper (sseq_at (sseqs nseq) i) < lower) /\
              (forall i, start <= i < first_free nseq ->
                 lower <= sseq_upper (sseq_at (sseqs nseq) i))).
  { destruct (nameseq_find_subseq nseq lower) as [m|].
    - destruct Hfind as [Hm [Hr Hc]]. rewrite <- Hm in Hr, Hc.
      unfold contains in Hc. apply andb_true_iff in Hc.
      rewrite !Z.leb_le in Hc.
      split; [lia|]. split.
      + intros i Hi. specialize (Hord i start ltac:(lia) ltac:(lia)). lia.
      + intros i Hi. destruct (Z.eq_dec i start) as [->|Hne]; [lia|].
        specialize (Hord start i ltac:(lia) ltac:(lia)).
        specialize (Hwf i ltac:(lia)). lia.
    - cbv zeta in Hfind. destruct Hfind as [Hr [Hleft Hright]].
      split; [lia|]. split; [exact Hleft|].
      intros i Hi. specialize (Hright i Hi).
      specialize (Hwf i ltac:(lia)). lia. }
  destruct H as [Hs [Hleft Hright]]. split; [exact Hs|].
  unfold overlapping, live.
  rewrite (firstn_split (sseqs nseq) (Z.to_nat start)) by lia.
  rewrite filter_app.
  replace (filter _ (firstn (Z.to_nat start) (sseqs nseq))) with (@nil sub_seq).
  - cbn [app].
    replace (Z.to_nat (first_free nseq) - Z.to_nat start)%nat
      with (Z.to_nat (first_free nseq - start)) by lia.
    rewrite <- (Z2Nat.id start) at 2 by lia.
    apply (scan_visit_slice (sseqs nseq) (first_free nseq) lower upper);
      [split; assumption|lia|lia|].
    intros i Hi. apply Hright. lia.
  - symmetry. rewrite <- (firstn_skipn 0 (sseqs nseq)) at 1.
    change (firstn 0 (sseqs nseq) ++ skipn 0 (sseqs nseq))
      with (skipn 0 (sseqs nseq)).
    apply filter_slice_false; [lia|].
    intros j Hj. unfold overlaps. apply andb_false_iff. right.
    apply Z.leb_gt. apply Hleft. lia.
Qed.

Lemma push_ports_app p1 p2 ok calls dports :
  push_ports (p1 ++ p2) ok calls dports
  = push_ports p2 ok (calls + length p1) (push_ports p1 ok calls dports).
Proof.
  revert calls dports. induction p1 as [|q r IH]; intros calls dports.
  - cbn. now rewrite Nat.add_0_r.
  - cbn [app push_ports length]. rewrite IH. f_equal. lia.
Qed.

Lemma mc_push_ports_spec scope exact ok : forall l calls dports,
  mc_push_ports l scope exact ok calls dports
  = (push_ports (map publ_port (filter (mc_accepts scope exact) l))
                ok calls dports,
     (calls + length (filter (mc_accepts scope exact) l))%nat).
Proof.
  induction l as [|p r IH]; intros calls dports.
  - cbn. now rewrite Nat.add_0_r.
  - cbn [mc_push_ports filter]. destruct (mc_accepts scope exact p).
    + rewrite IH. cbn [map push_ports length]. f_equal. lia.
    + apply IH.
Qed.

Lemma mc_scan_spec upper scope exact ok a : forall n i calls dports,
  mc_scan a n i upper scope exact ok calls dports
  = push_ports (flat_map (mc_ports scope exact) (scan_visit a n i upper))
               ok calls dports.
Proof.
  induction n as [|n IH]; intros i calls dports; [reflexivity|].
  cbn [mc_scan scan_visit].
  destruct (upper <? sseq_lower (sseq_at a i)); [reflexivity|].
  rewrite mc_push_ports_spec, IH. cbn [flat_map].
  rewrite push_ports_app. unfold mc_ports at 3.
  now rewrite length_map.
Qed.

Lemma push_ports_in ports : forall calls dports v,
  In v (push_ports ports (fun _ => true) calls dports) <->
  In v dports \/ In v (map (dest_value 0) ports).
Proof.
  induction ports as [|q r IH]; intros calls dports v.
  - cbn. tauto.
  - cbn [push_ports map]. rewrite IH. unfold tipc_dest_push.
    pose proof (dest_find_spec dports 0 q) as H.
    destruct (tipc_dest_find dports 0 q) as [w|]; cbn [snd].
    + destruct H as [-> Hin]. cbn [In]. split; [tauto|].
      intros [H|[<-|H]]; auto.
    + cbn [In]. tauto.
Qed.

(** X5.  The multicast lookup walks the sub-sequences of the type from the
    one nameseq_locate_subseq gives for [lower] up to the first that
    starts above [upper]; on a well-formed sequence these are exactly the
    live sub-sequences whose range meets [lower, upper], and the call
    pushes, in array and list order, the port of every publication on
    their local_publ lists that has the requested scope (or, when [exact]
    is not set, a lower one), under node 0.  When no allocation fails the
    resulting list holds what it held before and these ports, nothing
    else. *)
Theorem mc_lookup_overlapping tbl type lower upper scope exact dports ok
        seq :
  nametbl_find_seq tbl type = Some seq -> nameseq_inv seq = true ->
  tipc_nametbl_mc_lookup tbl type lower upper scope exact dports ok
  = Some (push_ports (flat_map (mc_ports scope exact)
                               (overlapping seq lower upper)) ok O dports) /\
  (forall v,
     In v (push_ports (flat_map (mc_ports scope exact)
                                (overlapping seq lower upper))
                      (fun _ => true) O dports) <->
     In v dports \/
     exists s p,
       In s (live seq) /\ overlaps s lower upper = true /\
       In p (local_publ (sseq_info s)) /\ mc_accepts scope exact p = true /\
       v = dest_value 0 (publ_port p)).
Proof.
  intros Hfind Hinv.
  destruct (scan_visit_overlapping seq lower upper Hinv) as [Hs Hvisit].
  split.
  - unfold tipc_nametbl_mc_lookup. rewrite Hfind. cbv zeta.
    destruct (Z.leb_spec (nameseq_locate_subseq seq lower) (first_free seq));
      [|lia].
    now rewrite mc_scan_spec, Hvisit.
  - intros v. rewrite push_ports_in, in_map_iff.
    split; (intros [H|H]; [now left|right]).
    + destruct H as [q [<- Hq]]. apply in_flat_map in Hq.
      destruct Hq as [s [Hsin Hq]]. unfold overlapping in Hsin.
      apply filter_In in Hsin. destruct Hsin as [Hlive Hov].
      unfold mc_ports in Hq. apply in_map_iff in Hq.
      destruct Hq as [p [<- Hp]]. apply filter_In in Hp.
      exists s, p. tauto.
    + destruct H as [s [p [Hlive [Hov [Hp [Hacc ->]]]]]].
      exists (publ_port p). split; [reflexivity|].
      apply in_flat_map. exists s. split.
      * unfold overlapping. apply filter_In. auto.
      * unfold mc_ports. apply in_map. apply filter_In. auto.
Qed.

Lemma mc_lookup_overlapping_witness :
  nametbl_find_seq three_ranges 10 = Some three_ranges_seq /\
  nameseq_inv three_ranges_seq = true /\
  tipc_nametbl_mc_lookup three_ranges 10 2 5 0 true [] (fun _ => true)
  = Some [dest_value 0 101; dest_value 0 100].
Proof.
  split; [reflexivity|]. split; [reflexivity|].
  exact (proj1 (mc_lookup_overlapping three_ranges 10 2 5 0 true []
                  (fun _ => true) three_ranges_seq eq_refl eq_refl)).
Defined.

Lemma dst_nodes_scan_spec upper a : forall n i,
  dst_nodes_scan a n i upper
  = flat_map (fun s => map publ_node (all_publ (sseq_info s)))
             (scan_visit a n i upper).
Proof.
  induction n as [|n IH]; intros i; [reflexivity|].
  cbn [dst_nodes_scan scan_visit].
  destruct (Z.leb_spec (sseq_lower (sseq_at a i)) upper);
    destruct (Z.ltb_spec upper (sseq_lower (sseq_at a i))); try lia.
  - cbn [flat_map]. now rewrite IH.
  - reflexivity.
Qed.

(** X6.  tipc_nametbl_lookup_dst_nodes hands to tipc_nlist_add the node of
    every publication on the all_publ list of every live sub-sequence
    whose range meets [lower, upper], in array and list order, and of no
    other; for a type the table does not hold it adds nothing. *)
Theorem lookup_dst_nodes_overlapping tbl type lower upper :
  (nametbl_find_seq tbl type = None ->
   tipc_nametbl_lookup_dst_nodes tbl type lower upper = Some []) /\
  (forall seq,
     nametbl_find_seq tbl type = Some seq -> nameseq_inv seq = true ->
     tipc_nametbl_lookup_dst_nodes tbl type lower upper
     = Some (flat_map (fun s => map publ_node (all_publ (sseq_info s)))
                      (overlapping seq lower upper))).
Proof.
  unfold tipc_nametbl_lookup_dst_nodes. split.
  - intros H. now rewrite H.
  - intros seq Hfind Hinv. rewrite Hfind. cbv zeta.
    destruct (scan_visit_overlapping seq lower upper Hinv) as [Hs Hvisit].
    destruct (Z.leb_spec (nameseq_locate_subseq seq lower) (first_free seq));
      [|lia].
    now rewrite dst_nodes_scan_spec, Hvisit.
Qed.

Lemma lookup_dst_nodes_overlapping_witness :
  nametbl_find_seq three_ranges 10 = Some three_ranges_seq /\
  nameseq_inv three_ranges_seq = true /\
  tipc_nametbl_lookup_dst_nodes three_ranges 10 6 20 = Some [sample_own; 9].
Proof.
  split; [reflexivity|]. split; [reflexivity|].
  exact (proj2 (lookup_dst_nodes_overlapping three_ranges 10 6 20)
               three_ranges_seq eq_refl eq_refl).
Defined.

Lemma sseq_at_insert_at l pos x k :
  0 <= pos <= Z.of_nat (length l) -> 0 <= k ->
  sseq_at (insert_at pos x l) k
  = if k <? pos then sseq_at l k
    else if k =? pos then x else sseq_at l (k - 1).
Proof.
  intros Hpos Hk. unfold sseq_at, insert_at.
  assert (L : length (firstn (Z.to_nat pos) l) = Z.to_nat pos)
    by (rewrite length_firstn; lia).
  destruct (Z.ltb_spec k pos).
  - rewrite app_nth1 by lia. rewrite nth_firstn.
    destruct (Nat.ltb_spec (Z.to_nat k) (Z.to_nat pos)); [reflexivity|lia].
  - rewrite app_nth2 by lia. rewrite L.
    destruct (Z.eqb_spec k pos) as [->|Hne].
    + now rewrite Nat.sub_diag.
    + replace (Z.to_nat k - Z.to_nat pos)%nat
        with (S (Z.to_nat (k - 1) - Z.to_nat pos)) by lia.
      cbn [nth]. rewrite nth_skipn. f_equal. lia.
Qed.

Lemma length_insert_at l pos x :
  0 <= pos <= Z.of_nat (length l) ->
  Z.of_nat (length (insert_at pos x l)) = Z.of_nat (length l) + 1.
Proof.
  intros Hpos. unfold insert_at.
  rewrite length_app. cbn [length]. rewrite length_firstn, length_skipn. lia.
Qed.

Lemma sseq_at_replace_at l pos x k :
  0 <= pos < Z.of_nat (length l) -> 0 <= k ->
  sseq_at (replace_at pos x l) k = if k =? pos then x else sseq_at l k.
Proof.
  intros Hpos Hk. unfold sseq_at, replace_at.
  rewrite (nth_store zero_sseq) by lia.
  destruct (Z.eqb_spec k pos) as [->|Hne].
  - now rewrite Nat.eqb_refl.
  - destruct (Nat.eqb_spec (Z.to_nat k) (Z.to_nat pos)); [lia|reflexivity].
Qed.

Lemma length_replace_at l pos x :
  0 <= pos < Z.of_nat (length l) ->
  length (replace_at pos x l) = length l.
Proof. intros H. unfold replace_at. apply length_store. lia. Qed.

Lemma delete_insert_at l pos x :
  0 <= pos <= Z.of_nat (length l) -> delete_at pos (insert_at pos x l) = l.
Proof.
  intros Hpos. unfold delete_at, insert_at.
  assert (L : length (firstn (Z.to_nat pos) l) = Z.to_nat pos)
    by (rewrite length_firstn; lia).
  rewrite firstn_app, L, Nat.sub_diag, firstn_firstn, Nat.min_id.
  cbn [firstn]. rewrite app_nil_r.
  rewrite skipn_app, L.
  replace (S (Z.to_nat pos) - Z.to_nat pos)%nat with 1%nat by lia.
  rewrite skipn_all2 by lia. cbn [skipn app].
  apply firstn_skipn.
Qed.

Lemma live_set_info nseq idx i :
  array_bounds nseq = true -> 0 <= idx < first_free nseq ->
  live (set_info nseq idx i)
  = replace_at idx
      (mk_sub_seq (sseq_lower (sseq_at (sseqs nseq) idx))
                  (sseq_upper (sseq_at (sseqs nseq) idx)) i)
      (live nseq).
Proof.
  intros Hb Hidx. apply array_bounds_spec in Hb.
  destruct Hb as [Hlen [Hff Hal]].
  assert (Hl : Z.of_nat (length (live nseq)) = first_free nseq)
    by (apply length_live; lia).
  apply sseq_list_ext.
  - rewrite length_replace_at by lia.
    unfold live, set_info, set_sseqs. cbn [first_free sseqs].
    rewrite !length_firstn, length_sseq_set. reflexivity.
  - intros j Hj.
    assert (Hj' : 0 <= j < first_free nseq).
    { unfold live, set_info, set_sseqs in Hj. cbn [first_free sseqs] in Hj.
      rewrite length_firstn, length_sseq_set in Hj. lia. }
    unfold live at 1. change (first_free (set_info nseq idx i))
      with (first_free nseq).
    rewrite sseq_at_firstn by lia.
    rewrite set_info_at, sseq_at_replace_at by lia.
    destruct (Z.eqb_spec j idx); [reflexivity|].
    unfold live. now rewrite sseq_at_firstn by lia.
Qed.

(** ** What a successful insertion leaves *)

Section InsertShape.

Variable in_own_node : Z -> bool.

Lemma link_publication_result nseq idx created type lower upper scope node
      port key al publ nseq' reports :
  link_publication in_own_node nseq idx created type lower upper scope node
                   port key al = (Some publ, nseq', reports) ->
  publ = mk_publication type lower upper scope node port key /\
  nseq' = set_info nseq idx
            (linked in_own_node publ (sseq_info (sseq_at (sseqs nseq) idx))) /\
  reports = report_subscriptions (subscriptions nseq) publ TIPC_PUBLISHED
                                 created /\
  publ_ok al = true.
Proof.
  unfold link_publication. destruct (publ_ok al); [|discriminate].
  intros [= <- <- <-]. repeat split.
Qed.

Lemma insert_publ_shape nseq type lower upper scope node port key al publ
      nseq' reports :
  nameseq_inv nseq = true -> lower <= upper -> alloc nseq * 2 <= max_alloc ->
  tipc_nameseq_insert_publ in_own_node nseq type lower upper scope node port
                           key al = (Some publ, nseq', reports) ->
  let pos := nameseq_locate_subseq nseq lower in
  publ = mk_publication type lower upper scope node port key /\
  ns_type nseq' = ns_type nseq /\
  subscriptions nseq' = subscriptions nseq /\
  nameseq_inv nseq' = true /\
  0 <= pos <= first_free nseq /\
  match nameseq_find_subseq nseq lower with
  | Some idx =>
    idx = pos /\ pos < first_free nseq /\
    sseq_lower (sseq_at (sseqs nseq) pos) = lower /\
    sseq_upper (sseq_at (sseqs nseq) pos) = upper /\
    existsb (publ_matches node port key)
            (all_publ (sseq_info (sseq_at (sseqs nseq) pos))) = false /\
    nseq' = set_info nseq pos
              (linked in_own_node publ
                      (sseq_info (sseq_at (sseqs nseq) pos))) /\
    reports = report_subscriptions (subscriptions nseq) publ TIPC_PUBLISHED
                                   false
  | None =>
    first_free nseq' = first_free nseq + 1 /\
    live nseq'
    = insert_at pos
        (mk_sub_seq lower upper (linked in_own_node publ (mk_name_info [] [])))
        (live nseq) /\
    reports = report_subscriptions (subscriptions nseq) publ TIPC_PUBLISHED
                                   true
  end.
Proof.
  intros Hinv Hrange Hroom Hres pos.
  assert (Hinv2 : nameseq_inv nseq' = true).
  { assert (Hok : publ_ok al = true).
    { revert Hres. unfold tipc_nameseq_insert_publ, link_publication.
      destruct (publ_ok al); [reflexivity|].
      repeat match goal with
             | |- context [match ?x with _ => _ end] => destruct x
             end; discriminate. }
    pose proof (insert_publ_inv in_own_node nseq type lower upper scope node
                  port key al Hinv Hrange Hroom Hok) as H.
    now rewrite Hres in H. }
  pose proof (find_subseq_spec nseq lower Hinv) as Hfind.
  pose proof Hinv as Hinv'. apply nameseq_inv_spec in Hinv'.
  destruct Hinv' as [[Hlen [Hff Hal]] [[Hwf Hord] Hbind]].
  revert Hres. unfold tipc_nameseq_insert_publ.
  destruct (nameseq_find_subseq nseq lower) as [idx|].
  - destruct Hfind as [Hloc [Hidx _]]. fold pos in Hloc. cbv zeta.
    destruct (Z.eqb_spec (sseq_lower (sseq_at (sseqs nseq) idx)) lower)
      as [Hlo|]; [|discriminate].
    destruct (Z.eqb_spec (sseq_upper (sseq_at (sseqs nseq) idx)) upper)
      as [Hup|]; [|discriminate].
    cbn [negb orb].
    destruct (existsb _ _) eqn:Hdup; [discriminate|].
    intros Hres. apply link_publication_result in Hres.
    destruct Hres as [-> [-> [-> Hok]]]. subst idx.
    repeat split; try assumption; try lia.
  - cbv zeta in Hfind. fold pos in Hfind.
    destruct Hfind as [Hpos [Hleft Hright]]. fold pos.
    destruct ((pos <? first_free nseq) &&
              (sseq_lower (sseq_at (sseqs nseq) pos) <=? upper)) eqn:Hchk;
      [discriminate|].
    assert (Hgrown : forall nseq1,
              Z.of_nat (length (sseqs nseq1)) = alloc nseq1 ->
              first_free nseq1 < alloc nseq1 ->
              alloc nseq1 <= max_alloc ->
              first_free nseq1 = first_free nseq ->
              ns_type nseq1 = ns_type nseq ->
              subscriptions nseq1 = subscriptions nseq ->
              (forall i, 0 <= i < first_free nseq ->
                 sseq_at (sseqs nseq1) i = sseq_at (sseqs nseq) i) ->
              (if info_ok al then
                 link_publication in_own_node
                   (mk_name_seq (ns_type nseq1)
                      (sseq_set
                         (sseq_memmove (sseqs nseq1) (pos + 1) pos
                                       (first_free nseq1 - pos))
                         pos (mk_sub_seq lower upper (mk_name_info [] [])))
                      (alloc nseq1) (wrap32 (first_free nseq1 + 1))
                      (subscriptions nseq1))
                   pos true type lower upper scope node port key al
               else (None, nseq1, [])) = (Some publ, nseq', reports) ->
              publ = mk_publication type lower upper scope node port key /\
              ns_type nseq' = ns_type nseq /\
              subscriptions nseq' = subscriptions nseq /\
              nameseq_inv nseq' = true /\
              0 <= pos <= first_free nseq /\
              first_free nseq' = first_free nseq + 1 /\
              live nseq'
              = insert_at pos
                  (mk_sub_seq lower upper
                              (linked in_own_node publ (mk_name_info [] [])))
                  (live nseq) /\
              reports = report_subscriptions (subscriptions nseq) publ
                                             TIPC_PUBLISHED true).
    { intros nseq1 Hlen1 Hroom1 Hal1 Hff1 Hty1 Hsub1 Hsame.
      destruct (info_ok al); [|discriminate].
      intros Hres. apply link_publication_result in Hres.
      cbn [sseqs subscriptions] in Hres.
      destruct Hres as [Hp [Hn [Hr Hok]]].
      assert (Hw : wrap32 (first_free nseq1 + 1) = first_free nseq + 1)
        by (rewrite Hff1; apply wrap32_small; unfold max_alloc in *; lia).
      rewrite Hw in Hn.
      set (a2 := sseq_set (sseq_memmove (sseqs nseq1) (pos + 1) pos
                                        (first_free nseq1 - pos))
                          pos (mk_sub_seq lower upper (mk_name_info [] [])))
        in *.
      assert (Hat2 : forall i, 0 <= i ->
                sseq_at a2 i
                = if i =? pos then mk_sub_seq lower upper (mk_name_info [] [])
                  else if (pos <? i) && (i <=? first_free nseq1)
                       then sseq_at (sseqs nseq1) (i - 1)
                       else sseq_at (sseqs nseq1) i)
        by (intros i Hi; apply insert_slot_at; lia).
      assert (Hlen2 : length a2 = length (sseqs nseq1))
        by (unfold a2; rewrite length_sseq_set, length_sseq_memmove by lia;
            reflexivity).
      split; [exact Hp|]. subst nseq'.
      split; [exact Hty1|]. split; [exact Hsub1|].
      split; [exact Hinv2|]. split; [lia|].
      split; [reflexivity|]. split; [|now rewrite Hr, Hsub1].
      assert (Hl : Z.of_nat (length (live nseq)) = first_free nseq)
        by (apply length_live; lia).
      apply sseq_list_ext.
      - apply Nat2Z.inj. rewrite length_insert_at by lia.
        unfold live at 1, set_info, set_sseqs. cbn [first_free sseqs].
        rewrite length_firstn, length_sseq_set. lia.
      - intros j Hj.
        assert (Hj' : 0 <= j < first_free nseq + 1).
        { unfold live, set_info, set_sseqs in Hj.
          cbn [first_free sseqs] in Hj.
          rewrite length_firstn, length_sseq_set in Hj. lia. }
        unfold live at 1.
        change (first_free (set_info _ _ _)) with (first_free nseq + 1).
        rewrite sseq_at_firstn by lia.
        rewrite set_info_at by (cbn [sseqs]; lia).
        cbn [sseqs]. rewrite sseq_at_insert_at by lia.
        rewrite !Hat2 by lia. rewrite Z.eqb_refl.
        cbn [sseq_lower sseq_upper sseq_info].
        destruct (Z.eqb_spec j pos) as [->|Hne].
        + destruct (Z.ltb_spec pos pos); [lia|reflexivity].
        + destruct (Z.ltb_spec j pos); destruct (Z.ltb_spec pos j);
            destruct (Z.leb_spec j (first_free nseq1)); try lia;
            cbn [andb]; rewrite Hsame by lia; unfold live;
            now rewrite sseq_at_firstn by lia. }
    destruct (Z.eqb_spec (first_free nseq) (alloc nseq)) as [Hfull|Hfree].
    + destruct (grow_ok al); [|discriminate].
      destruct (grow_inv nseq Hinv Hroom) as [Hinv1 [Hal1 Hsame]].
      cbv zeta in Hinv1, Hal1, Hsame.
      apply nameseq_inv_spec in Hinv1. cbn [alloc sseqs first_free] in *.
      intros Hres.
      refine (Hgrown _ _ _ _ _ _ _ _ Hres);
        cbn [alloc sseqs first_free ns_type subscriptions];
        try reflexivity; try tauto; try lia.
    + intros Hres. refine (Hgrown nseq _ _ _ _ _ _ _ Hres); auto; lia.
Qed.

(** After a successful insertion every instance of the range is found in
    the slot of the new publication. *)
Lemma insert_publ_found nseq type lower upper scope node port key al publ
      nseq' reports :
  nameseq_inv nseq = true -> lower <= upper -> alloc nseq * 2 <= max_alloc ->
  tipc_nameseq_insert_publ in_own_node nseq type lower upper scope node port
                           key al = (Some publ, nseq', reports) ->
  let pos := nameseq_locate_subseq nseq lower in
  let old := match nameseq_find_subseq nseq lower with
             | Some _ => sseq_info (sseq_at (sseqs nseq) pos)
             | None => mk_name_info [] []
             end in
  0 <= pos < first_free nseq' /\
  sseq_at (sseqs nseq') pos
  = mk_sub_seq lower upper (linked in_own_node publ old) /\
  (forall instance, lower <= instance <= upper ->
     nameseq_find_subseq nseq' instance = Some pos).
Proof.
  intros Hinv Hrange Hroom Hres pos old.
  destruct (insert_publ_shape _ _ _ _ _ _ _ _ _ _ _ _ Hinv Hrange Hroom Hres)
    as [Hp [Hty [Hsub [Hinv2 [Hpos Hcase]]]]].
  fold pos in Hpos, Hcase.
  pose proof Hinv as Hinv'. apply nameseq_inv_spec in Hinv'.
  destruct Hinv' as [[Hlen [Hff Hal]] _].
  assert (Hl : Z.of_nat (length (live nseq)) = first_free nseq)
    by (apply length_live; lia).
  assert (H : 0 <= pos < first_free nseq' /\
              sseq_at (sseqs nseq') pos
              = mk_sub_seq lower upper (linked in_own_node publ old)).
  { unfold old. destruct (nameseq_find_subseq nseq lower) as [idx|].
    - destruct Hcase as [_ [Hlt [Hlo [Hup [_ [Hn _]]]]]]. subst nseq'.
      split; [exact (conj (proj1 Hpos) Hlt)|].
      rewrite set_info_at by lia. rewrite Z.eqb_refl. now rewrite Hlo, Hup.
    - destruct Hcase as [Hff' [Hlive _]]. split; [lia|].
      rewrite <- (sseq_at_firstn (sseqs nseq') (first_free nseq') pos)
        by lia.
      fold (live nseq'). rewrite Hlive, sseq_at_insert_at by lia.
      destruct (Z.ltb_spec pos pos); [lia|]. now rewrite Z.eqb_refl. }
  destruct H as [Hin Hat]. split; [exact Hin|]. split; [exact Hat|].
  intros instance Hi.
  apply (find_subseq_complete nseq' instance pos Hinv2 Hin).
  rewrite Hat. unfold contains. cbn [sseq_lower sseq_upper].
  apply andb_true_iff. rewrite !Z.leb_le. lia.
Qed.

Lemma set_info_restore nseq idx i :
  0 <= idx < Z.of_nat (length (sseqs nseq)) ->
  set_info (set_info nseq idx i) idx (sseq_info (sseq_at (sseqs nseq) idx))
  = nseq.
Proof.
  intros Hidx. destruct nseq as [ty a al ff subs]. cbn [sseqs] in *.
  unfold set_info, set_sseqs.
  cbn [sseqs ns_type alloc first_free subscriptions].
  f_equal. apply sseq_list_ext.
  - now rewrite !length_sseq_set.
  - intros j Hj. rewrite !length_sseq_set in Hj.
    rewrite !sseq_at_set by (rewrite ?length_sseq_set; lia).
    rewrite Z.eqb_refl. cbn [sseq_lower sseq_upper].
    destruct (Z.eqb_spec j idx) as [->|]; [|reflexivity].
    now destruct (sseq_at a idx).
Qed.

Lemma publ_matches_own type lower upper scope node port key :
  publ_matches node port key
    (mk_publication type lower upper scope node port key) = true.
Proof.
  unfold publ_matches. cbn [publ_port publ_key publ_node].
  rewrite !Z.eqb_refl. cbn [andb]. apply orb_true_r.
Qed.

Lemma list_del_entry_head publ l :
  list_del_entry publ (publ :: l) = Some l.
Proof.
  unfold list_del_entry. cbn [existsb list_del_first].
  now rewrite publ_eqb_refl.
Qed.

(** X7.  A call of tipc_nameseq_insert_publ that returns a publication
    on a well-formed sequence returns the one made from its arguments, and
    changes the live array in one slot only: when a sub-sequence with this
    very range exists the publication is linked at the head of its all_publ
    list (and of its local_publ list when the node is this node); otherwise
    a sub-sequence holding just this publication is put in at the position
    nameseq_locate_subseq gives for [lower], the entries from there on
    moving up by one.  The calls of tipc_sub_report_overlap are one for
    every subscriber of the sequence, in list order, with the range, port,
    node and scope given, the event TIPC_PUBLISHED, and the flag set when
    the sub-sequence was created; afterwards every instance of the range
    is found in that slot. *)
Theorem insert_publ_live nseq type lower upper scope node port key al publ
        nseq' reports :
  nameseq_inv nseq = true -> lower <= upper -> alloc nseq * 2 <= max_alloc ->
  tipc_nameseq_insert_publ in_own_node nseq type lower upper scope node port
                           key al = (Some publ, nseq', reports) ->
  let pos := nameseq_locate_subseq nseq lower in
  let created := match nameseq_find_subseq nseq lower with
                 | Some _ => false
                 | None => true
                 end in
  let old := if created then mk_name_info [] []
             else sseq_info (sseq_at (sseqs nseq) pos) in
  let new := mk_sub_seq lower upper (linked in_own_node publ old) in
  publ = mk_publication type lower upper scope node port key /\
  live nseq' = (if created then insert_at pos new (live nseq)
                else replace_at pos new (live nseq)) /\
  reports = map (fun sub =>
                   mk_report sub lower upper TIPC_PUBLISHED port node scope
                             created)
                (subscriptions nseq) /\
  subscriptions nseq' = subscriptions nseq /\
  ns_type nseq' = ns_type nseq /\
  (forall instance, lower <= instance <= upper ->
     nameseq_find_subseq nseq' instance = Some pos /\
     sseq_at (sseqs nseq') pos = new).
Proof.
  intros Hinv Hrange Hroom Hres pos created old new.
  destruct (insert_publ_shape _ _ _ _ _ _ _ _ _ _ _ _ Hinv Hrange Hroom Hres)
    as [Hp [Hty [Hsub [Hinv2 [Hpos Hcase]]]]].
  destruct (insert_publ_found _ _ _ _ _ _ _ _ _ _ _ _ Hinv Hrange Hroom Hres)
    as [Hin [Hat Hfound]].
  fold pos in Hpos, Hcase, Hin, Hat, Hfound.
  pose proof Hinv as Hb. apply nameseq_inv_spec in Hb.
  destruct Hb as [Hb _]. apply array_bounds_spec in Hb.
  unfold new, old, created in *.
  destruct (nameseq_find_subseq nseq lower) as [idx|].
  - destruct Hcase as [_ [Hlt [Hlo [Hup [_ [Hn Hr]]]]]].
    split; [exact Hp|]. split.
    { rewrite Hn, live_set_info by (auto; lia). now rewrite Hlo, Hup. }
    split; [rewrite Hr, Hp; reflexivity|].
    split; [exact Hsub|]. split; [exact Hty|].
    intros instance Hi. split; [now apply Hfound|exact Hat].
  - destruct Hcase as [Hff' [Hlive Hr]].
    split; [exact Hp|]. split; [exact Hlive|].
    split; [rewrite Hr, Hp; reflexivity|].
    split; [exact Hsub|]. split; [exact Hty|].
    intros instance Hi. split; [now apply Hfound|exact Hat].
Qed.

Lemma remove_head nseq inst node port key pos lower upper publ loc rest :
  nameseq_find_subseq nseq inst = Some pos ->
  sseq_at (sseqs nseq) pos
  = mk_sub_seq lower upper
      (mk_name_info (if in_own_node node then publ :: loc else loc)
                    (publ :: rest)) ->
  publ_matches node port key publ = true ->
  tipc_nameseq_remove_publ in_own_node nseq inst node port key
  = Some (Some publ,
          match rest with
          | [] =>
            mk_name_seq (ns_type nseq)
              (sseq_memmove
                 (sseqs (set_info nseq pos (mk_name_info loc [])))
                 pos (pos + 1) (first_free nseq - (pos + 1)))
              (alloc nseq) (wrap32 (first_free nseq - 1))
              (subscriptions nseq)
          | _ :: _ => set_info nseq pos (mk_name_info loc rest)
          end,
          report_subscriptions (subscriptions nseq) publ TIPC_WITHDRAWN
            match rest with [] => true | _ :: _ => false end).
Proof.
  intros Hfind Hat Hm. unfold tipc_nameseq_remove_publ.
  rewrite Hfind, Hat. cbn [sseq_info all_publ local_publ find list_del_first].
  rewrite Hm.
  destruct (in_own_node node); rewrite ?list_del_entry_head;
    destruct rest; reflexivity.
Qed.

(** Withdrawing what was just published, with the reports as the loop of
    the withdrawal makes them. *)
Lemma insert_remove_shape nseq type lower upper scope node port key
        al publ nseq' reports :
  nameseq_inv nseq = true -> lower <= upper -> alloc nseq * 2 <= max_alloc ->
  tipc_nameseq_insert_publ in_own_node nseq type lower upper scope node port
                           key al = (Some publ, nseq', reports) ->
  forall inst, lower <= inst <= upper ->
  let created := match nameseq_find_subseq nseq lower with
                 | Some _ => false
                 | None => true
                 end in
  exists nseq'',
    tipc_nameseq_remove_publ in_own_node nseq' inst node port key
    = Some (Some publ, nseq'',
            report_subscriptions (subscriptions nseq) publ TIPC_WITHDRAWN
                                 created) /\
    live nseq'' = live nseq /\
    first_free nseq'' = first_free nseq /\
    subscriptions nseq'' = subscriptions nseq /\
    ns_type nseq'' = ns_type nseq /\
    nameseq_inv nseq'' = true /\
    (created = false -> nseq'' = nseq).
Proof.
  intros Hinv Hrange Hroom Hres inst Hinst created.
  destruct (insert_publ_shape _ _ _ _ _ _ _ _ _ _ _ _ Hinv Hrange Hroom Hres)
    as [Hp [Hty [Hsub [Hinv2 [Hpos Hcase]]]]].
  destruct (insert_publ_found _ _ _ _ _ _ _ _ _ _ _ _ Hinv Hrange Hroom Hres)
    as [Hin [Hat Hfound]].
  specialize (Hfound inst Hinst).
  set (pos := nameseq_locate_subseq nseq lower) in *.
  pose proof Hinv as Hinv'. apply nameseq_inv_spec in Hinv'.
  destruct Hinv' as [[Hlen [Hff Hal]] [_ Hbind]].
  assert (Hm : publ_matches node port key publ = true)
    by (rewrite Hp; apply publ_matches_own).
  assert (Hnode : publ_node publ = node) by now rewrite Hp.
  unfold linked in Hat. rewrite Hnode in Hat.
  pose proof (remove_head _ _ _ _ _ _ _ _ _ _ _ Hfound Hat Hm) as Hrem.
  pose proof (remove_publ_spec in_own_node nseq' inst node port key Hinv2)
    as Hspec.
  rewrite Hrem in Hspec. rewrite Hrem. clear Hrem.
  rewrite Hsub in Hspec |- *. unfold created.
  destruct (nameseq_find_subseq nseq lower) as [idx|].
  - destruct Hcase as [_ [Hlt [Hlo [Hup [_ [Hn Hr]]]]]].
    specialize (Hbind pos ltac:(lia)). unfold has_binding in Hbind.
    assert (Hback :
      set_info nseq' pos
        (mk_name_info (local_publ (sseq_info (sseq_at (sseqs nseq) pos)))
                      (all_publ (sseq_info (sseq_at (sseqs nseq) pos))))
      = nseq).
    { rewrite Hn.
      replace (mk_name_info _ _)
        with (sseq_info (sseq_at (sseqs nseq) pos))
        by (now destruct (sseq_info (sseq_at (sseqs nseq) pos))).
      apply set_info_restore; lia. }
    destruct (all_publ (sseq_info (sseq_at (sseqs nseq) pos)))
      as [|q r] eqn:Hall; [discriminate|].
    rewrite Hback. exists nseq. repeat split; auto.
  - destruct Hcase as [Hff' [Hlive Hr]]. cbn [all_publ local_publ].
    cbn [all_publ local_publ] in Hspec.
    destruct Hspec as [idx [Hidx [_ [Hinv3 Hshape]]]].
    rewrite Hfound in Hidx. injection Hidx as <-.
    rewrite Hat in Hshape. cbn [sseq_info all_publ list_del_first] in Hshape.
    rewrite Hm in Hshape. destruct Hshape as [Hff3 [Hlive3 _]].
    eexists. split; [reflexivity|].
    assert (Hl : Z.of_nat (length (live nseq)) = first_free nseq)
      by (apply length_live; lia).
    split; [rewrite Hlive3, Hlive; apply delete_insert_at; lia|].
    split; [rewrite Hff3; lia|]. split; [reflexivity|].
    split; [exact Hty|]. split; [exact Hinv3|discriminate].
Qed.

(** X8.  Withdrawing what was just published undoes the publish: after a
    call of tipc_nameseq_insert_publ that returned a publication,
    tipc_nameseq_remove_publ for any instance of the range and the same
    node, port and key returns that publication, calls
    tipc_sub_report_overlap once for every subscriber, in list order, with
    the range, port, node and scope of the publication, the event
    TIPC_WITHDRAWN and the flag the publish had, and leaves the live
    sub-sequences, first_free and the subscriptions as they were before
    the publish.  When the publish had found its sub-sequence the whole
    sequence is as before; when it had created one, the array may have
    grown in between. *)
Theorem insert_remove_round_trip nseq type lower upper scope node port key
        al publ nseq' reports :
  nameseq_inv nseq = true -> lower <= upper -> alloc nseq * 2 <= max_alloc ->
  tipc_nameseq_insert_publ in_own_node nseq type lower upper scope node port
                           key al = (Some publ, nseq', reports) ->
  forall inst, lower <= inst <= upper ->
  let created := match nameseq_find_subseq nseq lower with
                 | Some _ => false
                 | None => true
                 end in
  exists nseq'',
    tipc_nameseq_remove_publ in_own_node nseq' inst node port key
    = Some (Some publ, nseq'',
            map (fun sub =>
                   mk_report sub lower upper TIPC_WITHDRAWN port node scope
                             created)
                (subscriptions nseq)) /\
    live nseq'' = live nseq /\
    first_free nseq'' = first_free nseq /\
    subscriptions nseq'' = subscriptions nseq /\
    ns_type nseq'' = ns_type nseq /\
    nameseq_inv nseq'' = true /\
    (created = false -> nseq'' = nseq).
Proof.
  intros Hinv Hrange Hroom Hres inst Hinst created.
  destruct (insert_publ_shape nseq type lower upper scope node port key al
              publ nseq' reports Hinv Hrange Hroom Hres) as [Hp _].
  destruct (insert_remove_shape nseq type lower upper scope node port key al
              publ nseq' reports Hinv Hrange Hroom Hres inst Hinst)
    as [nseq'' [Hrem Hrest]].
  exists nseq''. split; [|exact Hrest].
  rewrite Hrem, Hp. reflexivity.
Qed.

End InsertShape.

Lemma insert_publ_live_witness :
  nameseq_inv two_ranges = true /\ 3 <= 4 /\
  alloc two_ranges * 2 <= max_alloc /\
  live (snd (fst (tipc_nameseq_insert_publ sample_in_own_node two_ranges
                    10 3 4 0 9 103 1 allocs_succeed)))
  = insert_at 1
      (mk_sub_seq 3 4 (mk_name_info [] [mk_publication 10 3 4 0 9 103 1]))
      (live two_ranges) /\
  nameseq_inv own_range = true /\ 7 <= 8 /\
  alloc own_range * 2 <= max_alloc /\
  snd (tipc_nameseq_insert_publ sample_in_own_node own_range
         10 7 8 0 9 300 5 allocs_succeed)
  = [mk_report sample_sub 7 8 TIPC_PUBLISHED 300 9 0 true].
Proof.
  split; [reflexivity|]. split; [lia|]. split; [vm_compute; discriminate|].
  split.
  { exact (proj1 (proj2
      (insert_publ_live sample_in_own_node two_ranges 10 3 4 0 9 103 1
         allocs_succeed (mk_publication 10 3 4 0 9 103 1)
         (snd (fst (tipc_nameseq_insert_publ sample_in_own_node two_ranges
                      10 3 4 0 9 103 1 allocs_succeed)))
         [] eq_refl ltac:(lia) ltac:(vm_compute; discriminate) eq_refl))). }
  split; [reflexivity|]. split; [lia|]. split; [vm_compute; discriminate|].
  exact (proj1 (proj2 (proj2
    (insert_publ_live sample_in_own_node own_range 10 7 8 0 9 300 5
       allocs_succeed (mk_publication 10 7 8 0 9 300 5)
       (snd (fst (tipc_nameseq_insert_publ sample_in_own_node own_range
                    10 7 8 0 9 300 5 allocs_succeed)))
       (snd (tipc_nameseq_insert_publ sample_in_own_node own_range
               10 7 8 0 9 300 5 allocs_succeed))
       eq_refl ltac:(lia) ltac:(vm_compute; discriminate) eq_refl)))).
Defined.

Lemma insert_remove_round_trip_witness :
  nameseq_inv own_range = true /\ 7 <= 8 /\
  alloc own_range * 2 <= max_alloc /\
  exists nseq'',
    tipc_nameseq_remove_publ sample_in_own_node
      (snd (fst (tipc_nameseq_insert_publ sample_in_own_node own_range
                   10 7 8 0 9 300 5 allocs_succeed)))
      8 9 300 5
    = Some (Some (mk_publication 10 7 8 0 9 300 5), nseq'',
            [mk_report sample_sub 7 8 TIPC_WITHDRAWN 300 9 0 true]) /\
    live nseq'' = live own_range.
Proof.
  split; [reflexivity|]. split; [lia|]. split; [vm_compute; discriminate|].
  destruct (insert_remove_round_trip sample_in_own_node own_range
              10 7 8 0 9 300 5 allocs_succeed
              (mk_publication 10 7 8 0 9 300 5)
              (snd (fst (tipc_nameseq_insert_publ sample_in_own_node
                           own_range 10 7 8 0 9 300 5 allocs_succeed)))
              (snd (tipc_nameseq_insert_publ sample_in_own_node
                      own_range 10 7 8 0 9 300 5 allocs_succeed))
              eq_refl ltac:(lia) ltac:(vm_compute; discriminate) eq_refl
              8 ltac:(lia))
    as [n [H1 [H2 _]]].
  exists n. split; [exact H1|exact H2].
Defined.

(** ** Chains of the hash table *)

Lemma bucket_of_set_bucket_other tbl index index' b :
  0 <= index < Z.of_nat (length (seq_hlist tbl)) -> 0 <= index' ->
  index' <> index ->
  bucket_of (set_bucket tbl index b) index' = bucket_of tbl index'.
Proof.
  intros H H' Hne. unfold bucket_of, set_bucket. cbn [seq_hlist].
  rewrite nth_store by lia.
  destruct (Nat.eqb_spec (Z.to_nat index') (Z.to_nat index)); [lia|].
  reflexivity.
Qed.

Lemma set_bucket_twice tbl index b b' :
  0 <= index < Z.of_nat (length (seq_hlist tbl)) ->
  set_bucket (set_bucket tbl index b) index b' = set_bucket tbl index b'.
Proof.
  intros H. unfold set_bucket. cbn [seq_hlist local_publ_count]. f_equal.
  assert (L : length (firstn (Z.to_nat index) (seq_hlist tbl))
              = Z.to_nat index) by (rewrite length_firstn; lia).
  f_equal.
  - rewrite firstn_app, L, Nat.sub_diag, firstn_firstn, Nat.min_id.
    cbn [firstn]. apply app_nil_r.
  - f_equal. rewrite skipn_app, L.
    replace (S (Z.to_nat index) - Z.to_nat index)%nat with 1%nat by lia.
    rewrite skipn_all2 by lia. reflexivity.
Qed.

(** Changing a chain in a way that keeps what a search for [type] finds on
    it keeps what nametbl_find_seq finds for [type]. *)
Lemma find_seq_set_bucket tbl index b type :
  0 <= index < Z.of_nat (length (seq_hlist tbl)) ->
  find (fun ns => ns_type ns =? type) b
  = find (fun ns => ns_type ns =? type) (bucket_of tbl index) ->
  nametbl_find_seq (set_bucket tbl index b) type = nametbl_find_seq tbl type.
Proof.
  intros H Hb. unfold nametbl_find_seq.
  destruct (Z.eq_dec (hash (s32 type)) index) as [E|E].
  - rewrite E, bucket_of_set_bucket by lia. exact Hb.
  - rewrite bucket_of_set_bucket_other;
      [reflexivity|lia| |exact E].
    apply hash_range.
Qed.

Lemma find_store_seq_other type type' ns' b :
  type' <> type -> ns_type ns' = type ->
  find (fun ns => ns_type ns =? type') (store_seq type ns' b)
  = find (fun ns => ns_type ns =? type') b.
Proof.
  intros Hne Hty. induction b as [|ns r IH]; [reflexivity|].
  cbn [store_seq]. destruct (Z.eqb_spec (ns_type ns) type) as [E|E].
  - cbn [find]. rewrite Hty, E.
    destruct (Z.eqb_spec type type'); [congruence|reflexivity].
  - cbn [find]. now rewrite IH.
Qed.

Lemma find_unlink_seq_other type type' b :
  type' <> type ->
  find (fun ns => ns_type ns =? type') (unlink_seq type b)
  = find (fun ns => ns_type ns =? type') b.
Proof.
  intros Hne. induction b as [|ns r IH]; [reflexivity|].
  cbn [unlink_seq]. destruct (Z.eqb_spec (ns_type ns) type) as [E|E].
  - cbn [find]. rewrite E.
    destruct (Z.eqb_spec type type'); [congruence|reflexivity].
  - cbn [find]. now rewrite IH.
Qed.

Lemma find_seq_update_other tbl type type' ns' :
  Z.of_nat (length (seq_hlist tbl)) = TIPC_NAMETBL_SIZE ->
  type' <> type -> ns_type ns' = type ->
  nametbl_find_seq (update_seq tbl type ns') type'
  = nametbl_find_seq tbl type'.
Proof.
  intros Hlen Hne Hty. unfold update_seq.
  apply find_seq_set_bucket; [rewrite Hlen; apply hash_range|].
  now apply find_store_seq_other.
Qed.

Lemma find_seq_unlink_other tbl type type' :
  Z.of_nat (length (seq_hlist tbl)) = TIPC_NAMETBL_SIZE ->
  type' <> type ->
  nametbl_find_seq
    (set_bucket tbl (hash (s32 type))
                (unlink_seq type (bucket_of tbl (hash (s32 type))))) type'
  = nametbl_find_seq tbl type'.
Proof.
  intros Hlen Hne.
  apply find_seq_set_bucket; [rewrite Hlen; apply hash_range|].
  now apply find_unlink_seq_other.
Qed.

Lemma find_seq_link_other tbl type type' ns :
  Z.of_nat (length (seq_hlist tbl)) = TIPC_NAMETBL_SIZE ->
  type' <> type -> ns_type ns = type ->
  nametbl_find_seq
    (set_bucket tbl (hash (s32 type)) (ns :: bucket_of tbl (hash (s32 type))))
    type'
  = nametbl_find_seq tbl type'.
Proof.
  intros Hlen Hne Hty.
  apply find_seq_set_bucket; [rewrite Hlen; apply hash_range|].
  cbn [find]. rewrite Hty.
  destruct (Z.eqb_spec type type'); [congruence|reflexivity].
Qed.

Lemma length_link_seq tbl index b :
  Z.of_nat (length (seq_hlist tbl)) = TIPC_NAMETBL_SIZE ->
  0 <= index < TIPC_NAMETBL_SIZE ->
  Z.of_nat (length (seq_hlist (set_bucket tbl index b))) = TIPC_NAMETBL_SIZE.
Proof.
  intros Hlen Hi. rewrite length_set_bucket by lia. exact Hlen.
Qed.

Lemma insert_publ_type in_own_node nseq type lower upper scope node port key
      al :
  ns_type (snd (fst (tipc_nameseq_insert_publ in_own_node nseq type lower
                       upper scope node port key al)))
  = ns_type nseq.
Proof.
  unfold tipc_nameseq_insert_publ, link_publication.
  destruct (nameseq_find_subseq nseq lower) as [idx|]; cbv zeta.
  - destruct (negb _ || negb _); [reflexivity|].
    destruct (existsb _ _); [reflexivity|].
    destruct (publ_ok al); reflexivity.
  - destruct (_ && _); [reflexivity|].
    destruct (first_free nseq =? alloc nseq);
      [destruct (grow_ok al); [|reflexivity]|];
      destruct (info_ok al); try reflexivity;
      destruct (publ_ok al); reflexivity.
Qed.

Lemma remove_publ_type in_own_node nseq inst node port key r nseq' reports :
  tipc_nameseq_remove_publ in_own_node nseq inst node port key
  = Some (r, nseq', reports) ->
  ns_type nseq' = ns_type nseq.
Proof.
  unfold tipc_nameseq_remove_publ.
  repeat match goal with
         | |- context [match ?x with _ => _ end] => destruct x
         end; intros [= <- <- <-]; reflexivity.
Qed.

Section OtherTypes.

Variable own_addr : Z.
Variable TIPC_NODE_SCOPE : Z.
Variable in_own_node : Z -> bool.
Variable tipc_in_scope : Z -> Z -> bool.

(** X9.  Publishing, withdrawing, translating and looking up a name of one
    type never change what the table holds for another type: afterwards
    nametbl_find_seq returns for every other type the sequence it returned
    before, also when the two types share a hash chain and when the call
    links a new sequence into the chain or unlinks an empty one. *)
Theorem other_types_untouched tbl type type' :
  Z.of_nat (length (seq_hlist tbl)) = TIPC_NAMETBL_SIZE -> type' <> type ->
  (forall lower upper scope node port key al,
     nametbl_find_seq
       (snd (fst (tipc_nametbl_insert_publ TIPC_NODE_SCOPE in_own_node tbl
                    type lower upper scope node port key al))) type'
     = nametbl_find_seq tbl type') /\
  (forall lower node port key publ tbl' reports,
     tipc_nametbl_remove_publ in_own_node tbl type lower node port key
     = Some (publ, tbl', reports) ->
     nametbl_find_seq tbl' type' = nametbl_find_seq tbl type') /\
  (forall instance destnode port node tbl',
     tipc_nametbl_translate own_addr tipc_in_scope tbl type instance destnode
     = Some (port, node, tbl') ->
     nametbl_find_seq tbl' type' = nametbl_find_seq tbl type') /\
  (forall instance scope dsts exclude all ok,
     nametbl_find_seq
       (snd (tipc_nametbl_lookup own_addr tbl type instance scope dsts
                                 exclude all ok)) type'
     = nametbl_find_seq tbl type').
Proof.
  intros Hlen Hne.
  pose proof (hash_range (s32 type)) as Hh.
  split; [|split; [|split]].
  - intros lower upper scope node port key al.
    unfold tipc_nametbl_insert_publ.
    destruct ((TIPC_NODE_SCOPE <? scope) || (upper <? lower));
      [reflexivity|].
    destruct (nametbl_find_seq tbl type) as [ns|] eqn:Hfind.
    + pose proof (insert_publ_type in_own_node ns type lower upper scope node
                    port key al) as Hty.
      destruct (tipc_nameseq_insert_publ in_own_node ns type lower upper
                  scope node port key al) as [[publ ns'] reports].
      cbn [fst snd] in *. apply find_seq_update_other; auto.
      rewrite Hty. now apply find_seq_type with (tbl := tbl).
    + destruct (nseq_ok al && sseq_ok al); [|reflexivity].
      pose proof (insert_publ_type in_own_node (tipc_nameseq_create type)
                    type lower upper scope node port key al) as Hty.
      destruct (tipc_nameseq_insert_publ in_own_node
                  (tipc_nameseq_create type) type lower upper
                  scope node port key al) as [[publ ns'] reports].
      cbn [fst snd] in *.
      rewrite find_seq_update_other; auto.
      * now apply find_seq_link_other.
      * apply length_link_seq; auto.
  - intros lower node port key publ tbl' reports.
    unfold tipc_nametbl_remove_publ.
    destruct (nametbl_find_seq tbl type) as [ns|] eqn:Hfind;
      [|now intros [= <- <- <-]].
    destruct (tipc_nameseq_remove_publ in_own_node ns lower node port key)
      as [[[r ns'] rep]|] eqn:Hrem; [|discriminate].
    apply remove_publ_type in Hrem.
    apply find_seq_type in Hfind.
    destruct ((first_free ns' =? 0) && _); intros [= <- <- <-].
    + now apply find_seq_unlink_other.
    + apply find_seq_update_other; auto. congruence.
  - intros instance destnode port node tbl'.
    unfold tipc_nametbl_translate.
    destruct (negb (tipc_in_scope destnode own_addr));
      [now intros [= <- <- <-]|].
    destruct (nametbl_find_seq tbl type) as [ns|] eqn:Hfind;
      [|now intros [= <- <- <-]].
    apply find_seq_type in Hfind.
    destruct (nameseq_find_subseq ns instance) as [idx|];
      [|now intros [= <- <- <-]].
    cbv zeta. unfold first_entry_move_tail.
    destruct (destnode =? 0); [|destruct (destnode =? own_addr)];
      destruct (local_publ (sseq_info (sseq_at (sseqs ns) idx)));
      destruct (all_publ (sseq_info (sseq_at (sseqs ns) idx)));
      try discriminate; intros [= <- <- <-]; try reflexivity;
      now apply find_seq_update_other.
  - intros instance scope dsts exclude all ok.
    unfold tipc_nametbl_lookup.
    destruct (nametbl_find_seq tbl type) as [ns|] eqn:Hfind;
      [|reflexivity].
    apply find_seq_type in Hfind.
    destruct (nameseq_find_subseq ns instance) as [idx|]; [|reflexivity].
    destruct (lookup_loop own_addr _ scope exclude all ok dsts 0)
      as [[d c] l'].
    cbn [snd]. now apply find_seq_update_other.
Qed.

End OtherTypes.

Lemma other_types_untouched_witness :
  Z.of_nat (length (seq_hlist once_bound)) = TIPC_NAMETBL_SIZE /\
  10 <> 1034 /\ hash (s32 10) = hash (s32 1034) /\
  nametbl_find_seq
    (snd (fst (tipc_nametbl_insert_publ sample_max_scope sample_in_own_node
                 once_bound 1034 1 1 0 9 300 1 allocs_succeed))) 10
  = nametbl_find_seq once_bound 10.
Proof.
  split; [reflexivity|]. split; [discriminate|]. split; [reflexivity|].
  exact (proj1 (other_types_untouched sample_own sample_max_scope
                  sample_in_own_node sample_in_scope once_bound 1034 10
                  eq_refl ltac:(discriminate))
               1 1 0 9 300 1 allocs_succeed).
Defined.

(** ** The table invariant *)

Lemma nametbl_inv_bucket tbl index :
  nametbl_inv tbl = true ->
  forallb nameseq_inv (bucket_of tbl index) = true.
Proof.
  unfold nametbl_inv, bucket_of. intros H.
  apply andb_true_iff in H. destruct H as [_ H].
  rewrite forallb_forall in H.
  destruct (Nat.ltb_spec (Z.to_nat index) (length (seq_hlist tbl))).
  - apply H. now apply nth_In.
  - now rewrite nth_overflow.
Qed.

Lemma nametbl_inv_set_bucket tbl index b :
  nametbl_inv tbl = true -> 0 <= index < TIPC_NAMETBL_SIZE ->
  forallb nameseq_inv b = true ->
  nametbl_inv (set_bucket tbl index b) = true.
Proof.
  intros H Hi Hb. pose proof (nametbl_inv_length tbl H) as Hlen.
  unfold nametbl_inv in *. apply andb_true_iff in H. destruct H as [_ H].
  apply andb_true_iff. split.
  - apply Z.eqb_eq. rewrite length_set_bucket by lia. exact Hlen.
  - unfold set_bucket. cbn [seq_hlist].
    rewrite forallb_app. cbn [forallb]. rewrite Hb.
    rewrite forallb_forall in H.
    rewrite andb_true_iff. split; [|cbn [andb]];
      apply forallb_forall; intros x Hx; apply H.
    + rewrite <- (firstn_skipn (Z.to_nat index) (seq_hlist tbl)).
      apply in_or_app. now left.
    + rewrite <- (firstn_skipn (S (Z.to_nat index)) (seq_hlist tbl)).
      apply in_or_app. now right.
Qed.

Lemma forallb_store_seq (f : name_seq -> bool) type ns' b :
  forallb f b = true -> f ns' = true ->
  forallb f (store_seq type ns' b) = true.
Proof.
  intros Hb Hn. induction b as [|ns r IH]; [reflexivity|].
  cbn [forallb] in Hb. apply andb_true_iff in Hb. destruct Hb as [H1 H2].
  cbn [store_seq]. destruct (ns_type ns =? type); cbn [forallb].
  - now rewrite Hn, H2.
  - now rewrite H1, IH.
Qed.

Lemma forallb_unlink_seq (f : name_seq -> bool) type b :
  forallb f b = true -> forallb f (unlink_seq type b) = true.
Proof.
  intros Hb. induction b as [|ns r IH]; [reflexivity|].
  cbn [forallb] in Hb. apply andb_true_iff in Hb. destruct Hb as [H1 H2].
  cbn [unlink_seq]. destruct (ns_type ns =? type); cbn [forallb].
  - exact H2.
  - now rewrite H1, IH.
Qed.

Lemma nametbl_inv_update tbl type ns' :
  nametbl_inv tbl = true -> nameseq_inv ns' = true ->
  nametbl_inv (update_seq tbl type ns') = true.
Proof.
  intros H Hn. unfold update_seq.
  apply nametbl_inv_set_bucket; [exact H|apply hash_range|].
  apply forallb_store_seq; [|exact Hn]. now apply nametbl_inv_bucket.
Qed.

Lemma nametbl_inv_unlink tbl type :
  nametbl_inv tbl = true ->
  nametbl_inv (set_bucket tbl (hash (s32 type))
                 (unlink_seq type (bucket_of tbl (hash (s32 type))))) = true.
Proof.
  intros H. apply nametbl_inv_set_bucket; [exact H|apply hash_range|].
  apply forallb_unlink_seq. now apply nametbl_inv_bucket.
Qed.

Lemma nameseq_create_inv type : nameseq_inv (tipc_nameseq_create type) = true.
Proof. reflexivity. Qed.

Lemma nametbl_inv_link tbl type :
  nametbl_inv tbl = true ->
  nametbl_inv (set_bucket tbl (hash (s32 type))
                 (tipc_nameseq_create type
                  :: bucket_of tbl (hash (s32 type)))) = true.
Proof.
  intros H. apply nametbl_inv_set_bucket; [exact H|apply hash_range|].
  cbn [forallb]. rewrite nameseq_create_inv. now apply nametbl_inv_bucket.
Qed.

Lemma find_seq_link tbl type ns :
  Z.of_nat (length (seq_hlist tbl)) = TIPC_NAMETBL_SIZE ->
  ns_type ns = type ->
  nametbl_find_seq
    (set_bucket tbl (hash (s32 type)) (ns :: bucket_of tbl (hash (s32 type))))
    type = Some ns.
Proof.
  intros Hlen Hty.
  apply find_seq_bucket with (r := bucket_of tbl (hash (s32 type)));
    [|exact Hty].
  apply bucket_of_set_bucket. rewrite Hlen. apply hash_range.
Qed.

(** ** One destination *)

Section FirstAcceptable.

Variable own_addr : Z.

(** The loop of tipc_nametbl_lookup for one destination: it stops at the
    first acceptable publication. *)
Lemma lookup_loop_one scope exclude : forall l ok dsts c,
  lookup_loop own_addr l scope exclude false ok dsts c
  = match find (acceptable own_addr scope exclude) l with
    | Some p =>
      (snd (tipc_dest_push dsts (publ_node p) (publ_port p)
              (ok (first_index (acceptable own_addr scope exclude) l))),
       s32 (c + 1),
       move_first_tail (acceptable own_addr scope exclude) l)
    | None => (dsts, c, l)
    end.
Proof.
  induction l as [|p r IH]; intros ok dsts c; [reflexivity|].
  cbn [lookup_loop find move_first_tail first_index].
  unfold acceptable at 1 3 4 5.
  destruct (publ_scope p =? scope); cbn [negb andb].
  - destruct ((publ_port p =? exclude) && (publ_node p =? own_addr));
      cbn [negb]; [|reflexivity].
    rewrite IH.
    destruct (find (acceptable own_addr scope exclude) r); reflexivity.
  - rewrite IH.
    destruct (find (acceptable own_addr scope exclude) r); reflexivity.
Qed.

Lemma move_first_tail_none (f : publication -> bool) l :
  find f l = None -> move_first_tail f l = l.
Proof.
  induction l as [|p r IH]; [reflexivity|]. cbn [find move_first_tail].
  destruct (f p); [discriminate|]. intros H. now rewrite IH.
Qed.

Lemma move_first_tail_split (f : publication -> bool) l p :
  find f l = Some p ->
  exists a b,
    l = a ++ p :: b /\ forallb (fun q => negb (f q)) a = true /\
    f p = true /\ move_first_tail f l = a ++ b ++ [p] /\
    first_index f l = length a.
Proof.
  revert p. induction l as [|q r IH]; intros p; [discriminate|].
  cbn [find move_first_tail first_index]. destruct (f q) eqn:E.
  - intros [= <-]. exists [], r. cbn. auto.
  - intros H. destruct (IH p H) as [a [b [-> [Ha [Hp [Hm Hi]]]]]].
    exists (q :: a), b. cbn [app forallb length]. rewrite E, Ha, Hm, Hi.
    auto.
Qed.

End FirstAcceptable.

Lemma lookup_loop_length own_addr scope exclude all : forall l ok dsts c,
  length (snd (lookup_loop own_addr l scope exclude all ok dsts c))
  = length l.
Proof.
  induction l as [|p r IH]; intros ok dsts c; [reflexivity|].
  cbn [lookup_loop].
  assert (Hc : forall d0 c0,
            length (snd (let '(d, c1, r') :=
                           lookup_loop own_addr r scope exclude all
                                       (fun n => ok (S n)) d0 c0 in
                         (d, c1, p :: r'))) = S (length r)).
  { intros d0 c0. specialize (IH (fun n => ok (S n)) d0 c0).
    destruct (lookup_loop own_addr r scope exclude all
                          (fun n => ok (S n)) d0 c0) as [[d c1] r'].
    cbn [snd length] in *. now rewrite IH. }
  destruct (negb (publ_scope p =? scope)); [apply Hc|].
  destruct ((publ_port p =? exclude) && (publ_node p =? own_addr));
    [apply Hc|].
  destruct all; [apply Hc|].
  cbn [snd length]. rewrite length_app. cbn [length]. lia.
Qed.

Lemma set_info_keeps_inv nseq instance idx i :
  nameseq_inv nseq = true -> nameseq_find_subseq nseq instance = Some idx ->
  all_publ i <> [] -> nameseq_inv (set_info nseq idx i) = true.
Proof.
  intros Hinv Hfind Hi. pose proof Hinv as H.
  apply nameseq_inv_spec in H. destruct H as [Hb [Hs Hbind]].
  apply array_bounds_spec in Hb.
  destruct (find_subseq_range nseq instance idx Hb Hfind) as [Hidx _].
  apply set_info_inv; auto.
Qed.

Section TableInvariant.

Variable own_addr : Z.
Variable TIPC_NODE_SCOPE : Z.
Variable in_own_node : Z -> bool.
Variable tipc_in_scope : Z -> Z -> bool.

(** X10.  The four calls that change the table keep it well formed: 1024
    chains, and in every sequence of every chain the live sub-sequences
    sorted and disjoint, each with a publication on its all_publ list.
    tipc_nametbl_insert_publ does so whatever it returns, provided the
    publication itself can be allocated and the array of the sequence
    can still double; tipc_nametbl_remove_publ, tipc_nametbl_translate
    and tipc_nametbl_lookup do so whenever they return. *)
Theorem nametbl_calls_keep_invariant tbl :
  nametbl_inv tbl = true ->
  (forall type lower upper scope node port key al,
     publ_ok al = true ->
     (forall ns, nametbl_find_seq tbl type = Some ns ->
                 alloc ns * 2 <= max_alloc) ->
     nametbl_inv
       (snd (fst (tipc_nametbl_insert_publ TIPC_NODE_SCOPE in_own_node tbl
                    type lower upper scope node port key al))) = true) /\
  (forall type lower node port key publ tbl' reports,
     tipc_nametbl_remove_publ in_own_node tbl type lower node port key
     = Some (publ, tbl', reports) ->
     nametbl_inv tbl' = true) /\
  (forall type instance destnode port node tbl',
     tipc_nametbl_translate own_addr tipc_in_scope tbl type instance destnode
     = Some (port, node, tbl') ->
     nametbl_inv tbl' = true) /\
  (forall type instance scope dsts exclude all ok,
     nametbl_inv
       (snd (tipc_nametbl_lookup own_addr tbl type instance scope dsts
                                 exclude all ok)) = true).
Proof.
  intros Hinv. split; [|split; [|split]].
  - intros type lower upper scope node port key al Hok Hroom.
    unfold tipc_nametbl_insert_publ.
    destruct (Z.ltb_spec TIPC_NODE_SCOPE scope); [exact Hinv|].
    destruct (Z.ltb_spec upper lower); [exact Hinv|]. cbn [orb].
    destruct (nametbl_find_seq tbl type) as [ns|] eqn:Hfind.
    + pose proof (insert_publ_inv in_own_node ns type lower upper scope node
                    port key al (nametbl_inv_find tbl type ns Hinv Hfind)
                    ltac:(lia) (Hroom ns eq_refl) Hok) as Hi.
      destruct (tipc_nameseq_insert_publ in_own_node ns type lower upper
                  scope node port key al) as [[publ ns'] reports].
      cbn [fst snd] in *. now apply nametbl_inv_update.
    + destruct (nseq_ok al && sseq_ok al); [|exact Hinv].
      pose proof (insert_publ_inv in_own_node (tipc_nameseq_create type)
                    type lower upper scope node port key al
                    (nameseq_create_inv type) ltac:(lia)
                    ltac:(vm_compute; discriminate) Hok) as Hi.
      destruct (tipc_nameseq_insert_publ in_own_node
                  (tipc_nameseq_create type) type lower upper
                  scope node port key al) as [[publ ns'] reports].
      cbn [fst snd] in *. apply nametbl_inv_update; [|exact Hi].
      now apply nametbl_inv_link.
  - intros type lower node port key publ tbl' reports.
    unfold tipc_nametbl_remove_publ.
    destruct (nametbl_find_seq tbl type) as [ns|] eqn:Hfind;
      [|now intros [= <- <- <-]].
    pose proof (remove_publ_spec in_own_node ns lower node port key
                  (nametbl_inv_find tbl type ns Hinv Hfind)) as Hspec.
    destruct (tipc_nameseq_remove_publ in_own_node ns lower node port key)
      as [[[r ns'] rep]|]; [|discriminate].
    assert (Hns' : nameseq_inv ns' = true).
    { destruct r as [p|].
      - destruct Hspec as [idx [_ [_ [H _]]]]. exact H.
      - destruct Hspec as [-> _].
        exact (nametbl_inv_find tbl type ns Hinv Hfind). }
    destruct ((first_free ns' =? 0) && _); intros [= <- <- <-].
    + now apply nametbl_inv_unlink.
    + now apply nametbl_inv_update.
  - intros type instance destnode port node tbl'.
    unfold tipc_nametbl_translate.
    destruct (negb (tipc_in_scope destnode own_addr));
      [now intros [= <- <- <-]|].
    destruct (nametbl_find_seq tbl type) as [ns|] eqn:Hfind;
      [|now intros [= <- <- <-]].
    pose proof (nametbl_inv_find tbl type ns Hinv Hfind) as Hns.
    destruct (nameseq_find_subseq ns instance) as [idx|] eqn:Hsub;
      [|now intros [= <- <- <-]].
    assert (Hbind : all_publ (sseq_info (sseq_at (sseqs ns) idx)) <> []).
    { pose proof Hns as H. apply nameseq_inv_spec in H.
      destruct H as [Hb [_ Hbind]]. apply array_bounds_spec in Hb.
      destruct (find_subseq_range ns instance idx Hb Hsub) as [Hidx _].
      specialize (Hbind idx Hidx). unfold has_binding in Hbind.
      destruct (all_publ (sseq_info (sseq_at (sseqs ns) idx)));
        [discriminate|discriminate]. }
    cbv zeta. unfold first_entry_move_tail.
    destruct (destnode =? 0); [|destruct (destnode =? own_addr)];
      destruct (local_publ (sseq_info (sseq_at (sseqs ns) idx)));
      destruct (all_publ (sseq_info (sseq_at (sseqs ns) idx))) eqn:Hall;
      try discriminate; intros [= <- <- <-]; try exact Hinv;
      apply nametbl_inv_update; try exact Hinv;
      apply (set_info_keeps_inv ns instance); auto; cbn [all_publ];
      try discriminate; try (now destruct l0); try (now destruct l).
  - intros type instance scope dsts exclude all ok.
    unfold tipc_nametbl_lookup.
    destruct (nametbl_find_seq tbl type) as [ns|] eqn:Hfind;
      [|exact Hinv].
    pose proof (nametbl_inv_find tbl type ns Hinv Hfind) as Hns.
    destruct (nameseq_find_subseq ns instance) as [idx|] eqn:Hsub;
      [|exact Hinv].
    pose proof (lookup_loop_length own_addr scope exclude all
                  (all_publ (sseq_info (sseq_at (sseqs ns) idx))) ok dsts 0)
      as Hl.
    destruct (lookup_loop own_addr _ scope exclude all ok dsts 0)
      as [[d c] l'].
    cbn [snd] in *. apply nametbl_inv_update; [exact Hinv|].
    apply (set_info_keeps_inv ns instance); auto. cbn [all_publ].
    pose proof Hns as H. apply nameseq_inv_spec in H.
    destruct H as [Hb [_ Hbind]]. apply array_bounds_spec in Hb.
    destruct (find_subseq_range ns instance idx Hb Hsub) as [Hidx _].
    specialize (Hbind idx Hidx). unfold has_binding in Hbind.
    destruct (all_publ (sseq_info (sseq_at (sseqs ns) idx)));
      [discriminate|]. destruct l'; [discriminate|discriminate].
Qed.

End TableInvariant.

Lemma nametbl_calls_keep_invariant_witness :
  nametbl_inv three_ranges = true /\
  nametbl_inv
    (snd (fst (tipc_nametbl_insert_publ sample_max_scope sample_in_own_node
                 three_ranges 10 3 4 0 9 103 1 allocs_succeed))) = true.
Proof.
  split; [reflexivity|].
  apply (proj1 (nametbl_calls_keep_invariant sample_own sample_max_scope
                  sample_in_own_node sample_in_scope three_ranges eq_refl));
    [reflexivity|].
  intros ns H. vm_compute in H. injection H as <-.
  vm_compute. discriminate.
Defined.

Lemma set_info_same nseq idx :
  0 <= idx < Z.of_nat (length (sseqs nseq)) ->
  set_info nseq idx (sseq_info (sseq_at (sseqs nseq) idx)) = nseq.
Proof.
  intros Hidx. destruct nseq as [ty a al ff subs]. cbn [sseqs] in *.
  unfold set_info, set_sseqs.
  cbn [sseqs ns_type alloc first_free subscriptions].
  f_equal. apply sseq_list_ext.
  - now rewrite length_sseq_set.
  - intros j Hj. rewrite length_sseq_set in Hj.
    rewrite sseq_at_set by lia.
    destruct (Z.eqb_spec j idx) as [->|]; [|reflexivity].
    now destruct (sseq_at a idx).
Qed.

Section OneDestination.

Variable own_addr : Z.

(** X11.  A lookup for one destination ([all] false) takes the first
    publication on the all_publ list of the sub-sequence that has the
    requested scope and is not the excluded port of this node: the ones
    before it are passed over and keep their places, the chosen one is
    pushed on the destination list and moved to the tail of all_publ, the
    count is 1 and local_publ is not touched.  When the list holds no such
    publication the count is 0 and the destination list and the table are
    as before. *)
Theorem lookup_first_acceptable tbl type instance idx i scope dsts exclude
        ok :
  binding_at tbl type instance idx i ->
  let acc := acceptable own_addr scope exclude in
  match find acc (all_publ i) with
  | None =>
    tipc_nametbl_lookup own_addr tbl type instance scope dsts exclude false ok
    = (match dsts with [] => false | _ :: _ => true end, dsts, 0, tbl)
  | Some p =>
    let d := snd (tipc_dest_push dsts (publ_node p) (publ_port p)
                    (ok (first_index acc (all_publ i)))) in
    exists tbl' a b,
      tipc_nametbl_lookup own_addr tbl type instance scope dsts exclude
                          false ok
      = (match d with [] => false | _ :: _ => true end, d, 1, tbl') /\
      binding_at tbl' type instance idx
        (mk_name_info (local_publ i) (a ++ b ++ [p])) /\
      all_publ i = a ++ p :: b /\
      forallb (fun q => negb (acc q)) a = true /\ acc p = true /\
      first_index acc (all_publ i) = length a
  end.
Proof.
  intros Hb acc. pose proof Hb as Hb'.
  destruct Hb' as [nseq [Hlen [Hfind [Hbounds [Hsub Hi]]]]].
  unfold tipc_nametbl_lookup. rewrite Hfind, Hsub, Hi.
  rewrite lookup_loop_one. fold acc.
  destruct (find acc (all_publ i)) as [p|] eqn:Hf.
  - destruct (move_first_tail_split acc (all_publ i) p Hf)
      as [a [b [Hl [Ha [Hp [Hm Hidx]]]]]].
    cbv zeta. eexists. exists a, b.
    split; [reflexivity|]. rewrite Hm.
    split; [now apply binding_at_update with (i := i)|]. auto.
  - f_equal.
    replace (mk_name_info (local_publ i) (all_publ i)) with i
      by now destruct i.
    rewrite <- Hi, set_info_same.
    + now apply update_seq_same.
    + apply array_bounds_spec in Hbounds.
      destruct (find_subseq_range nseq instance idx
                  ltac:(now apply array_bounds_spec) Hsub) as [Hidx _].
      lia.
Qed.

End OneDestination.

Lemma lookup_first_acceptable_witness :
  binding_at own_first 10 5 0
    (mk_name_info [sample_publ 5 5 sample_own 100 2]
                  [sample_publ 5 5 sample_own 100 2;
                   sample_publ 5 5 9 200 1]) /\
  fst (tipc_nametbl_lookup sample_own own_first 10 5 0 [] 100 false
                           (fun _ => true))
  = (true, [dest_value 9 200], 1).
Proof.
  assert (Hb : binding_at own_first 10 5 0
                 (mk_name_info [sample_publ 5 5 sample_own 100 2]
                               [sample_publ 5 5 sample_own 100 2;
                                sample_publ 5 5 9 200 1])).
  { eexists. split; [reflexivity|]. split; [reflexivity|].
    split; [reflexivity|]. split; reflexivity. }
  split; [exact Hb|].
  destruct (lookup_first_acceptable sample_own own_first 10 5 0 _ 0 [] 100
              (fun _ => true) Hb)
    as [tbl' [a [b [H _]]]].
  rewrite H. reflexivity.
Defined.

(** ** Withdrawals *)

Lemma unlink_store_seq type ns' b :
  ns_type ns' = type ->
  unlink_seq type (store_seq type ns' b) = unlink_seq type b.
Proof.
  intros Hty. induction b as [|ns r IH]; [reflexivity|].
  cbn [store_seq unlink_seq]. destruct (ns_type ns =? type) eqn:E.
  - cbn [unlink_seq]. now rewrite Hty, Z.eqb_refl.
  - cbn [unlink_seq]. now rewrite E, IH.
Qed.

Lemma store_seq_twice type ns' ns'' b :
  ns_type ns' = type ->
  store_seq type ns'' (store_seq type ns' b) = store_seq type ns'' b.
Proof.
  intros Hty. induction b as [|ns r IH]; [reflexivity|].
  cbn [store_seq]. destruct (ns_type ns =? type) eqn:E.
  - cbn [store_seq]. now rewrite Hty, Z.eqb_refl.
  - cbn [store_seq]. now rewrite E, IH.
Qed.

Lemma bucket_of_update tbl type ns' :
  Z.of_nat (length (seq_hlist tbl)) = TIPC_NAMETBL_SIZE ->
  bucket_of (update_seq tbl type ns') (hash (s32 type))
  = store_seq type ns' (bucket_of tbl (hash (s32 type))).
Proof.
  intros Hlen. unfold update_seq. apply bucket_of_set_bucket.
  rewrite Hlen. apply hash_range.
Qed.

Lemma update_seq_twice tbl type ns' ns'' :
  Z.of_nat (length (seq_hlist tbl)) = TIPC_NAMETBL_SIZE ->
  ns_type ns' = type ->
  update_seq (update_seq tbl type ns') type ns'' = update_seq tbl type ns''.
Proof.
  intros Hlen Hty. unfold update_seq at 1.
  rewrite bucket_of_update by exact Hlen.
  rewrite store_seq_twice by exact Hty.
  unfold update_seq. apply set_bucket_twice.
  rewrite Hlen. apply hash_range.
Qed.

Lemma unlink_after_update tbl type ns' :
  Z.of_nat (length (seq_hlist tbl)) = TIPC_NAMETBL_SIZE ->
  ns_type ns' = type ->
  set_bucket (update_seq tbl type ns') (hash (s32 type))
    (unlink_seq type (bucket_of (update_seq tbl type ns') (hash (s32 type))))
  = set_bucket tbl (hash (s32 type))
      (unlink_seq type (bucket_of tbl (hash (s32 type)))).
Proof.
  intros Hlen Hty. rewrite bucket_of_update by exact Hlen.
  rewrite unlink_store_seq by exact Hty.
  unfold update_seq. apply set_bucket_twice.
  rewrite Hlen. apply hash_range.
Qed.

Lemma remove_publ_none in_own_node nseq inst node port key nseq' reports :
  tipc_nameseq_remove_publ in_own_node nseq inst node port key
  = Some (None, nseq', reports) ->
  nseq' = nseq /\ reports = [] /\
  match nameseq_find_subseq nseq inst with
  | None => True
  | Some idx =>
    find (publ_matches node port key)
         (all_publ (sseq_info (sseq_at (sseqs nseq) idx))) = None
  end.
Proof.
  unfold tipc_nameseq_remove_publ.
  destruct (nameseq_find_subseq nseq inst) as [idx|];
    [|intros [= <- <-]; auto].
  destruct (find _ _) as [publ|]; [|intros [= <- <-]; auto].
  destruct (if in_own_node node then _ else _); [|discriminate].
  destruct (list_del_first _ _); discriminate.
Qed.

(** Whether tipc_nametbl_remove_publ unlinks a sequence it is done with. *)
Lemma remove_publ_table in_own_node tbl type lower node port key seq :
  nametbl_find_seq tbl type = Some seq ->
  tipc_nametbl_remove_publ in_own_node tbl type lower node port key
  = match tipc_nameseq_remove_publ in_own_node seq lower node port key with
    | None => None
    | Some (publ, seq', reports) =>
      Some (publ,
            if (first_free seq' =? 0) &&
               match subscriptions seq' with [] => true | _ :: _ => false end
            then set_bucket tbl (hash (s32 type))
                   (unlink_seq type (bucket_of tbl (hash (s32 type))))
            else update_seq tbl type seq',
            reports)
    end.
Proof.
  intros Hfind. unfold tipc_nametbl_remove_publ. rewrite Hfind.
  destruct (tipc_nameseq_remove_publ in_own_node seq lower node port key)
    as [[[publ seq'] reports]|]; [|reflexivity].
  destruct ((first_free seq' =? 0) && _); reflexivity.
Qed.

Section Withdraw.

Variable TIPC_NODE_SCOPE : Z.
Variable in_own_node : Z -> bool.

(** X12.  A withdrawal that returns no publication reports nothing.  It
    returns none exactly when the table has no sequence of the type, or no
    sub-sequence holding [lower], or no publication there with this port
    and key whose node is [node] or zero.  Even so it can change the
    table: a sequence of the type that has no sub-sequence and no
    subscriber is unlinked from its chain; in every other case the table
    is as before. *)
Theorem withdraw_not_found tbl type lower node port key r tbl' reports :
  Z.of_nat (length (seq_hlist tbl)) = TIPC_NAMETBL_SIZE ->
  tipc_nametbl_remove_publ in_own_node tbl type lower node port key
  = Some (r, tbl', reports) ->
  (r = None <->
   match nametbl_find_seq tbl type with
   | None => True
   | Some seq =>
     match nameseq_find_subseq seq lower with
     | None => True
     | Some idx =>
       find (publ_matches node port key)
            (all_publ (sseq_info (sseq_at (sseqs seq) idx))) = None
     end
   end) /\
  (r = None ->
   reports = [] /\
   tbl' = match nametbl_find_seq tbl type with
          | None => tbl
          | Some seq =>
            if (first_free seq =? 0) &&
               match subscriptions seq with [] => true | _ :: _ => false end
            then set_bucket tbl (hash (s32 type))
                   (unlink_seq type (bucket_of tbl (hash (s32 type))))
            else tbl
          end).
Proof.
  intros Hlen.
  destruct (nametbl_find_seq tbl type) as [seq|] eqn:Hfind.
  - rewrite (remove_publ_table _ _ _ _ _ _ _ seq Hfind).
    destruct (tipc_nameseq_remove_publ in_own_node seq lower node port key)
      as [[[publ seq'] rep]|] eqn:Hrem; [|discriminate].
    intros [= <- <- <-]. split.
    + split.
      * intros ->. now apply remove_publ_none in Hrem.
      * intros H. destruct publ as [p|]; [|reflexivity]. exfalso.
        revert Hrem H. unfold tipc_nameseq_remove_publ.
        destruct (nameseq_find_subseq seq lower) as [idx|];
          [|discriminate].
        destruct (find _ _); [discriminate|]. discriminate.
    + intros ->. apply remove_publ_none in Hrem.
      destruct Hrem as [-> [-> _]]. split; [reflexivity|].
      destruct ((first_free seq =? 0) && _); [reflexivity|].
      now apply update_seq_same.
  - unfold tipc_nametbl_remove_publ. rewrite Hfind.
    intros [= <- <- <-]. repeat split.
Qed.

End Withdraw.

Lemma withdraw_not_found_witness :
  Z.of_nat (length (seq_hlist stale_table)) = TIPC_NAMETBL_SIZE /\
  nametbl_find_seq stale_table 10 = Some (tipc_nameseq_create 10) /\
  tipc_nametbl_remove_publ sample_in_own_node stale_table 10 5 sample_own
                           100 1
  = Some (None, tipc_nametbl_init, []) /\
  [] = @nil overlap_report /\
  tipc_nametbl_init
  = set_bucket stale_table (hash (s32 10))
      (unlink_seq 10 (bucket_of stale_table (hash (s32 10)))).
Proof.
  split; [reflexivity|]. split; [reflexivity|]. split; [reflexivity|].
  exact (proj2 (withdraw_not_found sample_in_own_node stale_table 10 5
                  sample_own 100 1 None tipc_nametbl_init [] eq_refl
                  eq_refl) eq_refl).
Defined.

Section PublishWithdraw.

Variable TIPC_NODE_SCOPE : Z.
Variable in_own_node : Z -> bool.

Lemma withdrawn_reports subs publ must :
  map withdrawn (report_subscriptions subs publ TIPC_PUBLISHED must)
  = report_subscriptions subs publ TIPC_WITHDRAWN must.
Proof.
  unfold report_subscriptions. rewrite map_map. reflexivity.
Qed.

(** X13.  On a well-formed table, withdrawing a publication right after
    tipc_nametbl_insert_publ returned it gives the publication back,
    sends every subscriber that got the PUBLISHED report the same report
    as WITHDRAWN, and restores the table: exactly, when the type was new
    (its sequence is created by the publish and unlinked again by the
    withdrawal) or when the range already had a sub-sequence; otherwise
    the sequence keeps its live sub-sequences and subscribers, and is
    unlinked if it has neither. *)
Theorem publish_withdraw_restores tbl type lower upper scope node port key
        al publ tbl1 reports :
  nametbl_inv tbl = true ->
  (forall ns, nametbl_find_seq tbl type = Some ns ->
              alloc ns * 2 <= max_alloc) ->
  tipc_nametbl_insert_publ TIPC_NODE_SCOPE in_own_node tbl
    type lower upper scope node port key al = (Some publ, tbl1, reports) ->
  forall inst, lower <= inst <= upper ->
  exists tbl2,
    tipc_nametbl_remove_publ in_own_node tbl1 type inst node port key
    = Some (Some publ, tbl2, map withdrawn reports) /\
    match nametbl_find_seq tbl type with
    | None => tbl2 = tbl
    | Some seq =>
      match nameseq_find_subseq seq lower with
      | Some _ => tbl2 = tbl
      | None =>
        if unused seq
        then tbl2 = set_bucket tbl (hash (s32 type))
                      (unlink_seq type (bucket_of tbl (hash (s32 type))))
        else exists seq2,
               tbl2 = update_seq tbl type seq2 /\
               live seq2 = live seq /\ first_free seq2 = first_free seq /\
               subscriptions seq2 = subscriptions seq /\
               nameseq_inv seq2 = true
      end
    end.
Proof.
  intros Hinv Hroom Hres inst Hinst.
  pose proof (nametbl_inv_length tbl Hinv) as Hlen.
  pose proof (hash_range (s32 type)) as Hh.
  revert Hres. unfold tipc_nametbl_insert_publ.
  destruct (Z.ltb_spec TIPC_NODE_SCOPE scope); [discriminate|].
  destruct (Z.ltb_spec upper lower); [discriminate|]. cbn [orb].
  destruct (nametbl_find_seq tbl type) as [seq|] eqn:Hfind.
  - pose proof (nametbl_inv_find tbl type seq Hinv Hfind) as Hseq.
    pose proof (find_seq_type tbl type seq Hfind) as Hty.
    destruct (tipc_nameseq_insert_publ in_own_node seq type lower upper
                scope node port key al) as [[p ns'] rep] eqn:Hins.
    intros [= -> <- ->].
    destruct (insert_publ_shape in_own_node seq type lower upper scope node
                port key al _ _ _ Hseq
                ltac:(lia) (Hroom seq eq_refl) Hins)
      as [_ [Hty' [_ [_ [_ Hcase]]]]].
    destruct (insert_remove_shape in_own_node seq type lower upper
                scope node port key al _ _ _ Hseq ltac:(lia)
                (Hroom seq eq_refl) Hins inst Hinst)
      as [ns'' [Hrem [Hlive [Hff [Hsub [Hty'' [Hinv'' Hsame]]]]]]].
    assert (Hf1 : nametbl_find_seq (update_seq tbl type ns') type = Some ns')
      by (apply (find_seq_update tbl type seq); auto; congruence).
    rewrite (remove_publ_table _ _ _ _ _ _ _ ns' Hf1), Hrem.
    assert (Hrep : map withdrawn reports
                   = report_subscriptions (subscriptions seq) publ
                       TIPC_WITHDRAWN
                       match nameseq_find_subseq seq lower with
                       | Some _ => false
                       | None => true
                       end).
    { destruct (nameseq_find_subseq seq lower);
        [destruct Hcase as [_ [_ [_ [_ [_ [_ ->]]]]]]
        |destruct Hcase as [_ [_ ->]]]; apply withdrawn_reports. }
    rewrite Hrep. eexists. split; [reflexivity|].
    change ((first_free ns'' =? 0) &&
            match subscriptions ns'' with [] => true | _ :: _ => false end)
      with (unused ns'').
    assert (Hun : unused ns'' = unused seq)
      by (unfold unused; now rewrite Hff, Hsub).
    rewrite Hun.
    destruct (nameseq_find_subseq seq lower) as [idx|] eqn:Hsubseq.
    + assert (Hnot : unused seq = false).
      { pose proof Hseq as H'. apply nameseq_inv_spec in H'.
        destruct H' as [Hb _]. apply array_bounds_spec in Hb.
        destruct (find_subseq_range seq lower idx Hb Hsubseq) as [Hidx _].
        unfold unused. destruct (Z.eqb_spec (first_free seq) 0); [lia|].
        reflexivity. }
      rewrite Hnot, (Hsame eq_refl).
      rewrite update_seq_twice by (auto; congruence).
      now apply update_seq_same.
    + destruct (unused seq).
      * apply unlink_after_update; auto. congruence.
      * exists ns''. split; [apply update_seq_twice; auto; congruence|].
        auto.
  - destruct (nseq_ok al && sseq_ok al); [|discriminate].
    set (b := bucket_of tbl (hash (s32 type))).
    set (tbl0 := set_bucket tbl (hash (s32 type))
                            (tipc_nameseq_create type :: b)).
    destruct (tipc_nameseq_insert_publ in_own_node
                (tipc_nameseq_create type) type lower upper
                scope node port key al) as [[p ns'] rep] eqn:Hins.
    intros [= -> <- ->].
    assert (Hlen0 : Z.of_nat (length (seq_hlist tbl0)) = TIPC_NAMETBL_SIZE)
      by (apply length_link_seq; auto).
    assert (Hf0 : nametbl_find_seq tbl0 type = Some (tipc_nameseq_create type))
      by (apply find_seq_link; auto).
    destruct (insert_publ_shape in_own_node (tipc_nameseq_create type) type
                lower upper scope node port key al _ _ _
                (nameseq_create_inv type) ltac:(lia)
                ltac:(vm_compute; discriminate) Hins)
      as [_ [Hty' [_ [_ [_ Hcase]]]]].
    destruct (insert_remove_shape in_own_node
                (tipc_nameseq_create type) type lower upper scope node
                port key al _ _ _ (nameseq_create_inv type) ltac:(lia)
                ltac:(vm_compute; discriminate) Hins inst Hinst)
      as [ns'' [Hrem [Hlive [Hff [Hsub [Hty'' [Hinv'' Hsame]]]]]]].
    cbn [tipc_nameseq_create ns_type first_free subscriptions] in *.
    assert (Hf1 : nametbl_find_seq (update_seq tbl0 type ns') type = Some ns')
      by (apply (find_seq_update tbl0 type (tipc_nameseq_create type));
          auto).
    rewrite (remove_publ_table _ _ _ _ _ _ _ ns' Hf1), Hrem.
    assert (Hrep : map withdrawn reports = []).
    { assert (Hn : nameseq_find_subseq (tipc_nameseq_create type) lower
                   = None) by reflexivity.
      rewrite Hn in Hcase. destruct Hcase as [_ [_ ->]]. reflexivity. }
    rewrite Hrep, Hff, Hsub. cbn [Z.eqb andb].
    eexists. split.
    + assert (Hn : nameseq_find_subseq (tipc_nameseq_create type) lower
                   = None) by reflexivity.
      rewrite Hn. reflexivity.
    + rewrite unlink_after_update by auto.
      unfold tbl0. rewrite bucket_of_set_bucket by lia.
      cbn [unlink_seq tipc_nameseq_create ns_type]. rewrite Z.eqb_refl.
      rewrite set_bucket_twice by lia. apply set_bucket_same. lia.
Qed.

End PublishWithdraw.

Lemma publish_withdraw_restores_witness :
  nametbl_inv three_ranges = true /\
  tipc_nametbl_remove_publ sample_in_own_node
    (snd (fst (tipc_nametbl_insert_publ sample_max_scope sample_in_own_node
                 three_ranges 10 5 6 0 9 104 4 allocs_succeed)))
    10 6 9 104 4
  = Some (Some (mk_publication 10 5 6 0 9 104 4), three_ranges, []).
Proof.
  split; [reflexivity|].
  destruct (publish_withdraw_restores sample_max_scope sample_in_own_node
              three_ranges 10 5 6 0 9 104 4 allocs_succeed
              (mk_publication 10 5 6 0 9 104 4)
              (snd (fst (tipc_nametbl_insert_publ sample_max_scope
                           sample_in_own_node three_ranges 10 5 6 0 9 104 4
                           allocs_succeed)))
              [] eq_refl
              ltac:(intros ns H; vm_compute in H; injection H as <-;
                    vm_compute; discriminate)
              eq_refl 6 ltac:(lia))
    as [tbl2 [H1 H2]].
  rewrite H1. vm_compute in H2. now rewrite H2.
Defined.

(** ** Subscribing and unsubscribing *)

Lemma nameseq_subscribe_seq no_status check nseq sub :
  fst (tipc_nameseq_subscribe no_status check nseq sub)
  = mk_name_seq (ns_type nseq) (sseqs nseq) (alloc nseq) (first_free nseq)
                (sub :: subscriptions nseq).
Proof.
  unfold tipc_nameseq_subscribe. now destruct (negb _).
Qed.

Lemma name_seq_eta nseq :
  mk_name_seq (ns_type nseq) (sseqs nseq) (alloc nseq) (first_free nseq)
              (subscriptions nseq) = nseq.
Proof. now destruct nseq. Qed.

Section SubscribeRoundTrip.

Variable TIPC_SUB_NO_STATUS : Z.
Variable tipc_sub_check_overlap : Z -> Z -> Z -> Z -> Z -> bool.

(** X14.  tipc_nametbl_subscribe puts the subscription at the head of the
    subscriber list of the sequence of its type, which it creates when the
    table has none, and leaves the sub-sequences alone; if the sequence
    cannot be created nothing changes and nothing is reported.
    tipc_nametbl_unsubscribe right after it takes the subscription off
    again and gives back the table as it was, a created sequence being
    unlinked again; only a sequence that had no sub-sequence and no
    subscriber before is unlinked as well. *)
Theorem subscribe_unsubscribe_round_trip tbl sub al :
  Z.of_nat (length (seq_hlist tbl)) = TIPC_NAMETBL_SIZE ->
  let type := sub_seq_type sub in
  let old := match nametbl_find_seq tbl type with
             | Some seq => seq
             | None => tipc_nameseq_create type
             end in
  let tbl1 := fst (tipc_nametbl_subscribe TIPC_SUB_NO_STATUS
                     tipc_sub_check_overlap tbl sub al) in
  (nametbl_find_seq tbl type = None -> nseq_ok al && sseq_ok al = false ->
   tipc_nametbl_subscribe TIPC_SUB_NO_STATUS tipc_sub_check_overlap tbl sub al
   = (tbl, [])) /\
  (nametbl_find_seq tbl type <> None \/ nseq_ok al && sseq_ok al = true ->
   nametbl_find_seq tbl1 type
   = Some (mk_name_seq type (sseqs old) (alloc old) (first_free old)
                       (sub :: subscriptions old)) /\
   tipc_nametbl_unsubscribe tbl1 sub
   = Some match nametbl_find_seq tbl type with
          | Some seq =>
            if unused seq
            then set_bucket tbl (hash (s32 type))
                   (unlink_seq type (bucket_of tbl (hash (s32 type))))
            else tbl
          | None => tbl
          end).
Proof.
  intros Hlen type old tbl1.
  pose proof (hash_range (s32 type)) as Hh.
  split.
  - intros Hnone Hal. unfold tipc_nametbl_subscribe. fold type.
    now rewrite Hnone, Hal.
  - intros Hcan. unfold tbl1, old, tipc_nametbl_subscribe. fold type.
    destruct (nametbl_find_seq tbl type) as [seq|] eqn:Hfind.
    + pose proof (find_seq_type tbl type seq Hfind) as Hty.
      pose proof (nameseq_subscribe_seq TIPC_SUB_NO_STATUS
                    tipc_sub_check_overlap seq sub) as Hs.
      destruct (tipc_nameseq_subscribe TIPC_SUB_NO_STATUS
                  tipc_sub_check_overlap seq sub) as [ns' rep].
      cbn [fst] in *. subst ns'. rewrite Hty.
      assert (Hf1 : nametbl_find_seq
                      (update_seq tbl type
                         (mk_name_seq type (sseqs seq) (alloc seq)
                            (first_free seq) (sub :: subscriptions seq)))
                      type
                    = Some (mk_name_seq type (sseqs seq) (alloc seq)
                              (first_free seq) (sub :: subscriptions seq)))
        by (apply (find_seq_update tbl type seq); auto).
      split; [exact Hf1|].
      unfold tipc_nametbl_unsubscribe. fold type. rewrite Hf1.
      cbn [subscriptions existsb sub_unlink first_free sseqs alloc ns_type].
      rewrite Z.eqb_refl. cbn [orb].
      fold (unused seq). destruct (unused seq).
      * f_equal. now apply unlink_after_update.
      * f_equal. rewrite update_seq_twice by auto.
        rewrite <- Hty, name_seq_eta. rewrite Hty.
        now apply update_seq_same.
    + destruct Hcan as [Hcan|Hcan]; [congruence|]. rewrite Hcan.
      pose proof (nameseq_subscribe_seq TIPC_SUB_NO_STATUS
                    tipc_sub_check_overlap (tipc_nameseq_create type) sub)
        as Hs.
      destruct (tipc_nameseq_subscribe TIPC_SUB_NO_STATUS
                  tipc_sub_check_overlap (tipc_nameseq_create type) sub)
        as [ns' rep].
      cbn [fst] in *. subst ns'.
      cbn [tipc_nameseq_create ns_type sseqs alloc first_free subscriptions].
      set (tbl0 := set_bucket tbl (hash (s32 type))
                     (tipc_nameseq_create type
                      :: bucket_of tbl (hash (s32 type)))).
      assert (Hlen0 : Z.of_nat (length (seq_hlist tbl0)) = TIPC_NAMETBL_SIZE)
        by (apply length_link_seq; auto).
      assert (Hf0 : nametbl_find_seq tbl0 type
                    = Some (tipc_nameseq_create type))
        by (apply find_seq_link; auto).
      assert (Hf1 : nametbl_find_seq
                      (update_seq tbl0 type
                         (mk_name_seq type (tipc_subseq_alloc 1) 1 0 [sub]))
                      type
                    = Some (mk_name_seq type (tipc_subseq_alloc 1) 1 0 [sub]))
        by (apply (find_seq_update tbl0 type (tipc_nameseq_create type));
            auto).
      split; [exact Hf1|].
      unfold tipc_nametbl_unsubscribe. fold type. rewrite Hf1.
      cbn [subscriptions existsb sub_unlink first_free sseqs alloc ns_type].
      rewrite Z.eqb_refl. cbn [orb Z.eqb andb]. f_equal.
      rewrite unlink_after_update by auto.
      unfold tbl0. rewrite bucket_of_set_bucket by lia.
      cbn [unlink_seq tipc_nameseq_create ns_type]. rewrite Z.eqb_refl.
      rewrite set_bucket_twice by lia. apply set_bucket_same. lia.
Qed.

End SubscribeRoundTrip.

Lemma subscribe_unsubscribe_round_trip_witness :
  Z.of_nat (length (seq_hlist once_bound)) = TIPC_NAMETBL_SIZE /\
  tipc_nametbl_unsubscribe
    (fst (tipc_nametbl_subscribe sample_no_status sample_check_overlap
            once_bound sample_sub allocs_succeed)) sample_sub
  = Some once_bound.
Proof.
  split; [reflexivity|].
  exact (proj2 (proj2 (subscribe_unsubscribe_round_trip sample_no_status
                         sample_check_overlap once_bound sample_sub
                         allocs_succeed eq_refl)
                      (or_intror eq_refl))).
Defined.

(** ** Who sees a publication *)

Lemma build_group_publs_spec scope l :
  build_group_publs l scope
  = map group_member (filter (fun p => publ_scope p =? scope) l).
Proof.
  induction l as [|p r IH]; [reflexivity|].
  cbn [build_group_publs filter].
  destruct (publ_scope p =? scope); cbn [negb map]; now rewrite IH.
Qed.

Lemma build_group_scan_slice scope a : forall n k,
  (k + n <= length a)%nat ->
  build_group_scan a n (Z.of_nat k) scope
  = flat_map (fun s => map group_member
                         (filter (fun p => publ_scope p =? scope)
                                 (all_publ (sseq_info s))))
             (firstn n (skipn k a)).
Proof.
  induction n as [|n IH]; intros k Hk; [reflexivity|].
  cbn [build_group_scan]. rewrite skipn_nth_cons by lia.
  cbn [firstn flat_map]. unfold sseq_at at 1. rewrite Nat2Z.id.
  rewrite build_group_publs_spec. f_equal.
  replace (Z.of_nat k + 1) with (Z.of_nat (S k)) by lia.
  apply IH. lia.
Qed.

Lemma build_group_live tbl type scope seq :
  nametbl_find_seq tbl type = Some seq -> array_bounds seq = true ->
  tipc_nametbl_build_group tbl type scope
  = flat_map (fun s => map group_member
                         (filter (fun p => publ_scope p =? scope)
                                 (all_publ (sseq_info s))))
             (live seq).
Proof.
  intros Hfind Hb. apply array_bounds_spec in Hb.
  unfold tipc_nametbl_build_group. rewrite Hfind.
  apply (build_group_scan_slice scope (sseqs seq)
           (Z.to_nat (first_free seq)) 0). lia.
Qed.

(** X15.  tipc_nametbl_build_group hands to tipc_group_add_member, in
    array and list order, node, port and lower bound of every publication
    with the requested scope on the all_publ lists of the live
    sub-sequences of the type: it never reads a slot at or after
    first_free, adds one member per such publication, none for a
    publication of another scope, and none at all for a type the table
    does not hold. *)
Theorem build_group_members tbl type scope :
  (nametbl_find_seq tbl type = None ->
   tipc_nametbl_build_group tbl type scope = []) /\
  (forall seq,
     nametbl_find_seq tbl type = Some seq -> array_bounds seq = true ->
     tipc_nametbl_build_group tbl type scope
     = flat_map (fun s => map group_member
                            (filter (fun p => publ_scope p =? scope)
                                    (all_publ (sseq_info s))))
                (live seq) /\
     (forall m,
        In m (tipc_nametbl_build_group tbl type scope) <->
        exists s p,
          In s (live seq) /\ In p (all_publ (sseq_info s)) /\
          publ_scope p = scope /\ m = group_member p)).
Proof.
  split.
  - intros H. unfold tipc_nametbl_build_group. now rewrite H.
  - intros seq Hfind Hb.
    rewrite (build_group_live tbl type scope seq Hfind Hb).
    split; [reflexivity|]. intros m. rewrite in_flat_map. split.
    + intros [s [Hs Hm]]. apply in_map_iff in Hm.
      destruct Hm as [p [<- Hp]]. apply filter_In in Hp.
      destruct Hp as [Hp Hsc]. apply Z.eqb_eq in Hsc.
      exists s, p. auto.
    + intros [s [p [Hs [Hp [Hsc ->]]]]]. exists s. split; [exact Hs|].
      apply in_map. apply filter_In. split; [exact Hp|].
      now apply Z.eqb_eq.
Qed.

Lemma build_group_members_witness :
  nametbl_find_seq three_ranges 10 = Some three_ranges_seq /\
  array_bounds three_ranges_seq = true /\
  tipc_nametbl_build_group three_ranges 10 0
  = [(sample_own, 100, 1); (sample_own, 101, 5); (9, 102, 8)].
Proof.
  split; [reflexivity|]. split; [reflexivity|].
  exact (proj1 (proj2 (build_group_members three_ranges 10 0)
                      three_ranges_seq eq_refl eq_refl)).
Defined.

Lemma live_in nseq i :
  0 <= i < first_free nseq ->
  first_free nseq <= Z.of_nat (length (sseqs nseq)) ->
  In (sseq_at (sseqs nseq) i) (live nseq).
Proof.
  intros Hi Hlen. rewrite <- (sseq_at_firstn (sseqs nseq) (first_free nseq))
    by lia.
  unfold sseq_at, live. apply nth_In. rewrite length_firstn. lia.
Qed.

Lemma mc_lookup_walk tbl type lower upper scope exact dports ok seq :
  nametbl_find_seq tbl type = Some seq -> nameseq_inv seq = true ->
  tipc_nametbl_mc_lookup tbl type lower upper scope exact dports ok
  = Some (push_ports (flat_map (mc_ports scope exact)
                               (overlapping seq lower upper)) ok O dports).
Proof.
  intros Hfind Hinv.
  destruct (scan_visit_overlapping seq lower upper Hinv) as [Hs Hvisit].
  unfold tipc_nametbl_mc_lookup. rewrite Hfind. cbv zeta.
  destruct (Z.leb_spec (nameseq_locate_subseq seq lower) (first_free seq));
    [|lia].
  now rewrite mc_scan_spec, Hvisit.
Qed.

Lemma dst_nodes_walk tbl type lower upper seq :
  nametbl_find_seq tbl type = Some seq -> nameseq_inv seq = true ->
  tipc_nametbl_lookup_dst_nodes tbl type lower upper
  = Some (flat_map (fun s => map publ_node (all_publ (sseq_info s)))
                   (overlapping seq lower upper)).
Proof.
  intros Hfind Hinv. unfold tipc_nametbl_lookup_dst_nodes.
  rewrite Hfind. cbv zeta.
  destruct (scan_visit_overlapping seq lower upper Hinv) as [Hs Hvisit].
  destruct (Z.leb_spec (nameseq_locate_subseq seq lower) (first_free seq));
    [|lia].
  now rewrite dst_nodes_scan_spec, Hvisit.
Qed.

Section Visible.

Variable TIPC_NODE_SCOPE : Z.
Variable in_own_node : Z -> bool.

(** What a successful tipc_nametbl_insert_publ did: it ran
    tipc_nameseq_insert_publ on the sequence of the type, found or
    created, and stored the result. *)
Lemma insert_publ_table_success tbl type lower upper scope node port key al
      publ tbl1 reports :
  nametbl_inv tbl = true ->
  (forall ns, nametbl_find_seq tbl type = Some ns ->
              alloc ns * 2 <= max_alloc) ->
  tipc_nametbl_insert_publ TIPC_NODE_SCOPE in_own_node tbl
    type lower upper scope node port key al = (Some publ, tbl1, reports) ->
  lower <= upper /\ scope <= TIPC_NODE_SCOPE /\
  exists ns ns',
    ns = match nametbl_find_seq tbl type with
         | Some seq => seq
         | None => tipc_nameseq_create type
         end /\
    nameseq_inv ns = true /\ alloc ns * 2 <= max_alloc /\
    tipc_nameseq_insert_publ in_own_node ns type lower upper scope node port
                             key al = (Some publ, ns', reports) /\
    nametbl_find_seq tbl1 type = Some ns'.
Proof.
  intros Hinv Hroom.
  pose proof (nametbl_inv_length tbl Hinv) as Hlen.
  pose proof (hash_range (s32 type)) as Hh.
  unfold tipc_nametbl_insert_publ.
  destruct (Z.ltb_spec TIPC_NODE_SCOPE scope); [discriminate|].
  destruct (Z.ltb_spec upper lower); [discriminate|]. cbn [orb].
  destruct (nametbl_find_seq tbl type) as [seq|] eqn:Hfind.
  - pose proof (insert_publ_type in_own_node seq type lower upper scope node
                  port key al) as Hty.
    destruct (tipc_nameseq_insert_publ in_own_node seq type lower upper
                scope node port key al) as [[p ns'] rep] eqn:Hins.
    intros [= -> <- ->]. cbn [fst snd] in Hty.
    split; [lia|]. split; [lia|]. exists seq, ns'.
    split; [reflexivity|].
    split; [exact (nametbl_inv_find tbl type seq Hinv Hfind)|].
    split; [exact (Hroom seq eq_refl)|]. split; [exact Hins|].
    apply (find_seq_update tbl type seq); auto.
    rewrite Hty. exact (find_seq_type tbl type seq Hfind).
  - destruct (nseq_ok al && sseq_ok al); [|discriminate].
    pose proof (insert_publ_type in_own_node (tipc_nameseq_create type)
                  type lower upper scope node port key al) as Hty.
    destruct (tipc_nameseq_insert_publ in_own_node
                (tipc_nameseq_create type) type lower upper
                scope node port key al) as [[p ns'] rep] eqn:Hins.
    intros [= -> <- ->]. cbn [fst snd] in Hty.
    split; [lia|]. split; [lia|]. exists (tipc_nameseq_create type), ns'.
    split; [reflexivity|]. split; [reflexivity|].
    split; [vm_compute; discriminate|]. split; [exact Hins|].
    apply (find_seq_update _ type (tipc_nameseq_create type)); auto.
    + apply length_link_seq; auto.
    + apply find_seq_link; auto.
Qed.

(** X16.  A publication that tipc_nametbl_insert_publ returned is seen by
    every walk over the table: tipc_nametbl_build_group for its scope adds
    its node, port and lower bound as a member;
    tipc_nametbl_lookup_dst_nodes for any range that meets its range adds
    its node; and when it is a publication of this node,
    tipc_nametbl_mc_lookup for such a range and its scope leaves its port
    on the destination list, if the allocations of the pushes succeed. *)
Theorem published_is_visible tbl type lower upper scope node port key al
        publ tbl1 reports :
  nametbl_inv tbl = true ->
  (forall ns, nametbl_find_seq tbl type = Some ns ->
              alloc ns * 2 <= max_alloc) ->
  tipc_nametbl_insert_publ TIPC_NODE_SCOPE in_own_node tbl
    type lower upper scope node port key al = (Some publ, tbl1, reports) ->
  In (node, port, lower) (tipc_nametbl_build_group tbl1 type scope) /\
  (forall lo up, lo <= upper -> lower <= up ->
     (exists nodes,
        tipc_nametbl_lookup_dst_nodes tbl1 type lo up = Some nodes /\
        In node nodes) /\
     (in_own_node node = true ->
      forall exact dports,
      exists d,
        tipc_nametbl_mc_lookup tbl1 type lo up scope exact dports
                               (fun _ => true) = Some d /\
        In (dest_value 0 port) d)).
Proof.
  intros Hinv Hroom Hres.
  destruct (insert_publ_table_success _ _ _ _ _ _ _ _ _ _ _ _ Hinv Hroom
              Hres)
    as [Hrange [_ [ns [ns' [_ [Hns [Hal [Hins Hf1]]]]]]]].
  destruct (insert_publ_shape in_own_node ns type lower upper scope node port
              key al _ _ _ Hns Hrange Hal Hins)
    as [Hp [_ [_ [Hinv' _]]]].
  destruct (insert_publ_found in_own_node ns type lower upper scope node port
              key al _ _ _ Hns Hrange Hal Hins)
    as [Hpos [Hat _]].
  set (old := match nameseq_find_subseq ns lower with
              | Some _ =>
                sseq_info (sseq_at (sseqs ns) (nameseq_locate_subseq ns lower))
              | None => mk_name_info [] []
              end) in *.
  set (new := mk_sub_seq lower upper (linked in_own_node publ old)) in *.
  pose proof Hinv' as Hb. apply nameseq_inv_spec in Hb.
  destruct Hb as [Hb _].
  assert (Hlive : In new (live ns'))
    by (rewrite <- Hat; apply live_in; lia).
  assert (Hscope : publ_scope publ = scope) by now rewrite Hp.
  assert (Hnode : publ_node publ = node) by now rewrite Hp.
  split.
  - rewrite (build_group_live tbl1 type scope ns' Hf1)
      by (apply array_bounds_spec; exact Hb).
    apply in_flat_map. exists new. split; [exact Hlive|].
    unfold new, linked. cbn [sseq_info all_publ filter].
    rewrite Hscope, Z.eqb_refl. left. now rewrite Hp.
  - intros lo up Hlo Hup.
    assert (Hov : In new (overlapping ns' lo up)).
    { unfold overlapping. apply filter_In. split; [exact Hlive|].
      unfold overlaps, new. cbn [sseq_lower sseq_upper].
      apply andb_true_iff. rewrite !Z.leb_le. lia. }
    split.
    + eexists. split; [exact (dst_nodes_walk tbl1 type lo up ns' Hf1 Hinv')|].
      apply in_flat_map. exists new. split; [exact Hov|].
      unfold new, linked. cbn [sseq_info all_publ map]. left. exact Hnode.
    + intros Hown exact dports. eexists.
      split; [exact (mc_lookup_walk tbl1 type lo up scope exact dports
                      (fun _ => true) ns' Hf1 Hinv')|].
      apply push_ports_in. right. apply in_map.
      apply in_flat_map. exists new. split; [exact Hov|].
      unfold mc_ports, new, linked. cbn [sseq_info local_publ].
      rewrite Hnode, Hown. cbn [filter]. unfold mc_accepts at 1.
      rewrite Hscope, Z.eqb_refl. cbn [orb map]. left. now rewrite Hp.
Qed.

End Visible.

Lemma published_is_visible_witness :
  nametbl_inv three_ranges = true /\
  In (sample_own, 104, 3)
     (tipc_nametbl_build_group
        (snd (fst (tipc_nametbl_insert_publ sample_max_scope
                     sample_in_own_node three_ranges 10 3 4 0 sample_own
                     104 4 allocs_succeed))) 10 0).
Proof.
  split; [reflexivity|].
  exact (proj1 (published_is_visible sample_max_scope sample_in_own_node
                  three_ranges 10 3 4 0 sample_own 104 4 allocs_succeed
                  (mk_publication 10 3 4 0 sample_own 104 4)
                  (snd (fst (tipc_nametbl_insert_publ sample_max_scope
                               sample_in_own_node three_ranges 10 3 4 0
                               sample_own 104 4 allocs_succeed)))
                  [] eq_refl
                  ltac:(intros ns H; vm_compute in H; injection H as <-;
                        vm_compute; discriminate)
                  eq_refl)).
Defined.

(** ** Withdrawals never meet an unlinked publication *)

Lemma publ_eqb_eq p q : publ_eqb p q = true <-> p = q.
Proof.
  unfold publ_eqb. rewrite !andb_true_iff, !Z.eqb_eq.
  destruct p, q. cbn. split.
  - intros [[[[[[-> ->] ->] ->] ->] ->] ->]. reflexivity.
  - intros [= -> -> -> -> -> -> ->]. repeat split.
Qed.

Lemma in_list_del_first (f : publication -> bool) l p :
  In p (list_del_first f l) -> In p l.
Proof.
  induction l as [|q r IH]; [auto|]. cbn [list_del_first].
  destruct (f q); cbn [In]; tauto.
Qed.

Lemma NoDup_list_del_first (f : publication -> bool) l :
  NoDup l -> NoDup (list_del_first f l).
Proof.
  induction 1 as [|q r Hq Hr IH]; [constructor|]. cbn [list_del_first].
  destruct (f q); [exact Hr|]. constructor; [|exact IH].
  intros H. apply Hq. now apply in_list_del_first in H.
Qed.

Lemma found_not_in_rest (f : publication -> bool) l x :
  NoDup l -> find f l = Some x -> ~ In x (list_del_first f l).
Proof.
  induction 1 as [|q r Hq Hr IH]; [discriminate|].
  cbn [find list_del_first]. destruct (f q).
  - intros [= <-]. exact Hq.
  - intros Hf [<-|Hin]; [|now apply IH].
    apply Hq. apply find_some in Hf. tauto.
Qed.

Lemma in_list_del_first_other (f : publication -> bool) l p :
  In p l -> f p = false -> In p (list_del_first f l).
Proof.
  intros Hin Hf. induction l as [|q r IH]; [auto|].
  cbn [list_del_first]. destruct (f q) eqn:E.
  - destruct Hin as [<-|Hin]; [congruence|exact Hin].
  - destruct Hin as [<-|Hin]; [now left|right; auto].
Qed.

Lemma Forall_slices (P : sub_seq -> Prop) n l :
  Forall P l -> Forall P (firstn n l) /\ Forall P (skipn n l).
Proof.
  intros H. rewrite <- (firstn_skipn n l) in H. now apply Forall_app in H.
Qed.

Lemma Forall_delete_at (P : sub_seq -> Prop) idx l :
  Forall P l -> Forall P (delete_at idx l).
Proof.
  intros H. unfold delete_at. apply Forall_app. split.
  - now apply Forall_slices.
  - now apply Forall_slices.
Qed.

Lemma Forall_replace_at (P : sub_seq -> Prop) pos x l :
  Forall P l -> P x -> Forall P (replace_at pos x l).
Proof.
  intros H Hx. unfold replace_at. apply Forall_app. split.
  - now apply Forall_slices.
  - constructor; [exact Hx|now apply Forall_slices].
Qed.

Lemma Forall_insert_at (P : sub_seq -> Prop) pos x l :
  Forall P l -> P x -> Forall P (insert_at pos x l).
Proof.
  intros H Hx. unfold insert_at. apply Forall_app. split.
  - now apply Forall_slices.
  - constructor; [exact Hx|now apply Forall_slices].
Qed.

Section NoFault.

Variable in_own_node : Z -> bool.
Hypothesis own_zero : in_own_node 0 = true.

(** The publication a withdrawal stops at is on local_publ whenever the
    withdrawal goes on to unlink it from there. *)
Lemma matched_is_local s node port key publ :
  lists_agree in_own_node s ->
  find (publ_matches node port key) (all_publ (sseq_info s)) = Some publ ->
  in_own_node node = true ->
  existsb (publ_eqb publ) (local_publ (sseq_info s)) = true.
Proof.
  intros [_ Hloc] Hf Hown. apply find_some in Hf. destruct Hf as [Hin Hm].
  apply existsb_exists. exists publ. split; [|apply publ_eqb_refl].
  apply Hloc; [exact Hin|].
  unfold publ_matches in Hm. rewrite !andb_true_iff, orb_true_iff in Hm.
  destruct Hm as [_ [H|H]]; apply Z.eqb_eq in H; rewrite H; auto.
Qed.

Lemma lists_agree_removed s node port key publ :
  lists_agree in_own_node s ->
  find (publ_matches node port key) (all_publ (sseq_info s)) = Some publ ->
  lists_agree in_own_node
    (mk_sub_seq (sseq_lower s) (sseq_upper s)
       (mk_name_info
          (if in_own_node node
           then list_del_first (publ_eqb publ) (local_publ (sseq_info s))
           else local_publ (sseq_info s))
          (list_del_first (publ_matches node port key)
                          (all_publ (sseq_info s))))).
Proof.
  intros [Hnd Hloc] Hf. unfold lists_agree. cbn [sseq_info all_publ local_publ].
  split; [now apply NoDup_list_del_first|].
  intros p Hp Hown.
  assert (Hne : p <> publ).
  { intros ->. now apply (found_not_in_rest _ _ _ Hnd Hf). }
  apply in_list_del_first in Hp. specialize (Hloc p Hp Hown).
  destruct (in_own_node node); [|exact Hloc].
  apply in_list_del_first_other; [exact Hloc|].
  destruct (publ_eqb publ p) eqn:E; [|reflexivity].
  apply publ_eqb_eq in E. congruence.
Qed.

Lemma lists_agree_linked s publ lower upper node port key :
  lists_agree in_own_node s ->
  existsb (publ_matches node port key) (all_publ (sseq_info s)) = false ->
  publ_node publ = node -> publ_port publ = port -> publ_key publ = key ->
  lists_agree in_own_node
    (mk_sub_seq lower upper (linked in_own_node publ (sseq_info s))).
Proof.
  intros [Hnd Hloc] Hdup Hn Hp Hk. unfold lists_agree, linked.
  cbn [sseq_info all_publ local_publ]. split.
  - constructor; [|exact Hnd]. intros Hin.
    assert (H : existsb (publ_matches node port key) (all_publ (sseq_info s))
                = true).
    { apply existsb_exists. exists publ. split; [exact Hin|].
      unfold publ_matches. rewrite Hn, Hp, Hk, !Z.eqb_refl.
      cbn [andb]. apply orb_true_r. }
    congruence.
  - intros p [<-|Hin] Hown.
    + rewrite Hown. now left.
    + specialize (Hloc p Hin Hown).
      destruct (in_own_node (publ_node publ)); [now right|exact Hloc].
Qed.

Lemma live_nth_agree nseq idx :
  Forall (lists_agree in_own_node) (live nseq) ->
  0 <= idx < first_free nseq ->
  first_free nseq <= Z.of_nat (length (sseqs nseq)) ->
  lists_agree in_own_node (sseq_at (sseqs nseq) idx).
Proof.
  intros H Hidx Hlen. rewrite Forall_forall in H. apply H.
  now apply live_in.
Qed.

(** X17.  With in_own_node true of the zero address, as in the kernel, a
    sequence whose lists agree (no publication twice on an all_publ list,
    every publication of this node on all_publ also on local_publ) stays
    so under every successful tipc_nameseq_insert_publ and every
    tipc_nameseq_remove_publ, and on such a sequence a withdrawal always
    returns: the publication it unlinks from local_publ is on that list,
    so the list_del never meets null links. *)
Theorem withdraw_never_faults nseq :
  nameseq_inv nseq = true ->
  Forall (lists_agree in_own_node) (live nseq) ->
  (forall inst node port key,
     exists r nseq' reports,
       tipc_nameseq_remove_publ in_own_node nseq inst node port key
       = Some (r, nseq', reports) /\
       Forall (lists_agree in_own_node) (live nseq')) /\
  (forall type lower upper scope node port key al publ nseq' reports,
     lower <= upper -> alloc nseq * 2 <= max_alloc ->
     tipc_nameseq_insert_publ in_own_node nseq type lower upper scope node
                              port key al = (Some publ, nseq', reports) ->
     Forall (lists_agree in_own_node) (live nseq')).
Proof.
  intros Hinv Hagree.
  pose proof Hinv as Hb. apply nameseq_inv_spec in Hb.
  destruct Hb as [[Hlen [Hff Hal]] _].
  split.
  - intros inst node port key.
    pose proof (remove_publ_spec in_own_node nseq inst node port key Hinv)
      as Hspec.
    revert Hspec. unfold tipc_nameseq_remove_publ.
    destruct (nameseq_find_subseq nseq inst) as [idx|] eqn:Hsub;
      [|intros _; eauto 6].
    assert (Hidx : 0 <= idx < first_free nseq).
    { apply (find_subseq_range nseq inst idx); [|exact Hsub].
      apply array_bounds_spec. auto. }
    pose proof (live_nth_agree nseq idx Hagree Hidx ltac:(lia)) as Hslot.
    set (s := sseq_at (sseqs nseq) idx) in *.
    destruct (find (publ_matches node port key) (all_publ (sseq_info s)))
      as [publ|] eqn:Hf; [|intros _; eauto 6].
    pose proof (lists_agree_removed s node port key publ Hslot Hf) as Hnew.
    assert (Hloc : (if in_own_node node
                    then list_del_entry publ (local_publ (sseq_info s))
                    else Some (local_publ (sseq_info s)))
                   = Some (if in_own_node node
                           then list_del_first (publ_eqb publ)
                                  (local_publ (sseq_info s))
                           else local_publ (sseq_info s))).
    { destruct (in_own_node node) eqn:Hown; [|reflexivity].
      unfold list_del_entry.
      now rewrite (matched_is_local s node port key publ Hslot Hf Hown). }
    rewrite Hloc. clear Hloc.
    set (loc' := if in_own_node node
                 then list_del_first (publ_eqb publ)
                                     (local_publ (sseq_info s))
                 else local_publ (sseq_info s)) in *.
    destruct (list_del_first (publ_matches node port key)
                             (all_publ (sseq_info s))) as [|q r] eqn:Hrest.
    + intros [idx' [Hi [_ [_ Hshape]]]]. injection Hi as <-.
      fold s in Hshape. rewrite Hrest in Hshape.
      destruct Hshape as [_ [Hlive _]].
      eexists _, _, _. split; [reflexivity|].
      rewrite Hlive. now apply Forall_delete_at.
    + intros _. eexists _, _, _. split; [reflexivity|].
      rewrite live_set_info by (try apply array_bounds_spec; auto).
      now apply Forall_replace_at.
  - intros type lower upper scope node port key al publ nseq' reports
           Hrange Hroom Hres.
    destruct (insert_publ_shape in_own_node nseq type lower upper scope node
                port key al publ nseq' reports Hinv Hrange Hroom Hres)
      as [Hp [_ [_ [_ [Hpos Hcase]]]]].
    assert (Hn : publ_node publ = node) by now rewrite Hp.
    assert (Hpt : publ_port publ = port) by now rewrite Hp.
    assert (Hk : publ_key publ = key) by now rewrite Hp.
    destruct (nameseq_find_subseq nseq lower) as [idx|].
    + destruct Hcase as [_ [Hlt [Hlo [Hup [Hdup [-> _]]]]]].
      rewrite live_set_info by (try apply array_bounds_spec; auto; lia).
      apply Forall_replace_at; [exact Hagree|].
      apply (lists_agree_linked _ publ _ _ node port key); auto.
      apply live_nth_agree; auto; lia.
    + destruct Hcase as [_ [-> _]].
      apply Forall_insert_at; [exact Hagree|].
      apply (lists_agree_linked
               (mk_sub_seq lower upper (mk_name_info [] []))
               publ lower upper node port key); auto.
      split; [constructor|intros p []].
Qed.

End NoFault.

Lemma withdraw_never_faults_witness :
  sample_own_or_zero 0 = true /\ nameseq_inv own_range = true /\
  Forall (lists_agree sample_own_or_zero) (live own_range) /\
  exists r nseq' reports,
    tipc_nameseq_remove_publ sample_own_or_zero own_range 5 sample_own 100 1
    = Some (r, nseq', reports) /\
    Forall (lists_agree sample_own_or_zero) (live nseq').
Proof.
  assert (Hag : Forall (lists_agree sample_own_or_zero) (live own_range)).
  { unfold live. cbn [own_range first_free sseqs Z.to_nat Pos.to_nat
                      Pos.iter_op Nat.add firstn].
    constructor; [|constructor]. split.
    - cbn [sseq_info all_publ]. constructor; [intros []|constructor].
    - cbn [sseq_info all_publ local_publ]. intros p H _. exact H. }
  split; [reflexivity|]. split; [reflexivity|]. split; [exact Hag|].
  exact (proj1 (withdraw_never_faults sample_own_or_zero eq_refl own_range
                  eq_refl Hag) 5 sample_own 100 1).
Defined.

(** ** The outcomes of a translation *)

Section TranslateOutcomes.

Variable own_addr : Z.
Variable tipc_in_scope : Z -> Z -> bool.

(** X18.  On a well-formed table tipc_nametbl_translate always returns,
    in one of the three ways its header comment lists.  When [destnode]
    is not in scope it returns 0 and leaves [destnode] and the table as
    they are.  When the table has no sequence of the type, or no
    sub-sequence holding the instance, or [destnode] is this node's
    non-zero address and local_publ is empty, it returns 0, sets
    [destnode] to 0 and leaves the table as it is.  Otherwise it returns
    the port of the publication at the head of local_publ or of all_publ
    of the sub-sequence that holds the instance and sets [destnode] to
    the node of that publication. *)
Theorem translate_outcomes tbl type instance destnode :
  nametbl_inv tbl = true ->
  exists port node tbl',
    tipc_nametbl_translate own_addr tipc_in_scope tbl type instance destnode
    = Some (port, node, tbl') /\
    ((tipc_in_scope destnode own_addr = false /\
      port = 0 /\ node = destnode /\ tbl' = tbl) \/
     (tipc_in_scope destnode own_addr = true /\
      port = 0 /\ node = 0 /\ tbl' = tbl /\
      match nametbl_find_seq tbl type with
      | None => True
      | Some seq =>
        match nameseq_find_subseq seq instance with
        | None => True
        | Some idx =>
          destnode <> 0 /\ destnode = own_addr /\
          local_publ (sseq_info (sseq_at (sseqs seq) idx)) = []
        end
      end) \/
     (tipc_in_scope destnode own_addr = true /\
      exists seq idx publ,
        nametbl_find_seq tbl type = Some seq /\
        nameseq_find_subseq seq instance = Some idx /\
        contains (sseq_at (sseqs seq) idx) instance = true /\
        port = publ_port publ /\ node = publ_node publ /\
        (hd_error (local_publ (sseq_info (sseq_at (sseqs seq) idx)))
         = Some publ \/
         hd_error (all_publ (sseq_info (sseq_at (sseqs seq) idx)))
         = Some publ))).
Proof.
  intros Hinv. unfold tipc_nametbl_translate.
  destruct (tipc_in_scope destnode own_addr) eqn:Hscope; cbn [negb];
    [|eexists _, _, _; split; [reflexivity|left; auto]].
  destruct (nametbl_find_seq tbl type) as [seq|] eqn:Hfind;
    [|eexists _, _, _; split; [reflexivity|right; left; auto]].
  pose proof (nametbl_inv_find tbl type seq Hinv Hfind) as Hseq.
  destruct (nameseq_find_subseq seq instance) as [idx|] eqn:Hsub;
    [|eexists _, _, _; split; [reflexivity|right; left; auto]].
  pose proof Hseq as H. apply nameseq_inv_spec in H.
  destruct H as [Hb [_ Hbind]]. apply array_bounds_spec in Hb.
  destruct (find_subseq_range seq instance idx Hb Hsub) as [Hidx Hc].
  specialize (Hbind idx Hidx). unfold has_binding in Hbind.
  cbv zeta. unfold first_entry_move_tail.
  destruct (all_publ (sseq_info (sseq_at (sseqs seq) idx)))
    as [|pa ra] eqn:Hall; [discriminate|].
  destruct (Z.eqb_spec destnode 0) as [Hz|Hnz];
    [|destruct (Z.eqb_spec destnode own_addr) as [Hown|Hother]];
    destruct (local_publ (sseq_info (sseq_at (sseqs seq) idx)))
      as [|pl rl] eqn:Hloc;
    eexists _, _, _; (split; [reflexivity|]);
    try (right; left; now auto 10);
    right; right; (split; [reflexivity|]);
    eexists seq, idx, _; rewrite ?Hloc, ?Hall; cbn [hd_error]; auto 10.
Qed.

End TranslateOutcomes.

Lemma translate_outcomes_witness :
  nametbl_inv mixed_bound = true /\
  exists port node tbl',
    tipc_nametbl_translate sample_own sample_in_scope mixed_bound 10 5 0
    = Some (port, node, tbl').
Proof.
  split; [reflexivity|].
  destruct (translate_outcomes sample_own sample_in_scope mixed_bound 10 5 0
              eq_refl) as [port [node [tbl' [H _]]]].
  exists port, node, tbl'. exact H.
Defined.

(** ** All destinations *)

Lemma dest_push_in l node port ok v :
  (In v l -> In v (snd (tipc_dest_push l node port ok))) /\
  (In v (snd (tipc_dest_push l node port ok)) ->
   In v l \/ v = dest_value node port) /\
  (ok = true ->
   In (dest_value node port) (snd (tipc_dest_push l node port ok))).
Proof.
  unfold tipc_dest_push. pose proof (dest_find_spec l node port) as H.
  destruct (tipc_dest_find l node port) as [w|]; cbn [snd].
  - destruct H as [-> Hin]. auto.
  - destruct ok; cbn [snd In]; repeat split; auto; try tauto.
    + intros [<-|Hv]; auto.
    + discriminate.
Qed.

Section AllDestinations.

Variable own_addr : Z.

Lemma lookup_loop_all_dsts scope exclude : forall l ok dsts c,
  let '(d, c', l') :=
    lookup_loop own_addr l scope exclude true ok dsts c in
  l' = l /\
  (forall v, In v dsts -> In v d) /\
  (forall v, In v d ->
     In v dsts \/
     exists p, In p l /\ acceptable own_addr scope exclude p = true /\
               v = dest_value (publ_node p) (publ_port p)) /\
  ((forall n, ok n = true) ->
   forall p, In p l -> acceptable own_addr scope exclude p = true ->
             In (dest_value (publ_node p) (publ_port p)) d).
Proof.
  induction l as [|publ r IH]; intros ok dsts c.
  - cbn. repeat split; auto. intros _ p [].
  - cbn [lookup_loop].
    assert (Hskip : acceptable own_addr scope exclude publ = false ->
              let '(d, c', l') :=
                (let '(d, c0, r') :=
                   lookup_loop own_addr r scope exclude true
                               (fun n => ok (S n)) dsts c in
                 (d, c0, publ :: r')) in
              l' = publ :: r /\
              (forall v, In v dsts -> In v d) /\
              (forall v, In v d ->
                 In v dsts \/
                 exists p, In p (publ :: r) /\
                           acceptable own_addr scope exclude p = true /\
                           v = dest_value (publ_node p) (publ_port p)) /\
              ((forall n, ok n = true) ->
               forall p, In p (publ :: r) ->
                         acceptable own_addr scope exclude p = true ->
                         In (dest_value (publ_node p) (publ_port p)) d)).
    { intros Hacc. specialize (IH (fun n => ok (S n)) dsts c).
      destruct (lookup_loop own_addr r scope exclude true _ dsts c)
        as [[d c'] l'].
      destruct IH as [-> [H1 [H2 H3]]].
      split; [reflexivity|]. split; [exact H1|]. split.
      - intros v Hv. destruct (H2 v Hv) as [H|[p [Hp [Ha ->]]]];
          [now left|right]. exists p. cbn [In]. auto.
      - intros Hok p [<-|Hp] Ha; [congruence|]. apply H3; auto. }
    assert (Hacc : acceptable own_addr scope exclude publ
                   = (publ_scope publ =? scope) &&
                     negb ((publ_port publ =? exclude) &&
                           (publ_node publ =? own_addr))) by reflexivity.
    destruct (publ_scope publ =? scope); cbn [negb andb] in *;
      [|now apply Hskip].
    destruct ((publ_port publ =? exclude) && (publ_node publ =? own_addr));
      cbn [negb] in *; [now apply Hskip|]. clear Hskip.
    destruct (dest_push_in dsts (publ_node publ) (publ_port publ) (ok O)
                (dest_value (publ_node publ) (publ_port publ)))
      as [_ [_ Hnew]].
    specialize (IH (fun n => ok (S n))
                   (snd (tipc_dest_push dsts (publ_node publ)
                                        (publ_port publ) (ok O)))
                   (s32 (c + 1))).
    destruct (lookup_loop own_addr r scope exclude true _ _ (s32 (c + 1)))
      as [[d c'] l'].
    destruct IH as [-> [H1 [H2 H3]]].
    split; [reflexivity|]. split; [|split].
    + intros v Hv. apply H1.
      now apply (dest_push_in dsts (publ_node publ) (publ_port publ) (ok O)).
    + intros v Hv. destruct (H2 v Hv) as [H|[p [Hp [Ha ->]]]].
      * apply (dest_push_in dsts (publ_node publ) (publ_port publ) (ok O))
          in H.
        destruct H as [H| ->]; [now left|right].
        exists publ. cbn [In]. auto.
      * right. exists p. cbn [In]. auto.
    + intros Hok p [<-|Hp] Ha.
      * apply H1. apply Hnew. apply Hok.
      * apply H3; auto.
Qed.

(** X19.  With [all] set, tipc_nametbl_lookup leaves the table exactly as
    it was (no publication is moved) and returns whether the destination
    list is non-empty.  The list keeps every entry it had; every entry it
    gains is the destination of a publication on the all_publ list of the
    sub-sequence with the requested scope that is not the excluded port
    of this node; and when the allocations of the pushes succeed, the
    destination of every such publication is on it. *)
Theorem lookup_all_destinations tbl type instance idx i scope dsts exclude
        ok :
  binding_at tbl type instance idx i ->
  let '(found, d, c, tbl') :=
    tipc_nametbl_lookup own_addr tbl type instance scope dsts exclude true ok
  in
  tbl' = tbl /\
  found = match d with [] => false | _ :: _ => true end /\
  (forall v, In v dsts -> In v d) /\
  (forall v, In v d ->
     In v dsts \/
     exists p, In p (all_publ i) /\
               acceptable own_addr scope exclude p = true /\
               v = dest_value (publ_node p) (publ_port p)) /\
  ((forall n, ok n = true) ->
   forall p, In p (all_publ i) ->
             acceptable own_addr scope exclude p = true ->
             In (dest_value (publ_node p) (publ_port p)) d).
Proof.
  intros [nseq [Hlen [Hfind [Hbounds [Hsub Hi]]]]].
  unfold tipc_nametbl_lookup. rewrite Hfind, Hsub, Hi.
  pose proof (lookup_loop_all_dsts scope exclude (all_publ i) ok dsts 0)
    as H.
  destruct (lookup_loop own_addr (all_publ i) scope exclude true ok dsts 0)
    as [[d c] l'].
  destruct H as [-> H]. split; [|split; [reflexivity|exact H]].
  replace (mk_name_info (local_publ i) (all_publ i)) with i
    by now destruct i.
  rewrite <- Hi, set_info_same.
  - now apply update_seq_same.
  - destruct (find_subseq_range nseq instance idx Hbounds Hsub)
      as [Hidx _].
    apply array_bounds_spec in Hbounds. lia.
Qed.

End AllDestinations.

Lemma lookup_all_destinations_witness :
  binding_at mixed_bound 10 5 0
    (mk_name_info [mk_publication 10 5 5 0 sample_own 100 1]
                  [mk_publication 10 5 5 0 9 200 2;
                   mk_publication 10 5 5 0 sample_own 100 1]) /\
  snd (tipc_nametbl_lookup sample_own mixed_bound 10 5 0 [] 100 true
                           (fun _ => true)) = mixed_bound.
Proof.
  split; [exact binding_at_mixed_bound|].
  pose proof (lookup_all_destinations sample_own mixed_bound 10 5 0 _ 0 []
                100 (fun _ => true) binding_at_mixed_bound) as H.
  destruct (tipc_nametbl_lookup sample_own mixed_bound 10 5 0 [] 100 true
                                (fun _ => true)) as [[[found d] c] tbl'].
  exact (proj1 H).
Defined.

(** ** Subscribers and publications *)

Lemma subscribed_sequence no_status check tbl sub al :
  Z.of_nat (length (seq_hlist tbl)) = TIPC_NAMETBL_SIZE ->
  nametbl_find_seq tbl (sub_seq_type sub) <> None \/
  nseq_ok al && sseq_ok al = true ->
  let type := sub_seq_type sub in
  let old := match nametbl_find_seq tbl type with
             | Some seq => seq
             | None => tipc_nameseq_create type
             end in
  let tbl1 := fst (tipc_nametbl_subscribe no_status check tbl sub al) in
  Z.of_nat (length (seq_hlist tbl1)) = TIPC_NAMETBL_SIZE /\
  nametbl_find_seq tbl1 type
  = Some (mk_name_seq type (sseqs old) (alloc old) (first_free old)
                      (sub :: subscriptions old)).
Proof.
  intros Hlen Hcan type old tbl1.
  pose proof (hash_range (s32 type)) as Hh.
  unfold tbl1, old, tipc_nametbl_subscribe. fold type.
  destruct (nametbl_find_seq tbl type) as [seq|] eqn:Hfind.
  - pose proof (find_seq_type tbl type seq Hfind) as Hty.
    pose proof (nameseq_subscribe_seq no_status check seq sub) as Hs.
    destruct (tipc_nameseq_subscribe no_status check seq sub) as [ns' rep].
    cbn [fst] in *. subst ns'. rewrite Hty.
    split; [now apply length_update_seq|].
    apply (find_seq_update tbl type seq); auto.
  - destruct Hcan as [Hcan|Hcan]; [exfalso; apply Hcan; exact Hfind|].
    rewrite Hcan.
    pose proof (nameseq_subscribe_seq no_status check
                  (tipc_nameseq_create type) sub) as Hs.
    destruct (tipc_nameseq_subscribe no_status check
                (tipc_nameseq_create type) sub) as [ns' rep].
    cbn [fst] in *. subst ns'.
    cbn [tipc_nameseq_create ns_type sseqs alloc first_free subscriptions].
    assert (Hlen0 : Z.of_nat (length (seq_hlist
                      (set_bucket tbl (hash (s32 type))
                         (tipc_nameseq_create type
                          :: bucket_of tbl (hash (s32 type))))))
                    = TIPC_NAMETBL_SIZE)
      by (apply length_link_seq; auto).
    split; [now apply length_update_seq|].
    apply (find_seq_update _ type (tipc_nameseq_create type)); auto.
    apply find_seq_link; auto.
Qed.

Section Subscribers.

Variable TIPC_SUB_NO_STATUS : Z.
Variable tipc_sub_check_overlap : Z -> Z -> Z -> Z -> Z -> bool.
Variable TIPC_NODE_SCOPE : Z.
Variable in_own_node : Z -> bool.

(** The reports of a successful insertion, for any sequence. *)
Lemma insert_publ_reports nseq type lower upper scope node port key al publ
      nseq' reports :
  tipc_nameseq_insert_publ in_own_node nseq type lower upper scope node port
                           key al = (Some publ, nseq', reports) ->
  publ = mk_publication type lower upper scope node port key /\
  subscriptions nseq' = subscriptions nseq /\
  reports = report_subscriptions (subscriptions nseq) publ TIPC_PUBLISHED
              match nameseq_find_subseq nseq lower with
              | Some _ => false
              | None => true
              end.
Proof.
  unfold tipc_nameseq_insert_publ.
  destruct (nameseq_find_subseq nseq lower) as [idx|]; cbv zeta.
  - destruct (negb _ || negb _); [discriminate|].
    destruct (existsb _ _); [discriminate|].
    intros H. apply link_publication_result in H.
    destruct H as [-> [-> [-> _]]]. auto.
  - destruct (_ && _); [discriminate|].
    destruct (first_free nseq =? alloc nseq);
      [destruct (grow_ok al); [|discriminate]|];
      (destruct (info_ok al); [|discriminate]);
      intros H; apply link_publication_result in H;
      destruct H as [-> [-> [-> _]]]; auto.
Qed.

(** X20.  Once tipc_nametbl_subscribe has attached a subscription, every
    tipc_nametbl_insert_publ of its type that returns a publication calls
    tipc_sub_report_overlap for it first, with the range, port, node and
    scope of the publication and the event TIPC_PUBLISHED, and then for
    the subscribers the sequence had before, with the same flag; the
    subscription stays at the head of the list. *)
Theorem subscriber_hears_publish tbl sub al :
  Z.of_nat (length (seq_hlist tbl)) = TIPC_NAMETBL_SIZE ->
  let type := sub_seq_type sub in
  let before := match nametbl_find_seq tbl type with
                | Some seq => subscriptions seq
                | None => []
                end in
  nametbl_find_seq tbl type <> None \/ nseq_ok al && sseq_ok al = true ->
  forall lower upper scope node port key al' publ tbl2 reports,
    tipc_nametbl_insert_publ TIPC_NODE_SCOPE in_own_node
      (fst (tipc_nametbl_subscribe TIPC_SUB_NO_STATUS tipc_sub_check_overlap
              tbl sub al))
      type lower upper scope node port key al' = (Some publ, tbl2, reports) ->
    let must := match nametbl_find_seq tbl type with
                | Some seq =>
                  match nameseq_find_subseq seq lower with
                  | Some _ => false
                  | None => true
                  end
                | None => true
                end in
    reports
    = mk_report sub lower upper TIPC_PUBLISHED port node scope must
      :: report_subscriptions before publ TIPC_PUBLISHED must /\
    exists seq2,
      nametbl_find_seq tbl2 type = Some seq2 /\
      subscriptions seq2 = sub :: before.
Proof.
  intros Hlen type before Hcan lower upper scope node port key al' publ tbl2
         reports.
  destruct (subscribed_sequence TIPC_SUB_NO_STATUS
              tipc_sub_check_overlap tbl sub al Hlen Hcan)
    as [Hlen1 Hf1].
  fold type in Hf1.
  set (tbl1 := fst (tipc_nametbl_subscribe TIPC_SUB_NO_STATUS
                      tipc_sub_check_overlap tbl sub al)) in *.
  set (old := match nametbl_find_seq tbl type with
              | Some seq => seq
              | None => tipc_nameseq_create type
              end) in *.
  assert (Hbefore : subscriptions old = before).
  { unfold old, before. now destruct (nametbl_find_seq tbl type). }
  set (seq1 := mk_name_seq type (sseqs old) (alloc old) (first_free old)
                           (sub :: subscriptions old)) in *.
  assert (Hmust : match nameseq_find_subseq seq1 lower with
                  | Some _ => false
                  | None => true
                  end
                  = match nametbl_find_seq tbl type with
                    | Some seq =>
                      match nameseq_find_subseq seq lower with
                      | Some _ => false
                      | None => true
                      end
                    | None => true
                    end).
  { change (nameseq_find_subseq seq1 lower)
      with (nameseq_find_subseq old lower).
    unfold old. now destruct (nametbl_find_seq tbl type). }
  unfold tipc_nametbl_insert_publ. rewrite Hf1.
  destruct ((TIPC_NODE_SCOPE <? scope) || (upper <? lower));
    [discriminate|].
  destruct (tipc_nameseq_insert_publ in_own_node seq1 type lower upper scope
              node port key al') as [[p ns'] rep] eqn:Hins.
  intros [= -> <- ->].
  pose proof (insert_publ_type in_own_node seq1 type lower upper scope node
                port key al') as Hty.
  rewrite Hins in Hty. cbn [fst snd ns_type] in Hty.
  apply insert_publ_reports in Hins.
  destruct Hins as [Hp [Hsub Hrep]].
  change (subscriptions seq1) with (sub :: subscriptions old) in Hsub, Hrep.
  change (ns_type seq1) with type in Hty.
  rewrite Hbefore in Hsub, Hrep. rewrite Hmust in Hrep.
  cbv zeta. split.
  - rewrite Hrep. unfold report_subscriptions. cbn [map].
    now rewrite Hp.
  - exists ns'. split; [|exact Hsub].
    apply (find_seq_update tbl1 type _ ns' Hlen1 Hf1 Hty).
Qed.

End Subscribers.

Lemma subscriber_hears_publish_witness :
  Z.of_nat (length (seq_hlist once_bound)) = TIPC_NAMETBL_SIZE /\
  snd (tipc_nametbl_insert_publ sample_max_scope sample_in_own_node
         (fst (tipc_nametbl_subscribe sample_no_status sample_check_overlap
                 once_bound sample_sub allocs_succeed))
         10 7 8 0 9 300 5 allocs_succeed)
  = [mk_report sample_sub 7 8 TIPC_PUBLISHED 300 9 0 true].
Proof.
  split; [reflexivity|].
  exact (proj1 (subscriber_hears_publish sample_no_status
                  sample_check_overlap sample_max_scope sample_in_own_node
                  once_bound sample_sub allocs_succeed eq_refl
                  (or_intror eq_refl) 7 8 0 9 300 5 allocs_succeed
                  (mk_publication 10 7 8 0 9 300 5)
                  (snd (fst (tipc_nametbl_insert_publ sample_max_scope
                               sample_in_own_node
                               (fst (tipc_nametbl_subscribe sample_no_status
                                       sample_check_overlap once_bound
                                       sample_sub allocs_succeed))
                               10 7 8 0 9 300 5 allocs_succeed)))
                  (snd (tipc_nametbl_insert_publ sample_max_scope
                          sample_in_own_node
                          (fst (tipc_nametbl_subscribe sample_no_status
                                  sample_check_overlap once_bound
                                  sample_sub allocs_succeed))
                          10 7 8 0 9 300 5 allocs_succeed))
                  eq_refl)).
Defined.
